(** * util2d: stereo correspondence and depth utilities

    A shallow embedding of [corelib/src/util2d.cpp] (namespace
    [rtabmap::util2d]) and the properties of its block scorers, depth
    conversions, depth registration, hole filling and stereo matchers.

    Conventions of the embedding:
    - C++ [int], [unsigned short], [unsigned char] values are integers of
      [Z]; where the source narrows a value the narrowing is written out;
    - C++ [float] is IEEE-754 binary32 and [double] is binary64, both taken
      from the bit-exact specification [SpecFloat] of the standard library,
      operations rounding to nearest, ties to even;
    - a [cv::Mat] is a record of its dimensions and a pixel accessor;
    - a conversion whose result C++ leaves undefined yields [None]. *)

From Stdlib Require Import ZArith QArith Qabs List Bool Lia Permutation.
From Stdlib Require Import Floats.SpecFloat.
Import ListNotations.
Open Scope Z_scope.

(** ** Counted loops *)

(** The indices visited by [for (i = lo; i < hi; ++i)]. *)
Fixpoint range_from (n : nat) (lo : Z) : list Z :=
  match n with
  | O => []
  | S n' => lo :: range_from n' (lo + 1)
  end.

Definition range (lo hi : Z) : list Z := range_from (Z.to_nat (hi - lo)) lo.

(** A loop whose body does not touch its index. *)
Definition for_range {S : Type} (lo hi : Z) (body : Z -> S -> S) (s : S) : S :=
  fold_left (fun acc i => body i acc) (range lo hi) s.

(** Two nested loops over the rows and columns of an image. *)
Definition for_pixels {S : Type} (r c : Z) (body : Z -> Z -> S -> S) (s : S) : S :=
  for_range 0 r (fun i => for_range 0 c (fun j => body i j)) s.

(** ** Floating point *)

Definition float := spec_float.
Definition double := spec_float.

(** Truncation toward zero of a finite value. *)
Definition trunc (x : spec_float) : option Z :=
  match x with
  | S754_zero _ => Some 0
  | S754_finite s m e =>
      Some (cond_Zopp s (if 0 <=? e then Zpos m * 2 ^ e else Zpos m / 2 ^ (- e)))
  | _ => None
  end.

(** Conversion to an integer type holding [lo..hi]: truncation, undefined
    when the truncated value is not representable. *)
Definition to_integer (lo hi : Z) (x : spec_float) : option Z :=
  match trunc x with
  | Some z => if (lo <=? z) && (z <=? hi) then Some z else None
  | None => None
  end.

Definition in_int (z : Z) : option Z :=
  if (- 2 ^ 31 <=? z) && (z <=? 2 ^ 31 - 1) then Some z else None.

Definition to_int : spec_float -> option Z := to_integer (- 2 ^ 31) (2 ^ 31 - 1).

(** [cvFloor]: the largest [int] not above the value. *)
Definition cvFloor (x : spec_float) : option Z :=
  match x with
  | S754_zero _ => Some 0
  | S754_finite s m e =>
      in_int (if 0 <=? e then cond_Zopp s (Zpos m * 2 ^ e)
              else cond_Zopp s (Zpos m) / 2 ^ (- e))
  | _ => None
  end.

(** [cvRound]: the nearest [int], ties to even. *)
Definition cvRound (x : spec_float) : option Z :=
  match x with
  | S754_zero _ => Some 0
  | S754_finite s m e =>
      if 0 <=? e then in_int (cond_Zopp s (Zpos m * 2 ^ e))
      else
        let q := Zpos m / 2 ^ (- e) in
        let r := Zpos m mod 2 ^ (- e) in
        let up := (2 ^ (- e) <? 2 * r) || ((2 ^ (- e) =? 2 * r) && Z.odd q) in
        in_int (cond_Zopp s (if up then q + 1 else q))
  | _ => None
  end.
Definition to_ushort : spec_float -> option Z := to_integer 0 65535.

Definition is_nan (x : spec_float) : bool :=
  match x with S754_nan => true | _ => false end.

(** [uIsFinite]: neither NaN nor an infinity. *)
Definition uIsFinite (x : spec_float) : bool :=
  match x with S754_nan | S754_infinity _ => false | _ => true end.

(** [float]: binary32. *)
Module F32.
Definition prec : Z := 24.
Definition emax : Z := 128.

Definition add : float -> float -> float := SFadd prec emax.
Definition sub : float -> float -> float := SFsub prec emax.
Definition mul : float -> float -> float := SFmul prec emax.
Definition div : float -> float -> float := SFdiv prec emax.
Definition abs : float -> float := SFabs.
Definition opp : float -> float := SFopp.
Definition ltb : float -> float -> bool := SFltb.
Definition leb : float -> float -> bool := SFleb.
Definition eqb : float -> float -> bool := SFeqb.
Definition gtb (x y : float) : bool := SFltb y x.
Definition geb (x y : float) : bool := SFleb y x.
Definition neqb (x y : float) : bool := negb (SFeqb x y).

(** Conversion of an integer, rounded when it does not fit. *)
Definition of_Z (z : Z) : float := binary_normalize prec emax z 0 false.

(** The decimal literal [n / d], correctly rounded. *)
Definition lit (n d : Z) : float := div (of_Z n) (of_Z d).

Definition sqrt : float -> float := SFsqrt prec emax.

Definition valid (x : float) : bool := valid_binary prec emax x.

Definition zero : float := S754_zero false.
End F32.

(** [double]: binary64. *)
Module F64.
Definition prec : Z := 53.
Definition emax : Z := 1024.

Definition add : double -> double -> double := SFadd prec emax.
Definition mul : double -> double -> double := SFmul prec emax.
Definition div : double -> double -> double := SFdiv prec emax.
Definition ltb : double -> double -> bool := SFltb.
Definition leb : double -> double -> bool := SFleb.
Definition abs : double -> double := SFabs.
Definition of_Z (z : Z) : double := binary_normalize prec emax z 0 false.
Definition lit (n d : Z) : double := div (of_Z n) (of_Z d).
Definition valid (x : double) : bool := valid_binary prec emax x.
End F64.

(** Widening of a [float] to [double]: exact, the value in the binary64
    representation. *)
Definition float_to_double (x : float) : double :=
  match x with
  | S754_finite s m e => binary_round F64.prec F64.emax s m e
  | _ => x
  end.

(** Narrowing of a [double] to [float]. *)
Definition double_to_float (x : double) : float :=
  match x with
  | S754_finite s m e => binary_round F32.prec F32.emax s m e
  | _ => x
  end.

Definition USHRT_MAX : Z := 65535.

(** [0.5f] *)
Definition half : float := F32.lit 1 2.

(** ** Images *)

(** A [cv::Mat] with samples of type [A]; [at_ m v u] is [m.at<A>(v, u)],
    row [v] and column [u]. *)
Record Mat (A : Type) : Type := mkMat {
  rows : Z;
  cols : Z;
  at_ : Z -> Z -> A
}.
Arguments mkMat {A} _ _ _.
Arguments rows {A} _.
Arguments cols {A} _.
Arguments at_ {A} _ _ _.

(** Assignment through the reference [m.at<A>(v, u)]. *)
Definition set_at {A : Type} (m : Mat A) (v u : Z) (x : A) : Mat A :=
  mkMat (rows m) (cols m)
        (fun v' u' => if (v' =? v) && (u' =? u) then x else at_ m v' u').

(** [cv::Mat(rows, cols, type)] filled with one value. *)
Definition constant {A : Type} (r c : Z) (x : A) : Mat A :=
  mkMat r c (fun _ _ => x).

(** An image given by its rows; a sample outside the rows is [d]. *)
Definition of_rows {A : Type} (d : A) (l : list (list A)) : Mat A :=
  mkMat (Z.of_nat (length l))
        (match l with [] => 0 | r :: _ => Z.of_nat (length r) end)
        (fun v u =>
           if (v <? 0) || (u <? 0) then d
           else nth (Z.to_nat u) (nth (Z.to_nat v) l []) d).

(** The rows of an image, for display and comparison. *)
Definition to_rows {A : Type} (m : Mat A) : list (list A) :=
  map (fun v => map (fun u => at_ m v u) (range 0 (cols m))) (range 0 (rows m)).

(** The sub-matrix header [cv::Mat(m, cv::Range(r0, r1), cv::Range(c0, c1))]. *)
Definition submat {A : Type} (m : Mat A) (r0 r1 c0 c1 : Z) : Mat A :=
  mkMat (r1 - r0) (c1 - c0) (fun v u => at_ m (r0 + v) (c0 + u)).

(** [m.empty()] *)
Definition mat_empty {A : Type} (m : Mat A) : bool :=
  (rows m <=? 0) || (cols m <=? 0).

(** Every sample inside the image satisfies [p]. *)
Definition all_samples {A : Type} (p : A -> bool) (m : Mat A) : bool :=
  forallb (fun v => forallb (fun u => p (at_ m v u)) (range 0 (cols m)))
          (range 0 (rows m)).

(** The number of samples inside the image that satisfy [p]. *)
Definition count_samples {A : Type} (p : A -> bool) (m : Mat A) : Z :=
  for_pixels (rows m) (cols m)
    (fun i j n => if p (at_ m i j) then n + 1 else n) 0.

(** [uIsInBounds(v, lo, hi)] of UMath.h: [lo <= v < hi]. *)
Definition uIsInBounds (v lo hi : Z) : bool := (lo <=? v) && (v <? hi).

(** ** Block dissimilarity scorers ([ssd], [sad]) *)

(** The sample encodings a window can have: the three the scorers accept,
    and any other [cv::Mat] type. *)
Inductive Window : Type :=
| Win8UC1 (m : Mat Z)              (* 8-bit gray *)
| Win32FC1 (m : Mat float)         (* 32-bit float *)
| Win16SC2 (m : Mat (Z * Z))       (* two 16-bit signed components *)
| WinOther (r c : Z).

Definition win_rows (w : Window) : Z :=
  match w with
  | Win8UC1 m => rows m | Win32FC1 m => rows m | Win16SC2 m => rows m
  | WinOther r _ => r
  end.

Definition win_cols (w : Window) : Z :=
  match w with
  | Win8UC1 m => cols m | Win32FC1 m => cols m | Win16SC2 m => cols m
  | WinOther _ c => c
  end.



(** The comparable intensity of a packed sample:
    [float(p[0])*0.5f + float(p[1])*0.5f]. *)
Definition packed_intensity (p : Z * Z) : float :=
  F32.add (F32.mul (F32.of_Z (fst p)) half) (F32.mul (F32.of_Z (snd p)) half).

(** The difference [s] of the samples at [(v, u)]; [None] when the
    assertions on the types fail. *)
Definition sample_diff (wl wr : Window) : option (Z -> Z -> float) :=
  match wl, wr with
  | Win8UC1 l, Win8UC1 r =>
      Some (fun v u => F32.sub (F32.of_Z (at_ l v u)) (F32.of_Z (at_ r v u)))
  | Win32FC1 l, Win32FC1 r =>
      Some (fun v u => F32.sub (at_ l v u) (at_ r v u))
  | Win16SC2 l, Win16SC2 r =>
      Some (fun v u => F32.sub (packed_intensity (at_ l v u))
                               (packed_intensity (at_ r v u)))
  | _, _ => None
  end.

(** The double loop of both scorers, accumulating [term (s v u)]. *)
Definition accumulate (r c : Z) (term : Z -> Z -> float) : float :=
  for_range 0 r (fun v score =>
    for_range 0 c (fun u score => F32.add score (term v u)) score)
    F32.zero.

Definition same_shape (wl wr : Window) : bool :=
  (win_rows wl =? win_rows wr) && (win_cols wl =? win_cols wr).

(** Sum of squared differences. *)
Definition ssd (windowLeft windowRight : Window) : option float :=
  match sample_diff windowLeft windowRight with
  | Some s =>
      if same_shape windowLeft windowRight then
        Some (accumulate (win_rows windowLeft) (win_cols windowLeft)
                (fun v u => F32.mul (s v u) (s v u)))
      else None
  | None => None
  end.

(** Sum of absolute differences. *)
Definition sad (windowLeft windowRight : Window) : option float :=
  match sample_diff windowLeft windowRight with
  | Some s =>
      if same_shape windowLeft windowRight then
        Some (accumulate (win_rows windowLeft) (win_cols windowLeft)
                (fun v u => F32.abs (s v u)))
      else None
  | None => None
  end.

(** The encodings the scorers accept. *)
Definition supported (w : Window) : bool :=
  match w with WinOther _ _ => false | _ => true end.

Definition same_encoding (wl wr : Window) : bool :=
  match wl, wr with
  | Win8UC1 _, Win8UC1 _ | Win32FC1 _, Win32FC1 _ | Win16SC2 _, Win16SC2 _ => true
  | _, _ => false
  end.

(** A window is well formed when its samples are values of its sample type. *)
Definition in_uchar (z : Z) : bool := (0 <=? z) && (z <=? 255).
Definition in_short (z : Z) : bool := (-32768 <=? z) && (z <=? 32767).

Definition well_formed (w : Window) : bool :=
  match w with
  | Win8UC1 m => all_samples in_uchar m
  | Win32FC1 m => true
  | Win16SC2 m => all_samples (fun p => in_short (fst p) && in_short (snd p)) m
  | WinOther _ _ => true
  end.

(** No sample of a float window is NaN or an infinity. *)
Definition finite_samples (w : Window) : bool :=
  match w with
  | Win32FC1 m => all_samples uIsFinite m
  | _ => true
  end.

(** A score is non-negative: not NaN, and [>= 0]. *)
Definition nonneg (x : float) : bool := F32.leb F32.zero x.

(** ** Depth conversions ([cvtDepthFromFloat], [cvtDepthToFloat], [getDepth]) *)

Definition thousand : float := F32.of_Z 1000.
Definition milli : float := F32.lit 1 1000.

(** The body of the loops of [cvtDepthFromFloat] at one pixel: the
    millimetres stored and the increment of [countOverMax]; [None] if the
    narrowing to [unsigned short] were undefined. *)
Definition depth_to_mm (meters : float) : option (Z * Z) :=
  let depth := F32.mul meters thousand in
  if F32.gtb depth F32.zero && F32.leb depth (F32.of_Z USHRT_MAX) then
    match to_ushort depth with
    | Some depthMM => Some (depthMM, 0)
    | None => None
    end
  else if F32.gtb depth (F32.of_Z USHRT_MAX) then Some (0, 1)
  else Some (0, 0).

(** Meters to millimetres; returns [depth16U] and the [countOverMax] that
    the warning reports. *)
Definition cvtDepthFromFloat (depth32F : Mat float) : option (Mat Z * Z) :=
  if mat_empty depth32F then Some (mkMat 0 0 (fun _ _ => 0), 0)
  else
    for_pixels (rows depth32F) (cols depth32F)
      (fun i j st =>
         match st with
         | Some (depth16U, countOverMax) =>
             match depth_to_mm (at_ depth32F i j) with
             | Some (depthMM, over) =>
                 Some (set_at depth16U i j depthMM, countOverMax + over)
             | None => None
             end
         | None => None
         end)
      (Some (constant (rows depth32F) (cols depth32F) 0, 0)).

Definition mm_to_depth (mm : Z) : float := F32.div (F32.of_Z mm) thousand.

(** Millimetres to meters. *)
Definition cvtDepthToFloat (depth16U : Mat Z) : Mat float :=
  if mat_empty depth16U then mkMat 0 0 (fun _ _ => F32.zero)
  else
    for_pixels (rows depth16U) (cols depth16U)
      (fun i j depth32F => set_at depth32F i j (mm_to_depth (at_ depth16U i j)))
      (constant (rows depth16U) (cols depth16U) F32.zero).

(** A depth image: 16-bit millimetres or 32-bit float meters. *)
Inductive DepthImage : Type :=
| Depth16UC1 (m : Mat Z)
| Depth32FC1 (m : Mat float).

Definition depth_rows (d : DepthImage) : Z :=
  match d with Depth16UC1 m => rows m | Depth32FC1 m => rows m end.
Definition depth_cols (d : DepthImage) : Z :=
  match d with Depth16UC1 m => cols m | Depth32FC1 m => cols m end.

(** One sample in meters:
    [isInMM ? (float)at<unsigned short>(v,u)*0.001f : at<float>(v,u)]. *)
Definition depth_sample (d : DepthImage) (v u : Z) : float :=
  match d with
  | Depth16UC1 m => F32.mul (F32.of_Z (at_ m v u)) milli
  | Depth32FC1 m => at_ m v u
  end.

(** The state of the smoothing loops of [getDepth], with the samples read. *)
Record Smoothing : Type := mkSmoothing {
  sumWeights : float;
  sumDepths : float;
  reads : list (Z * Z)
}.

(** [getDepth]: the depth in meters at [(x, y)] and the coordinates [(v, u)]
    of the samples it read, in order; [None] when the image is empty or a
    conversion to [int] is undefined. *)
Definition getDepth (depthImage : DepthImage) (x y : float) (smoothing : bool)
           (maxZError : float) : option (float * list (Z * Z)) :=
  if (depth_rows depthImage <=? 0) || (depth_cols depthImage <=? 0) then None
  else
  match to_int (F32.add x half), to_int (F32.add y half) with
  | Some u, Some v =>
      if negb ((0 <=? u) && (u <? depth_cols depthImage) &&
               (0 <=? v) && (v <? depth_rows depthImage))
      then Some (F32.zero, [])
      else
        let u_start := Z.max (u - 1) 0 in
        let v_start := Z.max (v - 1) 0 in
        let u_end := Z.min (u + 1) (depth_cols depthImage - 1) in
        let v_end := Z.min (v + 1) (depth_rows depthImage - 1) in
        let depth := depth_sample depthImage v u in
        if F32.neqb depth F32.zero && uIsFinite depth then
          if smoothing then
            let s :=
              for_range u_start (u_end + 1) (fun uu =>
                for_range v_start (v_end + 1) (fun vv s =>
                  if negb ((uu =? u) && (vv =? v)) then
                    let d := depth_sample depthImage vv uu in
                    let s := mkSmoothing (sumWeights s) (sumDepths s)
                                         (reads s ++ [(vv, uu)]) in
                    if F32.neqb d F32.zero && uIsFinite d &&
                       F32.ltb (F32.abs (F32.sub d depth)) maxZError
                    then
                      if (uu =? u) || (vv =? v) then
                        mkSmoothing (F32.add (sumWeights s) (F32.of_Z 2))
                                    (F32.add (sumDepths s) (F32.mul d (F32.of_Z 2)))
                                    (reads s)
                      else
                        mkSmoothing (F32.add (sumWeights s) (F32.of_Z 1))
                                    (F32.add (sumDepths s) d)
                                    (reads s)
                    else s
                  else s))
                (mkSmoothing F32.zero F32.zero [(v, u)]) in
            let depth := F32.mul depth (F32.of_Z 4) in
            let sumWeights := F32.add (sumWeights s) (F32.of_Z 4) in
            Some (F32.div (F32.add depth (sumDepths s)) sumWeights, reads s)
          else Some (depth, [(v, u)])
        else Some (F32.zero, [(v, u)])
  | _, _ => None
  end.

(** ** Depth registration ([registerDepth]) *)

(** [Eigen::Affine3f]: the rows of the 3x4 matrix of the rigid transform,
    each row [(r1, r2, r3, t)]. *)
Record Affine3f : Type := mkAffine3f {
  row0 : float * float * float * float;
  row1 : float * float * float * float;
  row2 : float * float * float * float
}.

(** One row of [proj * P4], accumulated from left to right. *)
Definition affine_row (r : float * float * float * float)
           (p0 p1 p2 p3 : float) : float :=
  let '(r1, r2, r3, t) := r in
  F32.add (F32.add (F32.add (F32.mul r1 p0) (F32.mul r2 p1)) (F32.mul r3 p2))
          (F32.mul t p3).

(** The focal lengths and principal point read from a 3x3 [CV_64FC1]
    matrix and narrowed to [float]. *)
Definition K_fx (K : Mat double) : float := double_to_float (at_ K 0 0).
Definition K_fy (K : Mat double) : float := double_to_float (at_ K 1 1).
Definition K_cx (K : Mat double) : float := double_to_float (at_ K 0 2).
Definition K_cy (K : Mat double) : float := double_to_float (at_ K 1 2).

(** What one source pixel does to the registered image. *)
Inductive Projection : Type :=
| Undefined                       (* a conversion to integer is undefined *)
| Outside                         (* not inside the registered image *)
| Hit (dy dx z16 : Z).            (* destination pixel and depth in mm *)

(** The body of the loops up to the test on [zReg]: back-projection of the
    source pixel [(y, x)] of depth [d] mm, transform, re-projection. *)
Definition project_pixel (depthK colorK : Mat double) (proj : Affine3f)
           (regRows regCols : Z) (y x d : Z) : Projection :=
  let fx := K_fx depthK in let fy := K_fy depthK in
  let cx := K_cx depthK in let cy := K_cy depthK in
  let rfx := K_fx colorK in let rfy := K_fy colorK in
  let rcx := K_cx colorK in let rcy := K_cy colorK in
  let dz := F32.mul (F32.of_Z d) milli in
  if F32.geb dz F32.zero then
    let P4_0 := F32.div (F32.mul (F32.sub (F32.of_Z x) cx) dz) fx in
    let P4_1 := F32.div (F32.mul (F32.sub (F32.of_Z y) cy) dz) fy in
    let P4_2 := dz in
    let P4_3 := F32.of_Z 1 in
    let P3_0 := affine_row (row0 proj) P4_0 P4_1 P4_2 P4_3 in
    let P3_1 := affine_row (row1 proj) P4_0 P4_1 P4_2 P4_3 in
    let P3_2 := affine_row (row2 proj) P4_0 P4_1 P4_2 P4_3 in
    let z := P3_2 in
    let invZ := F32.div (F32.of_Z 1) z in
    match to_int (F32.add (F32.mul (F32.mul rfx P3_0) invZ) rcx),
          to_int (F32.add (F32.mul (F32.mul rfy P3_1) invZ) rcy) with
    | Some dx, Some dy =>
        if uIsInBounds dx 0 regCols && uIsInBounds dy 0 regRows then
          match to_ushort (F32.mul z (F32.of_Z 1000)) with
          | Some z16 => Hit dy dx z16
          | None => Undefined
          end
        else Outside
    | _, _ => Undefined
    end
  else Outside.

(** The nearest-wins store: [if (zReg == 0 || z16 < zReg) zReg = z16]. *)
Definition store_nearest (registered : Mat Z) (dy dx z16 : Z) : Mat Z :=
  let zReg := at_ registered dy dx in
  if (zReg =? 0) || (z16 <? zReg) then set_at registered dy dx z16
  else registered.

(** The body of the loops at the source pixel [(y, x)]. *)
Definition register_pixel (depth : Mat Z) (depthK colorK : Mat double)
           (proj : Affine3f) (y x : Z) (st : option (Mat Z)) : option (Mat Z) :=
  match st with
  | Some registered =>
      match project_pixel depthK colorK proj (rows registered) (cols registered)
                          y x (at_ depth y x) with
      | Undefined => None
      | Outside => Some registered
      | Hit dy dx z16 => Some (store_nearest registered dy dx z16)
      end
  | None => None
  end.

(** [registerDepth]; [None] when the depth image is empty or a conversion
    is undefined. *)
Definition registerDepth (depth : Mat Z) (depthK colorK : Mat double)
           (transform : Affine3f) : option (Mat Z) :=
  if mat_empty depth then None
  else
    for_pixels (rows depth) (cols depth)
      (register_pixel depth depthK colorK transform)
      (Some (constant (rows depth) (cols depth) 0)).

(** The source pixels in the order the loops visit them. *)
Definition scan_order (r c : Z) : list (Z * Z) :=
  flat_map (fun y => map (fun x => (y, x)) (range 0 c)) (range 0 r).

(** The registered image after the loops have visited the source pixels
    [l], from an all-zero image. *)
Definition registered_after (depth : Mat Z) (depthK colorK : Mat double)
           (transform : Affine3f) (l : list (Z * Z)) : option (Mat Z) :=
  fold_left (fun st p => register_pixel depth depthK colorK transform (fst p) (snd p) st)
            l (Some (constant (rows depth) (cols depth) 0)).

(** The depths that the source pixels [l] project onto the destination
    pixel [(v, u)], in order. *)
Definition contributions (depth : Mat Z) (depthK colorK : Mat double)
           (transform : Affine3f) (l : list (Z * Z)) (v u : Z) : list Z :=
  flat_map (fun p =>
              match project_pixel depthK colorK transform (rows depth) (cols depth)
                                  (fst p) (snd p) (at_ depth (fst p) (snd p)) with
              | Hit dy dx z16 => if (dy =? v) && (dx =? u) then [z16] else []
              | _ => []
              end) l.

(** The smallest element of a list, [0] for the empty list. *)
Definition nearest (l : list Z) : Z :=
  match l with
  | [] => 0
  | z :: l' => fold_left Z.min l' z
  end.

(** A 3x3 matrix of doubles from its rows. *)
Definition matrix3 (a b c d e f g h i : Z) : Mat double :=
  of_rows (S754_zero false)
    [ [F64.of_Z a; F64.of_Z b; F64.of_Z c];
      [F64.of_Z d; F64.of_Z e; F64.of_Z f];
      [F64.of_Z g; F64.of_Z h; F64.of_Z i] ].

(** ** Hole filling ([fillRegisteredDepthHoles]) *)

(** Assignment of an [int] to an [unsigned short]. *)
Definition u16 (z : Z) : Z := z mod 65536.

(** [unsigned short error = 0.01*((a+c)/2)]: the product is a [double],
    truncated by the assignment. *)
Definition depth_error (a c : Z) : Z :=
  match trunc (F64.mul (F64.lit 1 100) (F64.of_Z (Z.quot (a + c) 2))) with
  | Some e => u16 e
  | None => 0
  end.

(** [(b == 0 && a && c) || (b > a+error && b > c+error)] *)
Definition hole_or_outlier (b a c error : Z) : bool :=
  ((b =? 0) && negb (a =? 0) && negb (c =? 0)) ||
  ((a + error <? b) && (c + error <? b)).

(** [a>c ? a-c<=error : c-a<=error] *)
Definition consistent (a c error : Z) : bool :=
  if c <? a then a - c <=? error else c - a <=? error.

(** The two values written into a double hole between [a] and [d]. *)
Definition bridge (a d : Z) : Z * Z :=
  if d <? a then
    let tmp := u16 (Z.quot (a - d) 4) in
    (u16 (d + tmp), u16 (d + 3 * tmp))
  else
    let tmp := u16 (Z.quot (d - a) 4) in
    (u16 (a + tmp), u16 (a + 3 * tmp)).

(** The state of one iteration of the inner loop: the image, the flag
    [set] and the loop index [y], which the body itself may advance. *)
Record FillState : Type := mkFill {
  image : Mat Z;
  set : bool;
  index : Z
}.

(** The test on a neighbour pair at distance 1, around [(y, x)]: [(ya, xa)]
    and [(yc, xc)] are the neighbours; [skip] is [!horizontal] in the
    vertical pass, where a filled pixel advances [y]. *)
Definition fill_single (skip : bool) (x ya xa yc xc : Z) (st : FillState) : FillState :=
  let y := index st in
  let b := at_ (image st) y x in
  let a := at_ (image st) ya xa in
  let c := at_ (image st) yc xc in
  if negb (a =? 0) && negb (c =? 0) then
    let error := depth_error a c in
    if hole_or_outlier b a c error && consistent a c error then
      mkFill (set_at (image st) y x (u16 (Z.quot (a + c) 2))) true
             (if skip then y + 1 else y)
    else st
  else st.

(** The test on the pair at distance 1 and 2 around the two pixels [(y, x)]
    and [(yc, xc)]; [skip] advances [y] by two in the vertical pass;
    [mark] tells whether the branch sets [set]. *)
Definition fill_double (skip mark : bool) (x ya xa yc xc yd xd : Z)
           (st : FillState) : FillState :=
  let y := index st in
  let b := at_ (image st) y x in
  let a := at_ (image st) ya xa in
  let c := at_ (image st) yc xc in
  let d := at_ (image st) yd xd in
  if negb (a =? 0) && negb (d =? 0) && ((b =? 0) || (c =? 0)) then
    let error := depth_error a d in
    if hole_or_outlier b a d error && hole_or_outlier c a d error &&
       consistent a d error
    then
      let '(vb, vc) := bridge a d in
      mkFill (set_at (set_at (image st) y x vb) yc xc vc)
             (mark || set st)
             (if skip then y + 2 else y)
    else st
  else st.

(** The two tests in one direction: the pair at distance 1, then, when it
    set nothing and [fillDoubleHoles] is on, the pair around a double hole. *)
Definition fill_pass (skip mark fillDoubleHoles : bool)
           (x ya xa yc xc yd xd : Z) (st : FillState) : FillState :=
  let st := fill_single skip x ya xa yc xc st in
  if negb (set st) && fillDoubleHoles then
    fill_double skip mark x ya xa yc xc yd xd st
  else st.

(** The body of the inner loop at column [x], row [index st]. *)
Definition fill_pixel (vertical horizontal fillDoubleHoles : bool) (x : Z)
           (st : FillState) : FillState :=
  let y := index st in
  let st := mkFill (image st) false y in
  let st :=
    if vertical then
      fill_pass (negb horizontal) true fillDoubleHoles
                x (y - 1) x (y + 1) x (y + 2) x st
    else st in
  if negb (set st) && horizontal then
    fill_pass false false fillDoubleHoles x y (x - 1) y (x + 1) y (x + 2) st
  else st.

(** The inner loop [for (y = ...; y < rows - margin; ++y)] from row [y];
    every iteration advances [y], so [fuel] iterations suffice when
    [fuel >= rows]. *)
Fixpoint fill_column (fuel : nat) (vertical horizontal fillDoubleHoles : bool)
         (margin x y : Z) (img : Mat Z) : Mat Z :=
  match fuel with
  | O => img
  | S fuel' =>
      if y <? rows img - margin then
        let st := fill_pixel vertical horizontal fillDoubleHoles x (mkFill img false y) in
        fill_column fuel' vertical horizontal fillDoubleHoles margin x
                    (index st + 1) (image st)
      else img
  end.

Definition fill_margin (fillDoubleHoles : bool) : Z :=
  if fillDoubleHoles then 2 else 1.

(** The inner loop for the column [x], as the source runs it. *)
Definition fill_column_at (vertical horizontal fillDoubleHoles : bool)
           (x : Z) (img : Mat Z) : Mat Z :=
  fill_column (Z.to_nat (rows img)) vertical horizontal fillDoubleHoles
              (fill_margin fillDoubleHoles) x 1 img.

(** The filter with its outer loop visiting the columns [xs] in order. *)
Definition fill_columns (vertical horizontal fillDoubleHoles : bool)
           (xs : list Z) (img : Mat Z) : Mat Z :=
  fold_left (fun m x => fill_column_at vertical horizontal fillDoubleHoles x m)
            xs img.

(** The columns the outer loop of the source visits, in its order. *)
Definition fill_order (fillDoubleHoles : bool) (img : Mat Z) : list Z :=
  range 1 (cols img - fill_margin fillDoubleHoles).

Definition fillRegisteredDepthHoles (registeredDepth : Mat Z)
           (vertical horizontal fillDoubleHoles : bool) : Mat Z :=
  fill_columns vertical horizontal fillDoubleHoles
               (fill_order fillDoubleHoles registeredDepth) registeredDepth.

(** Every pixel of the image is non-zero. *)
Definition gap_free (m : Mat Z) : bool := all_samples (fun z => negb (z =? 0)) m.

(** Every pixel is a 16-bit value. *)
Definition in_ushort (z : Z) : bool := (0 <=? z) && (z <=? 65535).

(** The pixel [b] is an outlier between its neighbours [a] and [c]: above
    both by more than 1% of their mean, while they agree within it. *)
Definition outlier (b a c : Z) : bool :=
  let error := depth_error a c in
  (a + error <? b) && (c + error <? b) && consistent a c error.

(** No pixel the filter visits is an outlier in a direction it looks in. *)
Definition no_outlier (vertical horizontal fillDoubleHoles : bool) (m : Mat Z) : bool :=
  forallb (fun x =>
    forallb (fun y =>
      negb (vertical && outlier (at_ m y x) (at_ m (y - 1) x) (at_ m (y + 1) x)) &&
      negb (horizontal && outlier (at_ m y x) (at_ m y (x - 1)) (at_ m y (x + 1))))
      (range 1 (rows m - fill_margin fillDoubleHoles)))
    (range 1 (cols m - fill_margin fillDoubleHoles)).

(** ** Pyramidal block matching ([calcStereoCorrespondences]) *)

(** [cv::Mat(m, cv::Range(r0, r1), cv::Range(c0, c1))]; the constructor
    throws when a range leaves the image. *)
Definition roi {A : Type} (m : Mat A) (r0 r1 c0 c1 : Z) : option (Mat A) :=
  if (0 <=? r0) && (r0 <=? r1) && (r1 <=? rows m) &&
     (0 <=? c0) && (c0 <=? c1) && (c1 <=? cols m)
  then Some (submat m r0 r1 c0 c1)
  else None.

(** The window size forced to odd. *)
Definition odd_size (w : Z) : Z := if Z.rem w 2 =? 0 then w + 1 else w.

(** The state of the search for one corner. [evaluated] is a ghost field: it
    lists, most recent first, each level visited with the number of
    candidates scored at it. *)
Record Search : Type := mkSearch {
  oi : Z;
  bestScore : float;
  secondBest : float;
  bestScoreIndex : Z;
  tmpMinDisparity : Z;
  tmpMaxDisparity : Z;
  iterations : Z;
  evaluated : list (Z * Z)
}.

(** The body of the loop over the candidates [d] once the score is known. *)
Definition score_candidate (score : float) (st : Search) : Search :=
  let better :=
    F32.gtb score F32.zero &&
    (F32.ltb (bestScore st) F32.zero || F32.ltb score (bestScore st)) in
  mkSearch (oi st + 1)
           (if better then score else bestScore st)
           (if better then bestScore st else secondBest st)
           (if better then oi st else bestScoreIndex st)
           (tmpMinDisparity st) (tmpMaxDisparity st)
           (iterations st + 1) (evaluated st).

(** The range for the next finer level, lines 229-240: the new
    [(tmpMinDisparity, tmpMaxDisparity)]. [%] is the remainder of C++. *)
Definition narrow_range (level minDisparity maxDisparity : Z)
           (tmpMin bestIndex : Z) : Z * Z :=
  let tmpMax := tmpMin + (bestIndex + 1) * 2 ^ level in
  let tmpMax := tmpMax + Z.rem tmpMax level in
  let tmpMax := if maxDisparity <? tmpMax then maxDisparity else tmpMax in
  let tmpMin := tmpMin + (bestIndex - 1) * 2 ^ level in
  let tmpMin := tmpMin - Z.rem tmpMin level in
  let tmpMin := if tmpMin <? minDisparity then minDisparity else tmpMin in
  (tmpMin, tmpMax).

(** The result for one corner. [executed] is a ghost field: the number of
    iterations of the sub-pixel loop that ran. *)
Record Correspondence : Type := mkCorrespondence {
  status : Z;
  rightCorner : float * float;
  search : Search;
  executed : Z
}.

(** The state of the sub-pixel loop. *)
Record Refine : Type := mkRefine {
  xc : float;
  vc : float;
  step : float;
  cache : list (float * float);
  reject : bool;
  ran : Z
}.

(** [uValue(cache, x, 0.0f)] on a [std::map<float, float>]: keys are equal
    when neither is less than the other. *)
Fixpoint uValue (cache : list (float * float)) (x : float) (default : float) : float :=
  match cache with
  | [] => default
  | (k, v) :: rest =>
      if negb (F32.ltb k x) && negb (F32.ltb x k) then v else uValue rest x default
  end.

Fixpoint has_key (cache : list (float * float)) (x : float) : bool :=
  match cache with
  | [] => false
  | (k, _) :: rest => (negb (F32.ltb k x) && negb (F32.ltb x k)) || has_key rest x
  end.

(** [cache.insert(std::make_pair(k, v))] keeps an existing entry. *)
Definition cache_insert (cache : list (float * float)) (k v : float) :=
  if has_key cache k then cache else cache ++ [(k, v)].

Section StereoCorrespondences.
(** The pyramids that [cv::buildOpticalFlowPyramid] built, level by level,
    the [maxLevel] it returned, and [cv::getRectSubPix], which samples a
    [float] window centred on a sub-pixel position. *)
Variables leftPyramid rightPyramid : Z -> Mat Z.
Variable maxLevel : Z.
Variable getRectSubPix : Mat Z -> Z * Z -> float * float -> Mat float.

Variable winSize : Z * Z.
Variables minDisparity maxDisparity : Z.
Variable ssdApproach : bool.

Definition winWidth : Z := odd_size (fst winSize).
Definition winHeight : Z := odd_size (snd winSize).
Definition halfWinWidth : Z := Z.quot (winWidth - 1) 2.
Definition halfWinHeight : Z := Z.quot (winHeight - 1) 2.

Definition block_score (windowLeft windowRight : Window) : option float :=
  if ssdApproach then ssd windowLeft windowRight else sad windowLeft windowRight.

(** The candidates [for (d = localMin; d > localMax; --d)]. *)
Definition candidates (localMin localMax : Z) : list Z :=
  map (fun k => localMin - k) (range 0 (localMin - localMax)).

(** The loop over the candidates at one level. *)
Definition score_candidates (level : Z) (windowLeft : Mat Z) (center : Z * Z)
           (ds : list Z) (st : Search) : option Search :=
  fold_left
    (fun acc d =>
       match acc with
       | Some st =>
           match roi (rightPyramid level)
                     (snd center - halfWinHeight) (snd center + halfWinHeight + 1)
                     (fst center + d - halfWinWidth) (fst center + d + halfWinWidth + 1) with
           | Some windowRight =>
               match block_score (Win8UC1 windowLeft) (Win8UC1 windowRight) with
               | Some score => Some (score_candidate score st)
               | None => None
               end
           | None => None
           end
       | None => None
       end)
    ds (Some st).

(** The body of the loop over the levels for the corner [(x, y)]. *)
Definition search_level (corner : float * float) (level : Z) (acc : option Search)
  : option Search :=
  match acc with
  | None => None
  | Some st =>
  match to_int (F32.div (fst corner) (F32.of_Z (2 ^ level))),
        to_int (F32.div (snd corner) (F32.of_Z (2 ^ level))) with
  | Some cx, Some cy =>
      let minus_one := F32.opp (F32.of_Z 1) in
      let st := mkSearch 0 minus_one minus_one (-1)
                         (tmpMinDisparity st) (tmpMaxDisparity st)
                         (iterations st) (evaluated st) in
      let localMaxDisparity := Z.quot (- tmpMaxDisparity st) (2 ^ level) in
      let localMinDisparity := Z.quot (- tmpMinDisparity st) (2 ^ level) in
      let edge := if level =? 0 then 1 else 0 in
      let left := leftPyramid level in
      if (0 <=? cx - halfWinWidth - edge) && (cx + halfWinWidth + edge <? cols left) &&
         (0 <=? cy - halfWinHeight) && (cy + halfWinHeight <? rows left)
      then
        match roi left (cy - halfWinHeight) (cy + halfWinHeight + 1)
                       (cx - halfWinWidth) (cx + halfWinWidth + 1) with
        | None => None
        | Some windowLeft =>
            let minCol := cx + localMaxDisparity - halfWinWidth - 1 in
            let localMaxDisparity :=
              if minCol <? 0 then localMaxDisparity - minCol else localMaxDisparity in
            let maxCol := cx + localMinDisparity + halfWinWidth + 1 in
            let localMinDisparity :=
              if cols left <=? maxCol then localMinDisparity + (maxCol - cols left - 1)
              else localMinDisparity in
            let localMaxDisparity :=
              if localMinDisparity <? localMaxDisparity then localMinDisparity
              else localMaxDisparity in
            let ds := candidates localMinDisparity localMaxDisparity in
            match score_candidates level windowLeft (cx, cy) ds st with
            | None => None
            | Some st =>
                let st := mkSearch (oi st) (bestScore st) (secondBest st)
                                   (bestScoreIndex st)
                                   (tmpMinDisparity st) (tmpMaxDisparity st)
                                   (iterations st)
                                   ((level, Z.of_nat (length ds)) :: evaluated st) in
                if (0 <=? bestScoreIndex st) && (0 <? level) then
                  let '(tmpMin, tmpMax) :=
                    narrow_range level minDisparity maxDisparity
                                 (tmpMinDisparity st) (bestScoreIndex st) in
                  Some (mkSearch (oi st) (bestScore st) (secondBest st)
                                 (bestScoreIndex st) tmpMin tmpMax
                                 (iterations st) (evaluated st))
                else Some st
            end
        end
      else Some st
  | _, _ => None
  end
  end.

(** The levels [for (level = maxLevel; level >= 0; --level)]. *)
Definition levels_from (top : Z) : list Z := rev (range 0 (top + 1)).

Definition initial_search : Search :=
  let minus_one := F32.opp (F32.of_Z 1) in
  mkSearch 0 minus_one minus_one (-1) minDisparity maxDisparity 0 [].

(** The search after the levels [ls] have been visited. *)
Definition search_levels (corner : float * float) (ls : list Z) : option Search :=
  fold_left (fun acc level => search_level corner level acc) ls (Some initial_search).

Definition subpixel_score (windowLeft : Mat float) (x y : float) : option float :=
  block_score (Win32FC1 windowLeft)
              (Win32FC1 (getRectSubPix (rightPyramid 0) (winWidth, winHeight) (x, y))).

(** One iteration of the sub-pixel loop; [x0] is
    [leftCorners[i].x + float(d)]. *)
Definition refine_step (windowLeft : Mat float) (y x0 : float) (r : Refine)
  : option Refine :=
  let x1 := F32.sub (xc r) (step r) in
  let x2 := F32.add (xc r) (step r) in
  let v1 := uValue (cache r) x1 F32.zero in
  let v2 := uValue (cache r) x2 F32.zero in
  match (if F32.eqb v1 F32.zero then subpixel_score windowLeft x1 y else Some v1),
        (if F32.eqb v2 F32.zero then subpixel_score windowLeft x2 y else Some v2) with
  | Some v1, Some v2 =>
      let previousXc := xc r in
      let previousVc := vc r in
      let pick1 := F32.ltb v1 (vc r) && F32.ltb v1 v2 in
      let pick2 := F32.ltb v2 (vc r) && F32.ltb v2 v1 in
      let xc' := if pick1 then x1 else if pick2 then x2 else xc r in
      let vc' := if pick1 then v1 else if pick2 then v2 else vc r in
      let same := F32.eqb previousXc xc' in
      let step' := if same then F32.div (step r) (F32.of_Z 2) else step r in
      let cache' := if same then cache r else cache_insert (cache r) previousXc previousVc in
      let out := F32.ltb xc' (F32.sub x0 (F32.of_Z 1)) ||
                 F32.gtb xc' (F32.add x0 (F32.of_Z 1)) in
      Some (mkRefine xc' vc' step' cache' out (ran r + 1))
  | _, _ => None
  end.

(** The loop [for (it = 0; it < iterations; ++it)], left at the first
    rejection; [n] iterations remain. *)
Fixpoint refine_loop (n : nat) (windowLeft : Mat float) (y x0 : float) (r : Refine)
  : option Refine :=
  match n with
  | O => Some r
  | S n' =>
      match refine_step windowLeft y x0 r with
      | Some r' => if reject r' then Some r' else refine_loop n' windowLeft y x0 r'
      | None => None
      end
  end.

(** The body of the loop over the corners, for the corner [(x, y)];
    [None] when an OpenCV call throws or a conversion is undefined. *)
Definition match_corner (corner : float * float) : option Correspondence :=
  match search_levels corner (levels_from maxLevel) with
  | None => None
  | Some st =>
      if 0 <=? bestScoreIndex st then
        let d := - (tmpMinDisparity st + bestScoreIndex st) in
        let windowLeft := getRectSubPix (leftPyramid 0) (winWidth, winHeight) corner in
        let x0 := F32.add (fst corner) (F32.of_Z d) in
        match to_int (fst corner) with
        | None => None
        | Some ix =>
            match (if F32.neqb (fst corner) (F32.of_Z ix)
                   then subpixel_score windowLeft x0 (snd corner)
                   else Some (bestScore st)) with
            | None => None
            | Some best =>
                match refine_loop (Z.to_nat (iterations st)) windowLeft (snd corner) x0
                                  (mkRefine x0 best half [] false 0) with
                | None => None
                | Some r =>
                    Some (mkCorrespondence (if reject r then 0 else 1)
                                           (xc r, snd corner) st (ran r))
                end
            end
        end
      else Some (mkCorrespondence 0 (F32.zero, F32.zero) st 0)
  end.

(** [calcStereoCorrespondences]: the right corners and the status, corner
    by corner. *)
Definition calcStereoCorrespondences (leftCorners : list (float * float))
  : list (option Correspondence) :=
  map match_corner leftCorners.
End StereoCorrespondences.

(** The number of candidates scored at [level], from the ghost field. *)
Definition evaluated_at (level : Z) (st : Search) : Z :=
  fold_left (fun n p => if fst p =? level then n + snd p else n) (evaluated st) 0.

(** The number of candidates scored at all the levels. *)
Definition evaluated_total (st : Search) : Z :=
  fold_left (fun n p => n + snd p) (evaluated st) 0.

(** ** Horizontally constrained pyramidal tracker ([calcOpticalFlowPyrLKStereo]) *)

(** [CV_DESCALE(x, n)]: [((x) + (1 << ((n)-1))) >> (n)]. *)
Definition CV_DESCALE (x n : Z) : Z := Z.shiftr (x + Z.shiftl 1 (n - 1)) n.

(** Assignment of an [int] to a [short]. *)
Definition s16 (z : Z) : Z := (z + 32768) mod 65536 - 32768.

Definition W_BITS : Z := 14.
Definition FLT_SCALE : float := F32.div (F32.of_Z 1) (F32.of_Z (Z.shiftl 1 20)).
Definition FLT_EPSILON : float := S754_finite false 8388608 (-46).

Definition Point2f : Type := (float * float)%type.

(** The four fixed-point weights of the bilinear interpolation at the
    fractional offset [(a, b)]. *)
Definition bilinear_weights (a b : float) : option (Z * Z * Z * Z) :=
  let one := F32.of_Z 1 in
  let scale := F32.of_Z (Z.shiftl 1 W_BITS) in
  match cvRound (F32.mul (F32.mul (F32.sub one a) (F32.sub one b)) scale),
        cvRound (F32.mul (F32.mul a (F32.sub one b)) scale),
        cvRound (F32.mul (F32.mul (F32.sub one a) b) scale) with
  | Some iw00, Some iw01, Some iw10 =>
      Some (iw00, iw01, iw10, Z.shiftl 1 W_BITS - iw00 - iw01 - iw10)
  | _, _, _ => None
  end.

(** The interpolation of four neighbouring samples. *)
Definition interpolate (w : Z * Z * Z * Z) (s00 s01 s10 s11 : Z) (n : Z) : Z :=
  let '(iw00, iw01, iw10, iw11) := w in
  CV_DESCALE (s00 * iw00 + s01 * iw01 + s10 * iw10 + s11 * iw11) n.

(** [cv::TermCriteria] *)
Record TermCriteria : Type := mkTermCriteria {
  has_count : bool;
  has_eps : bool;
  maxCount : Z;
  epsilon : double
}.

Definition fmin (a b : double) : double := if F64.ltb b a then b else a.
Definition fmax (a b : double) : double := if F64.ltb a b then b else a.

(** The iteration budget and the squared epsilon the loops use. *)
Definition criteria_count (c : TermCriteria) : Z :=
  if has_count c then Z.min (Z.max (maxCount c) 0) 100 else 30.

Definition criteria_epsilon (c : TermCriteria) : double :=
  let e := if has_eps c then fmin (fmax (epsilon c) (F64.of_Z 0)) (F64.of_Z 10)
           else F64.lit 1 100 in
  F64.mul e e.

(** The state of the iterations of one point at one level. *)
Record Track : Type := mkTrack {
  nextPt : Point2f;          (* the working estimate, minus the half window *)
  nextPts_i : Point2f;       (* [nextPts[ptidx]] *)
  prevDelta : Point2f;
  status_i : bool;
  updates : list Point2f     (* ghost: the steps [delta] applied, latest first *)
}.

Section Tracker.
(** The images of one pyramid level: the first image [I], its derivatives
    [derivI] (two 16-bit components per pixel) and the second image [J],
    each readable in the padding around it; one channel. *)
Variables (I : Mat Z) (derivI : Mat (Z * Z)) (J : Mat Z).
Variable winSize : Z * Z.
Variable level : Z.
Variable count : Z.
Variable eps : double.
Variable minEigThreshold : double.
(** [err] is requested, and the flag [OPTFLOW_LK_GET_MIN_EIGENVALS]. *)
Variables err_needed get_min_eigenvals : bool.

Definition halfWin : Point2f :=
  (F32.mul (F32.of_Z (fst winSize - 1)) half,
   F32.mul (F32.of_Z (snd winSize - 1)) half).

Definition outside (cols rows : Z) (ix iy : Z) : bool :=
  (ix <? - fst winSize) || (cols <=? ix) || (iy <? - snd winSize) || (rows <=? iy).

(** The window of [I] and of its derivatives around [iprevPt]:
    [IWinBuf] and [derivIWinBuf]. *)
Definition IWin (w : Z * Z * Z * Z) (ix iy : Z) (y x : Z) : Z :=
  s16 (interpolate w (at_ I (y + iy) (ix + x)) (at_ I (y + iy) (ix + x + 1))
                     (at_ I (y + iy + 1) (ix + x)) (at_ I (y + iy + 1) (ix + x + 1))
                     (W_BITS - 5)).

(** The interpolated derivatives [ixval], [iyval] at one position of the
    window, as [int]. *)
Definition dIVal (w : Z * Z * Z * Z) (ix iy : Z) (y x : Z) : Z * Z :=
  let d00 := at_ derivI (y + iy) (ix + x) in
  let d01 := at_ derivI (y + iy) (ix + x + 1) in
  let d10 := at_ derivI (y + iy + 1) (ix + x) in
  let d11 := at_ derivI (y + iy + 1) (ix + x + 1) in
  (interpolate w (fst d00) (fst d01) (fst d10) (fst d11) W_BITS,
   interpolate w (snd d00) (snd d01) (snd d10) (snd d11) W_BITS).

(** [derivIWinBuf]: the same values stored as [short]. *)
Definition dIWin (w : Z * Z * Z * Z) (ix iy : Z) (y x : Z) : Z * Z :=
  let '(ixval, iyval) := dIVal w ix iy y x in (s16 ixval, s16 iyval).

(** The sums [iA11], [iA12], [iA22] over the window, of the products of
    the [int] values, each converted to [float]. *)
Definition covariance (w : Z * Z * Z * Z) (ix iy : Z) : float * float * float :=
  for_range 0 (snd winSize) (fun y =>
    for_range 0 (fst winSize) (fun x '(iA11, iA12, iA22) =>
      let '(ixval, iyval) := dIVal w ix iy y x in
      (F32.add iA11 (F32.of_Z (ixval * ixval)),
       F32.add iA12 (F32.of_Z (ixval * iyval)),
       F32.add iA22 (F32.of_Z (iyval * iyval)))))
    (F32.zero, F32.zero, F32.zero).

(** The sums [ib1], [ib2] over the window of [J] at [inextPt]. *)
Definition mismatch (wI wJ : Z * Z * Z * Z) (ix iy jx jy : Z) : float * float :=
  for_range 0 (snd winSize) (fun y =>
    for_range 0 (fst winSize) (fun x '(ib1, ib2) =>
      let diff :=
        interpolate wJ (at_ J (y + jy) (jx + x)) (at_ J (y + jy) (jx + x + 1))
                       (at_ J (y + jy + 1) (jx + x)) (at_ J (y + jy + 1) (jx + x + 1))
                       (W_BITS - 5)
        - IWin wI ix iy y x in
      let '(dx, dy) := dIWin wI ix iy y x in
      (F32.add ib1 (F32.of_Z (diff * dx)), F32.add ib2 (F32.of_Z (diff * dy)))))
    (F32.zero, F32.zero).

Definition padd (p q : Point2f) : Point2f :=
  (F32.add (fst p) (fst q), F32.add (snd p) (snd q)).
Definition psub (p q : Point2f) : Point2f :=
  (F32.sub (fst p) (fst q), F32.sub (snd p) (snd q)).
Definition pscale (p : Point2f) (k : float) : Point2f :=
  (F32.mul (fst p) k, F32.mul (snd p) k).

(** [delta.ddot(delta)]: [(double)x*x + (double)y*y], in [double]. *)
Definition ddot (p : Point2f) : double :=
  F64.add (F64.mul (float_to_double (fst p)) (float_to_double (fst p)))
          (F64.mul (float_to_double (snd p)) (float_to_double (snd p))).

(** One iteration [j] of the loop; the second component tells whether
    the loop goes on. *)
Definition iterate (wI : Z * Z * Z * Z) (ix iy : Z) (A11 A12 A22 D : float)
           (j : Z) (t : Track) : option (Track * bool) :=
  match cvFloor (fst (nextPt t)), cvFloor (snd (nextPt t)) with
  | Some jx, Some jy =>
      if outside (cols J) (rows J) jx jy then
        Some (mkTrack (nextPt t) (nextPts_i t) (prevDelta t)
                      (if level =? 0 then false else status_i t) (updates t), false)
      else
        let a := F32.sub (fst (nextPt t)) (F32.of_Z jx) in
        let b := F32.sub (snd (nextPt t)) (F32.of_Z jy) in
        match bilinear_weights a b with
        | None => None
        | Some wJ =>
            let '(ib1, ib2) := mismatch wI wJ ix iy jx jy in
            let b1 := F32.mul ib1 FLT_SCALE in
            let b2 := F32.mul ib2 FLT_SCALE in
            let delta : Point2f :=
              (F32.mul (F32.sub (F32.mul A12 b2) (F32.mul A22 b1)) D, F32.zero) in
            let nextPt' := padd (nextPt t) delta in
            let nextPts' := padd nextPt' halfWin in
            if F64.leb (ddot delta) eps then
              Some (mkTrack nextPt' nextPts' (prevDelta t) (status_i t)
                            (delta :: updates t), false)
            else if (0 <? j) &&
                    F64.ltb (float_to_double
                               (F32.abs (F32.add (fst delta) (fst (prevDelta t)))))
                            (F64.lit 1 100) &&
                    F64.ltb (float_to_double
                               (F32.abs (F32.add (snd delta) (snd (prevDelta t)))))
                            (F64.lit 1 100)
            then
              Some (mkTrack nextPt' (psub nextPts' (pscale delta half))
                            (prevDelta t) (status_i t) (delta :: updates t), false)
            else
              Some (mkTrack nextPt' nextPts' delta (status_i t)
                            (delta :: updates t), true)
        end
  | _, _ => None
  end.

(** The loop [for (j = 0; j < criteria.maxCount; j++)] from [j] on. *)
Fixpoint iterations_from (n : nat) (wI : Z * Z * Z * Z) (ix iy : Z)
         (A11 A12 A22 D : float) (j : Z) (t : Track) : option Track :=
  match n with
  | O => Some t
  | S n' =>
      match iterate wI ix iy A11 A12 A22 D j t with
      | Some (t', true) => iterations_from n' wI ix iy A11 A12 A22 D (j + 1) t'
      | Some (t', false) => Some t'
      | None => None
      end
  end.

(** The check that ends the body when the error measure is computed: a
    final window outside [J] clears the status. *)
Definition check_final (t : Track) : option Track :=
  if status_i t && err_needed && (level =? 0) && negb get_min_eigenvals then
    let nextPoint := psub (nextPts_i t) halfWin in
    match cvFloor (fst nextPoint), cvFloor (snd nextPoint) with
    | Some ix, Some iy =>
        Some (mkTrack (nextPt t) (nextPts_i t) (prevDelta t)
                      (negb (outside (cols J) (rows J) ix iy)) (updates t))
    | _, _ => None
    end
  else Some t.

(** The body of the loop over the points at this level: [prevPt] is the
    scaled point of the first image, [estimate] the estimate carried into
    the level, already stored in [nextPts[ptidx]]. [None] when a
    conversion to [int] is undefined. *)
Definition track_point (prevPt estimate : Point2f) (status0 : bool) : option Track :=
  let prevPt := psub prevPt halfWin in
  match cvFloor (fst prevPt), cvFloor (snd prevPt) with
  | Some ix, Some iy =>
      if outside (cols derivI) (rows derivI) ix iy then
        Some (mkTrack estimate estimate (F32.zero, F32.zero)
                      (if level =? 0 then false else status0) [])
      else
        let a := F32.sub (fst prevPt) (F32.of_Z ix) in
        let b := F32.sub (snd prevPt) (F32.of_Z iy) in
        match bilinear_weights a b with
        | None => None
        | Some wI =>
            let '(iA11, iA12, iA22) := covariance wI ix iy in
            let A11 := F32.mul iA11 FLT_SCALE in
            let A12 := F32.mul iA12 FLT_SCALE in
            let A22 := F32.mul iA22 FLT_SCALE in
            let D := F32.sub (F32.mul A11 A22) (F32.mul A12 A12) in
            let minEig :=
              F32.div
                (F32.sub (F32.add A22 A11)
                   (F32.sqrt (F32.add (F32.mul (F32.sub A11 A22) (F32.sub A11 A22))
                                      (F32.mul (F32.mul (F32.of_Z 4) A12) A12))))
                (F32.of_Z (2 * fst winSize * snd winSize)) in
            if F64.ltb (float_to_double minEig) minEigThreshold ||
               F32.ltb D FLT_EPSILON then
              Some (mkTrack estimate estimate (F32.zero, F32.zero)
                            (if level =? 0 then false else status0) [])
            else
              let D := F32.div (F32.of_Z 1) D in
              match iterations_from (Z.to_nat count) wI ix iy A11 A12 A22 D 0
                      (mkTrack (psub estimate halfWin) estimate
                               (F32.zero, F32.zero) status0 []) with
              | Some t => check_final t
              | None => None
              end
        end
  | _, _ => None
  end.
End Tracker.

(** The estimate carried into a level: at the coarsest level the initial
    flow or the scaled point, at a finer level twice the estimate above. *)
Definition propagate (level maxLevel : Z) (use_initial_flow : bool)
           (prevPt_i pts : Point2f) : Point2f * Point2f :=
  let scale := double_to_float (F64.div (F64.of_Z 1) (F64.of_Z (Z.shiftl 1 level))) in
  let prevPt := pscale prevPt_i scale in
  let nextPt :=
    if level =? maxLevel then
      if use_initial_flow then pscale pts scale else prevPt
    else pscale pts (F32.of_Z 2) in
  (prevPt, nextPt).

(** [calcOpticalFlowPyrLKStereo] for one point: the levels from [maxLevel]
    down to [0], on the pyramids [prevPyr], [derivPyr] and [nextPyr]; the
    result is [nextPts[ptidx]] and [status[ptidx]]. *)
Definition track_levels (prevPyr : Z -> Mat Z) (derivPyr : Z -> Mat (Z * Z))
           (nextPyr : Z -> Mat Z) (winSize : Z * Z) (maxLevel : Z)
           (criteria : TermCriteria) (use_initial_flow : bool)
           (minEigThreshold : double) (err_needed get_min_eigenvals : bool)
           (prevPt_i nextPts0 : Point2f)
  : option (Point2f * bool) :=
  fold_left
    (fun acc level =>
       match acc with
       | None => None
       | Some (pts, st) =>
           let '(prevPt, estimate) :=
             propagate level maxLevel use_initial_flow prevPt_i pts in
           match track_point (prevPyr level) (derivPyr level) (nextPyr level)
                             winSize level (criteria_count criteria)
                             (criteria_epsilon criteria) minEigThreshold
                             err_needed get_min_eigenvals
                             prevPt estimate st with
           | Some t => Some (nextPts_i t, status_i t)
           | None => None
           end
       end)
    (levels_from maxLevel) (Some (nextPts0, true)).
(** ** Depth from disparity and from correspondences, decimation *)

(** A disparity image: 16-bit fixed point (sixteenths of a pixel) or
    32-bit float. *)
Inductive DisparityImage : Type :=
| Disparity16SC1 (m : Mat Z)
| Disparity32FC1 (m : Mat float).

Definition disparity_rows (d : DisparityImage) : Z :=
  match d with Disparity16SC1 m => rows m | Disparity32FC1 m => rows m end.
Definition disparity_cols (d : DisparityImage) : Z :=
  match d with Disparity16SC1 m => cols m | Disparity32FC1 m => cols m end.

(** [disparity.type() == CV_16SC1 ? float(at<short>(i,j))/16.0f : at<float>(i,j)] *)
Definition disparity_value (d : DisparityImage) (i j : Z) : float :=
  match d with
  | Disparity16SC1 m => F32.div (F32.of_Z (at_ m i j)) (F32.of_Z 16)
  | Disparity32FC1 m => at_ m i j
  end.

(** The requested type of a depth image. *)
Inductive DepthType : Type := CV_32FC1 | CV_16UC1.

(** [cv::Mat::zeros(rows, cols, type)] *)
Definition depth_zeros (r c : Z) (type : DepthType) : DepthImage :=
  match type with
  | CV_32FC1 => Depth32FC1 (constant r c F32.zero)
  | CV_16UC1 => Depth16UC1 (constant r c 0)
  end.

(** The store of the depth [d] at [(i, j)], by the type of the image: the
    new image and the increment of [countOverMax]; [None] if the narrowing
    to [unsigned short] were undefined. *)
Definition store_depth (depth : DepthImage) (i j : Z) (d : float)
  : option (DepthImage * Z) :=
  match depth with
  | Depth32FC1 m => Some (Depth32FC1 (set_at m i j d), 0)
  | Depth16UC1 m =>
      if F32.leb (F32.mul d thousand) (F32.of_Z USHRT_MAX) then
        match to_ushort (F32.mul d thousand) with
        | Some mm => Some (Depth16UC1 (set_at m i j mm), 0)
        | None => None
        end
      else Some (depth, 1)
  end.

(** The body of the loops of [depthFromDisparity] at the pixel [(i, j)]. *)
Definition depth_pixel (disparity : DisparityImage) (fx baseline : float)
           (i j : Z) (st : option (DepthImage * Z)) : option (DepthImage * Z) :=
  match st with
  | Some (depth, countOverMax) =>
      let disparity_value := disparity_value disparity i j in
      if F32.gtb disparity_value F32.zero then
        let d := F32.div (F32.mul baseline fx) disparity_value in
        if F32.gtb d F32.zero then
          match store_depth depth i j d with
          | Some (depth', over) => Some (depth', countOverMax + over)
          | None => None
          end
        else st
      else st
  | None => None
  end.

(** [depthFromDisparity]: the depth image and the count the warning
    reports; [None] when the disparity is empty. *)
Definition depthFromDisparity (disparity : DisparityImage) (fx baseline : float)
           (type : DepthType) : option (DepthImage * Z) :=
  if (disparity_rows disparity <=? 0) || (disparity_cols disparity <=? 0) then None
  else
    for_pixels (disparity_rows disparity) (disparity_cols disparity)
      (depth_pixel disparity fx baseline)
      (Some (depth_zeros (disparity_rows disparity) (disparity_cols disparity) type, 0)).

(** [mask.empty() || mask[i]] *)
Definition mask_at (mask : list Z) (i : Z) : bool :=
  match mask with
  | [] => true
  | _ => negb (nth (Z.to_nat i) mask 0 =? 0)
  end.

Definition corner_at (corners : list Point2f) (i : Z) : Point2f :=
  nth (Z.to_nat i) corners (F32.zero, F32.zero).

(** The two assertions on the sizes of the vectors. *)
Definition sizes_agree (leftCorners rightCorners : list Point2f) (mask : list Z) : bool :=
  (length leftCorners =? length rightCorners)%nat &&
  ((length mask =? 0)%nat || (length mask =? length leftCorners)%nat).

(** The body of the loop of [disparityFromStereoCorrespondences]:
    [dispPt] is built from [(int(y+0.5f), int(x+0.5f))], so that
    [dispPt.x] comes from the corner's [y] and [dispPt.y] from its [x];
    [None] when an assertion fails or a conversion is undefined. *)
Definition disparity_corner (disparitySize : Z * Z)
           (leftCorners rightCorners : list Point2f) (mask : list Z)
           (i : Z) (st : option (Mat float)) : option (Mat float) :=
  match st with
  | Some disparity =>
      if mask_at mask i then
        let l := corner_at leftCorners i in
        let r := corner_at rightCorners i in
        match to_int (F32.add (snd l) half), to_int (F32.add (fst l) half) with
        | Some dispPt_x, Some dispPt_y =>
            if uIsInBounds dispPt_x 0 (fst disparitySize) &&
               uIsInBounds dispPt_y 0 (snd disparitySize)
            then Some (set_at disparity dispPt_y dispPt_x (F32.sub (fst l) (fst r)))
            else None
        | _, _ => None
        end
      else st
  | None => None
  end.

(** [disparityFromStereoCorrespondences]; [disparitySize] is
    [(width, height)]. *)
Definition disparityFromStereoCorrespondences (disparitySize : Z * Z)
           (leftCorners rightCorners : list Point2f) (mask : list Z)
  : option (Mat float) :=
  if sizes_agree leftCorners rightCorners mask then
    for_range 0 (Z.of_nat (length leftCorners))
      (disparity_corner disparitySize leftCorners rightCorners mask)
      (Some (constant (snd disparitySize) (fst disparitySize) F32.zero))
  else None.

(** The body of the loop of [depthFromStereoCorrespondences]; a store
    outside the image is undefined. *)
Definition depth_corner (leftCorners rightCorners : list Point2f) (mask : list Z)
           (fx baseline : float) (i : Z) (st : option (Mat float))
  : option (Mat float) :=
  match st with
  | Some depth =>
      if mask_at mask i then
        let l := corner_at leftCorners i in
        let r := corner_at rightCorners i in
        let disparity := F32.sub (fst l) (fst r) in
        if F32.gtb disparity F32.zero then
          let d := F32.div (F32.mul baseline fx) disparity in
          match to_int (F32.add (snd l) half), to_int (F32.add (fst l) half) with
          | Some v, Some u =>
              if uIsInBounds v 0 (rows depth) && uIsInBounds u 0 (cols depth)
              then Some (set_at depth v u d)
              else None
          | _, _ => None
          end
        else st
      else st
  | None => None
  end.

(** [depthFromStereoCorrespondences]; only the size of [leftImage] is used. *)
Definition depthFromStereoCorrespondences {A : Type} (leftImage : Mat A)
           (leftCorners rightCorners : list Point2f) (mask : list Z)
           (fx baseline : float) : option (Mat float) :=
  if negb (mat_empty leftImage) && sizes_agree leftCorners rightCorners mask then
    for_range 0 (Z.of_nat (length leftCorners))
      (depth_corner leftCorners rightCorners mask fx baseline)
      (Some (constant (rows leftImage) (cols leftImage) F32.zero))
  else None.

(** The loops of [decimate] over a depth image of one sample type: the
    output is allocated, then every pixel of it is assigned. *)
Definition decimate_samples {A : Type} (image : Mat A) (decimation : Z) (fill : A)
  : Mat A :=
  let out_rows := Z.quot (rows image) decimation in
  let out_cols := Z.quot (cols image) decimation in
  for_pixels out_rows out_cols
    (fun j i out => set_at out j i (at_ image (j * decimation) (i * decimation)))
    (constant out_rows out_cols fill).

(** The default-constructed [cv::Mat]. *)
Definition no_depth (image : DepthImage) : DepthImage :=
  match image with
  | Depth16UC1 _ => Depth16UC1 (mkMat 0 0 (fun _ _ => 0))
  | Depth32FC1 _ => Depth32FC1 (mkMat 0 0 (fun _ _ => F32.zero))
  end.

(** [decimate] on a depth image ([CV_32FC1] or [CV_16UC1]); [None] when an
    assertion fails. *)
Definition decimate (image : DepthImage) (decimation : Z) : option DepthImage :=
  if decimation <? 1 then None
  else if (depth_rows image <=? 0) || (depth_cols image <=? 0) then Some (no_depth image)
  else if 1 <? decimation then
    if (Z.rem (depth_rows image) decimation =? 0) &&
       (Z.rem (depth_cols image) decimation =? 0)
    then
      Some (match image with
            | Depth32FC1 m => Depth32FC1 (decimate_samples m decimation F32.zero)
            | Depth16UC1 m => Depth16UC1 (decimate_samples m decimation 0)
            end)
    else None
  else Some image.

(** * Vocabulary of the proofs *)

(** The value a shift record stands for: [n] lies in the unit interval at
    [shr_m], placed by the round and sticky bits, in units of [2^k]. *)
Definition inbetween (k n : Z) (mrs : shr_record) : Prop :=
  let m := shr_m mrs in
  0 <= m /\
  match shr_r mrs, shr_s mrs with
  | false, false => 2 * n = 2 * m * 2 ^ k
  | false, true => 2 * m * 2 ^ k < 2 * n < (2 * m + 1) * 2 ^ k
  | true, false => 2 * n = (2 * m + 1) * 2 ^ k
  | true, true => (2 * m + 1) * 2 ^ k < 2 * n < (2 * m + 2) * 2 ^ k
  end.


(** The float made of a rounded mantissa [m2] and its exponent [e2]. *)
Definition rounded (prec emax : Z) (s : bool) (m2 e2 : Z) : spec_float :=
  match m2 with
  | Z0 => S754_zero s
  | Zpos p => if e2 <=? emax - prec then S754_finite s p e2 else S754_infinity s
  | Zneg _ => S754_nan
  end.

(** The intensity the scorers compare, as [float]. *)
Definition intensity (w : Window) (v u : Z) : float :=
  match w with
  | Win8UC1 m => F32.of_Z (at_ m v u)
  | Win32FC1 m => at_ m v u
  | Win16SC2 m => packed_intensity (at_ m v u)
  | WinOther _ _ => F32.zero
  end.

(** Half of a 16-bit sample, as [float]: at most 24 bits, small exponent. *)
Definition half_sample_bound (z : float) : bool :=
  match z with
  | S754_zero _ => true
  | S754_finite _ m e => (Zpos m <? 2 ^ 24) && (-24 <=? e) && (e <=? -9)
  | _ => false
  end.


(** Two images with the same dimensions and the same samples. *)
Definition same_image {A : Type} (m m' : Mat A) : Prop :=
  rows m = rows m' /\ cols m = cols m' /\ forall y x, at_ m y x = at_ m' y x.



(** The vertical coordinate the tracker works on and the one it stores,
    for an estimate of vertical coordinate [y0]: before any update, and
    after one or more. *)
Definition vertical_kept (winSize : Z * Z) (y0 : float) (t : Track) : Prop :=
  let h := snd (halfWin winSize) in
  (forall d, In d (updates t) -> snd d = F32.zero) /\
  ((updates t = [] /\
    snd (nextPt t) = F32.sub y0 h /\ snd (nextPts_i t) = y0) \/
   (updates t <> [] /\
    snd (nextPt t) = F32.add (F32.sub y0 h) F32.zero /\
    snd (nextPts_i t) = F32.add (F32.add (F32.sub y0 h) F32.zero) h)).

(** The exact value of a finite float, as a rational. *)
Definition F2Q (x : float) : Q :=
  match x with
  | S754_finite s m e =>
      if 0 <=? e then inject_Z (cond_Zopp s (Zpos m * 2 ^ e))
      else Qmake (cond_Zopp s (Zpos m)) (Z.to_pos (2 ^ (- e)))
  | _ => 0%Q
  end.

(** A depth in meters at or above 65.535 m. *)
Definition overflowing (x : float) : bool :=
  match x with
  | S754_infinity false => true
  | S754_finite false _ _ => Qle_bool (65535 # 1000) (F2Q x)
  | _ => false
  end.

(** A depth in meters in the range the 16-bit millimetres hold:
    [0 <= x < 65.535]. *)
Definition representable (x : float) : bool :=
  match x with
  | S754_zero _ => true
  | S754_finite false _ _ => negb (Qle_bool (65535 # 1000) (F2Q x))
  | _ => false
  end.

(** The check of the round trip for the millimetres [d] against the floats
    of exponent [e], [a = 2^(-e)]: the floats [m * 2^e] that convert to [d]
    have [lo <= 2000 * c * m <= hi], and the nearest and the farthest of
    them are within 1 mm of [d] converted back.  The divisions by
    [2000 * c] are a shift and a division by 125. *)
Definition round_trip_pair (a d : Z) : bool :=
  match mm_to_depth d with
  | S754_finite false mb eb =>
      (eb <? 0) &&
      (let cb := Z.shiftl 1 (- eb) in
       let s := 24 - Zdigits2 d in
       let c := Z.shiftl 1 s in
       let lo := a * (c * (2 * d) - 1) in
       let hi := a * (c * (2 * (d + 1)) - 1) in
       let mlo := Z.max 8388608 (Z.shiftr (lo - 1) (s + 4) / 125 + 1) in
       let mhi := Z.min 16777215 (Z.shiftr hi (s + 4) / 125) in
       (mhi <? mlo) ||
       ((cb * (1000 * mhi) - a * (1000 * Zpos mb) <? a * cb) &&
        (a * (1000 * Zpos mb) - cb * (1000 * mlo) <? a * cb)))
  | _ => false
  end.

Definition round_trip_exponent (e : Z) : bool :=
  let a := Z.shiftl 1 (- e) in
  let dmin := Z.max 1 (8388608000 / a) in
  let dmax := Z.min 65535 (16777216000 / a + 1) in
  forallb (round_trip_pair a) (range dmin (dmax + 1)).

(** The float [m2 * 2^e2], in canonical form, is at most [65535.0f]. *)
Definition fits_ushort (m2 e2 : Z) : Prop :=
  e2 < -8 \/ (e2 = -8 /\ m2 <= 16776960).

(** The millimetres [cvtDepthFromFloat] stores for a depth in meters, and
    its count of the depth. *)
Definition stored_mm (meters : float) : Z :=
  match depth_to_mm meters with Some (mm, _) => mm | None => 0 end.

(** [(v, u)] is one of the pixels of [l]. *)
Definition visited (l : list (Z * Z)) (v u : Z) : bool :=
  existsb (fun p => (v =? fst p) && (u =? snd p)) l.

(** One sample of a depth image, as stored. *)
Definition sample_of (d : DepthImage) (v u : Z) : Z + float :=
  match d with
  | Depth16UC1 m => inl (at_ m v u)
  | Depth32FC1 m => inr (at_ m v u)
  end.

(** Two depth images of one type and size with the same samples. *)
Definition same_depth (d d' : DepthImage) : Prop :=
  depth_rows d = depth_rows d' /\ depth_cols d = depth_cols d' /\
  forall v u, 0 <= v < depth_rows d -> 0 <= u < depth_cols d ->
    sample_of d v u = sample_of d' v u.

(** The depth [baseline * fx / disparity] that [depthFromDisparity] stores
    for a disparity, when the disparity and the depth are positive. *)
Definition depth_quotient (fx baseline disparity_value : float) : option float :=
  if F32.gtb disparity_value F32.zero then
    let d := F32.div (F32.mul baseline fx) disparity_value in
    if F32.gtb d F32.zero then Some d else None
  else None.

(** The millimetres stored for a depth [d] in meters, when they fit. *)
Definition quantize (d : float) : option Z :=
  if F32.leb (F32.mul d thousand) (F32.of_Z USHRT_MAX)
  then to_ushort (F32.mul d thousand)
  else None.

(** The sample a depth image of the given type holds after
    [depthFromDisparity] for a pixel of the given disparity. *)
Definition depth_value (type : DepthType) (fx baseline disparity_value : float)
  : Z + float :=
  match type, depth_quotient fx baseline disparity_value with
  | CV_32FC1, Some d => inr d
  | CV_32FC1, None => inr F32.zero
  | CV_16UC1, Some d => inl (match quantize d with Some mm => mm | None => 0 end)
  | CV_16UC1, None => inl 0
  end.

(** A depth image of the given type. *)
Definition has_type (d : DepthImage) (type : DepthType) : bool :=
  match d, type with
  | Depth32FC1 _, CV_32FC1 => true
  | Depth16UC1 _, CV_16UC1 => true
  | _, _ => false
  end.

(** Every sample of a 16-bit depth image is a 16-bit value. *)
Definition samples_in_ushort (d : DepthImage) : Prop :=
  match d with
  | Depth16UC1 m =>
      forall v u, 0 <= v < rows m -> 0 <= u < cols m -> 0 <= at_ m v u <= 65535
  | Depth32FC1 _ => True
  end.

(** The sample of an image of zeros. *)
Definition zero_sample (type : DepthType) : Z + float :=
  match type with CV_32FC1 => inr F32.zero | CV_16UC1 => inl 0 end.

(** The pixel [(y, x)] is neither in the first or last row nor in the
    first or last column of the image. *)
Definition in_interior (img : Mat Z) (y x : Z) : Prop :=
  1 <= y <= rows img - 2 /\ 1 <= x <= cols img - 2.

(** Every sample is a 16-bit value. *)
Definition ushort_image (img : Mat Z) : Prop :=
  forall y x, 0 <= at_ img y x <= 65535.

(** What the hole filter may do to an image: change pixels away from the
    border, and, on 16-bit samples, keep them 16-bit and keep every
    non-empty pixel non-empty. *)
Definition refines (img img' : Mat Z) : Prop :=
  rows img' = rows img /\ cols img' = cols img /\
  (forall y x, ~ in_interior img y x -> at_ img' y x = at_ img y x) /\
  (ushort_image img ->
   ushort_image img' /\ forall y x, at_ img y x <> 0 -> at_ img' y x <> 0).

(** * Concrete inputs used by the examples *)

Module Fixtures.
(** Depth camera with focal length 2, colour camera with focal length 1,
    both with the principal point at the origin. *)
Definition depthK : Mat double := matrix3 2 0 0 0 2 0 0 0 1.
Definition colorK : Mat double := matrix3 1 0 0 0 1 0 0 0 1.

(** The rigid transform that only translates by [tz] along the optical axis. *)
Definition along_z (tz : float) : Affine3f :=
  let o := F32.zero in
  let i := F32.of_Z 1 in
  mkAffine3f (i, o, o, o) (o, i, o, o) (o, o, i, tz).

(** Depth images of 2x2 pixels, in millimetres. *)
Definition depth_near : Mat Z := of_rows 0 [[5; 1]; [7; 9]].
Definition depth_far : Mat Z := of_rows 0 [[5; 3]; [7; 9]].
Definition depth_none : Mat Z := constant 2 2 0.

(** A registered depth map without holes, one pixel far above its
    neighbours. *)
Definition spike : Mat Z :=
  of_rows 0 [[1000; 1000; 1000]; [1000; 2000; 1000]; [1000; 1000; 1000]].

Definition flat : Mat Z :=
  of_rows 0 [[1000; 1000; 1000]; [1000; 1001; 1000]; [1000; 1000; 1000]].

(** A registered depth map with a hole at [(1, 1)] that only vertical
    filling closes and a hole at [(1, 2)] that horizontal filling closes
    once [(1, 1)] is set. *)
Definition holes : Mat Z :=
  of_rows 0 [[7; 1000; 0; 7]; [7; 0; 0; 1000]; [7; 1000; 0; 7]].

(** A column with two holes. *)
Definition column_holes : Mat Z :=
  of_rows 0 [[7; 1000; 900; 7; 7]; [7; 0; 0; 7; 7];
             [7; 0; 0; 7; 7]; [7; 1004; 900; 7; 7]].

(** Pyramids of a stereo pair of constant images, 64x64 at level 0. *)
Definition leftPyramid (level : Z) : Mat Z :=
  constant (64 / 2 ^ level) (64 / 2 ^ level) 100.
Definition rightPyramid (level : Z) : Mat Z :=
  constant (64 / 2 ^ level) (64 / 2 ^ level) 90.

(** [cv::getRectSubPix] on a constant image. *)
Definition getRectSubPix (m : Mat Z) (size : Z * Z) (center : float * float)
  : Mat float :=
  constant (snd size) (fst size) (F32.of_Z (at_ m 0 0)).

Definition corner : float * float := (F32.of_Z 32, F32.of_Z 32).

(** A textured image pair, the second shifted by one column, and the
    derivatives handed to the tracker, defined in the padding as well. *)
Definition prevImg : Mat Z := mkMat 16 16 (fun v u => (u * 16 + v * 3) mod 256).
Definition nextImg : Mat Z := mkMat 16 16 (fun v u => ((u + 1) * 16 + v * 3) mod 256).
Definition prevDeriv : Mat (Z * Z) :=
  mkMat 16 16 (fun v u => (if Z.even u then 320 else 64,
                           if Z.even (u + v) then 320 else 64)).
Definition criteria : TermCriteria := mkTermCriteria true true 30 (F64.lit 1 100).

(** The point [(5, 0.1f)]. *)
Definition point : Point2f := (F32.of_Z 5, F32.lit 1 10).
(** Depths in meters: 1.5, 70, -1 and 0.0004 in the first row, 0,
    65.5, +inf and NaN in the second. *)
Definition depth_meters : Mat float :=
  of_rows F32.zero
    [[F32.lit 3 2; F32.of_Z 70; F32.of_Z (-1); F32.lit 4 10000];
     [F32.zero; F32.lit 655 10; S754_infinity false; S754_nan]].
(** A depth image of 4x8 pixels, in millimetres. *)
Definition depth_4x8 : DepthImage :=
  Depth16UC1 (of_rows 0 [[11; 12; 13; 14; 15; 16; 17; 18];
                         [21; 22; 23; 24; 25; 26; 27; 28];
                         [31; 32; 33; 34; 35; 36; 37; 38];
                         [41; 42; 43; 44; 45; 46; 47; 48]]).
(** Disparities in sixteenths of a pixel: 2 pixels, none, -1 pixel and
    1/16 pixel. *)
Definition disparity_16 : DisparityImage :=
  Disparity16SC1 (of_rows 0 [[32; 0]; [-16; 1]]).

(** The same disparities as floats, and one NaN. *)
Definition disparity_32 : DisparityImage :=
  Disparity32FC1 (of_rows F32.zero
    [[F32.of_Z 2; F32.zero; S754_nan]; [F32.of_Z (-1); F32.lit 1 16; F32.of_Z 4]]).
(** Three corners [(x, y)] of a left image and their matches in the
    right image: disparities 2, 3 and -1. *)
Definition left_corners : list Point2f :=
  [(F32.of_Z 3, F32.of_Z 1); (F32.lit 9 2, F32.of_Z 0); (F32.of_Z 2, F32.of_Z 2)].
Definition right_corners : list Point2f :=
  [(F32.of_Z 1, F32.of_Z 1); (F32.lit 3 2, F32.of_Z 0); (F32.of_Z 3, F32.of_Z 2)].
End Fixtures.

(** * Properties *)

(** ** Loops *)

Lemma range_nil (lo hi : Z) : hi <= lo -> range lo hi = [].
Proof.
  intros H. unfold range.
  replace (Z.to_nat (hi - lo)) with 0%nat by lia. reflexivity.
Qed.

Lemma range_cons (lo hi : Z) : lo < hi -> range lo hi = lo :: range (lo + 1) hi.
Proof.
  intros H. unfold range.
  replace (Z.to_nat (hi - lo)) with (S (Z.to_nat (hi - (lo + 1)))) by lia.
  reflexivity.
Qed.

Lemma in_range_from (n : nat) : forall lo i,
  In i (range_from n lo) <-> lo <= i < lo + Z.of_nat n.
Proof.
  induction n as [|n IH]; intros lo i; cbn [range_from In].
  - lia.
  - rewrite IH. lia.
Qed.

Lemma in_range (lo hi i : Z) : In i (range lo hi) <-> lo <= i < hi.
Proof. unfold range. rewrite in_range_from. lia. Qed.

Lemma range_from_snoc (n : nat) : forall lo,
  range_from (S n) lo = range_from n lo ++ [lo + Z.of_nat n].
Proof.
  induction n as [|n IH]; intros lo.
  - cbn. f_equal. lia.
  - change (range_from (S (S n)) lo) with (lo :: range_from (S n) (lo + 1)).
    rewrite IH. cbn [range_from app]. do 3 f_equal. lia.
Qed.

Lemma range_snoc (lo hi : Z) : lo <= hi -> range lo (hi + 1) = range lo hi ++ [hi].
Proof.
  intros H. unfold range.
  replace (Z.to_nat (hi + 1 - lo)) with (S (Z.to_nat (hi - lo))) by lia.
  rewrite range_from_snoc. do 2 f_equal. lia.
Qed.

Lemma range_from_NoDup (n : nat) : forall lo, NoDup (range_from n lo).
Proof.
  induction n as [|n IH]; intros lo; cbn [range_from]; constructor.
  - rewrite in_range_from. lia.
  - apply IH.
Qed.

Lemma range_NoDup (lo hi : Z) : NoDup (range lo hi).
Proof. apply range_from_NoDup. Qed.

(** A loop that keeps an invariant keeps it to the end. *)
Lemma for_range_invariant {S : Type} (P : S -> Prop) (lo hi : Z)
      (body : Z -> S -> S) (s : S) :
  P s -> (forall i t, lo <= i < hi -> P t -> P (body i t)) ->
  P (for_range lo hi body s).
Proof.
  unfold for_range. intros Hs Hstep.
  assert (Hin : forall i, In i (range lo hi) -> lo <= i < hi)
    by (intros i; apply in_range).
  revert s Hs. induction (range lo hi) as [|i l IH]; intros s Hs; cbn.
  - exact Hs.
  - apply IH.
    + intros j Hj. apply Hin. now right.
    + apply Hstep; [apply Hin; now left | exact Hs].
Qed.

(** ** Floating point: the rounding of [SpecFloat] *)

Lemma digits2_pos_bounds (p : positive) :
  2 ^ (Zpos (digits2_pos p) - 1) <= Zpos p < 2 ^ Zpos (digits2_pos p).
Proof.
  induction p as [p IH | p IH |]; cbn [digits2_pos].
  - rewrite Pos2Z.inj_succ.
    replace (Z.succ (Zpos (digits2_pos p)) - 1) with (Z.succ (Zpos (digits2_pos p) - 1)) by lia.
    rewrite !Z.pow_succ_r by lia. lia.
  - rewrite Pos2Z.inj_succ.
    replace (Z.succ (Zpos (digits2_pos p)) - 1) with (Z.succ (Zpos (digits2_pos p) - 1)) by lia.
    rewrite !Z.pow_succ_r by lia. lia.
  - cbn. lia.
Qed.

Lemma pow2_lt_mono (a b : Z) : 0 <= a -> 0 <= b -> 2 ^ a < 2 ^ b -> a < b.
Proof. intros Ha Hb H. apply Z.pow_lt_mono_r_iff in H; lia. Qed.

Lemma Zdigits2_unique (p : positive) (j : Z) :
  0 < j -> 2 ^ (j - 1) <= Zpos p < 2 ^ j -> Zpos (digits2_pos p) = j.
Proof.
  intros Hj [H1 H2].
  destruct (digits2_pos_bounds p) as [B1 B2].
  assert (j - 1 < Zpos (digits2_pos p)) by (apply pow2_lt_mono; lia).
  assert (Zpos (digits2_pos p) - 1 < j) by (apply pow2_lt_mono; lia).
  lia.
Qed.

Lemma Zdigits2_le (p : positive) (j : Z) :
  0 <= j -> Zpos p < 2 ^ j -> Zpos (digits2_pos p) <= j.
Proof.
  intros Hj H. destruct (digits2_pos_bounds p) as [B1 _].
  assert (Zpos (digits2_pos p) - 1 < j) by (apply pow2_lt_mono; lia). lia.
Qed.

Lemma Zdigits2_ge (p : positive) (j : Z) :
  0 <= j -> 2 ^ j <= Zpos p -> j + 1 <= Zpos (digits2_pos p).
Proof.
  intros Hj H. destruct (digits2_pos_bounds p) as [_ B2].
  assert (j < Zpos (digits2_pos p)) by (apply pow2_lt_mono; lia). lia.
Qed.

Lemma inbetween_shr_1 (k n : Z) (mrs : shr_record) :
  0 <= k -> inbetween k n mrs -> inbetween (k + 1) n (shr_1 mrs).
Proof.
  intros Hk. destruct mrs as [m r s]. unfold inbetween. cbn [shr_m shr_r shr_s].
  intros [Hm H].
  rewrite Z.pow_add_r by lia. change (2 ^ 1) with 2.
  assert (Hp : 0 < 2 ^ k) by (apply Z.pow_pos_nonneg; lia).
  set (P := 2 ^ k) in *. clearbody P.
  destruct m as [|[p|p|]|p]; try lia; cbn [shr_1 shr_m shr_r shr_s orb];
    destruct r, s; cbn [orb]; (split; [lia|]);
    try rewrite Pos2Z.inj_xI in *; try rewrite Pos2Z.inj_xO in *; nia.
Qed.

Lemma inbetween_iter (p : positive) : forall (k n : Z) (mrs : shr_record),
  0 <= k -> inbetween k n mrs -> inbetween (k + Zpos p) n (iter_pos shr_1 p mrs).
Proof.
  induction p as [p IH | p IH |]; intros k n mrs Hk H; cbn [iter_pos].
  - replace (k + Zpos p~1) with (k + 1 + Zpos p + Zpos p) by lia.
    apply IH; [lia|]. apply IH; [lia|]. now apply inbetween_shr_1.
  - replace (k + Zpos p~0) with (k + Zpos p + Zpos p) by lia.
    apply IH; [lia|]. now apply IH.
  - now apply inbetween_shr_1.
Qed.

Lemma inbetween_exact (n : Z) :
  0 <= n -> inbetween 0 n (Build_shr_record n false false).
Proof. intros H. unfold inbetween. cbn. lia. Qed.

Lemma inbetween_bounds (k n : Z) (mrs : shr_record) :
  0 <= k -> inbetween k n mrs ->
  shr_m mrs * 2 ^ k <= n < (shr_m mrs + 1) * 2 ^ k.
Proof.
  intros Hk. destruct mrs as [m r s]. unfold inbetween. cbn [shr_m shr_r shr_s].
  intros [Hm H].
  assert (Hp : 0 < 2 ^ k) by (apply Z.pow_pos_nonneg; lia).
  set (P := 2 ^ k) in *. clearbody P.
  destruct r, s; nia.
Qed.

(** Rounding to nearest of a located value is within half a unit. *)
Lemma round_nearest_even_error (k n : Z) (mrs : shr_record) :
  0 <= k -> inbetween k n mrs ->
  let m1 := round_nearest_even (shr_m mrs) (loc_of_shr_record mrs) in
  shr_m mrs <= m1 <= shr_m mrs + 1 /\
  2 * m1 * 2 ^ k - 2 ^ k <= 2 * n <= 2 * m1 * 2 ^ k + 2 ^ k /\
  (Z.odd m1 = true -> 2 * m1 * 2 ^ k - 2 ^ k < 2 * n < 2 * m1 * 2 ^ k + 2 ^ k).
Proof.
  intros Hk. destruct mrs as [m r s]. unfold inbetween. cbn [shr_m shr_r shr_s].
  intros [Hm H].
  assert (Hp : 0 < 2 ^ k) by (apply Z.pow_pos_nonneg; lia).
  set (P := 2 ^ k) in *. clearbody P.
  destruct r, s; cbn [loc_of_shr_record round_nearest_even];
    try destruct (Z.even m) eqn:Ev; (split; [lia|]); (split; [nia|]);
    intros Hodd; try nia; exfalso;
    rewrite ?Z.odd_add, <- ?Z.negb_even, ?Ev in Hodd; discriminate.
Qed.

Section RoundSpec.
Variables prec emax : Z.
Hypothesis Hprec : 0 < prec.

Local Notation "'fexp'" := (SpecFloat.fexp prec emax).

Lemma fexp_eq (e : Z) : fexp e = Z.max (e - prec) (3 - emax - prec).
Proof. unfold SpecFloat.fexp, SpecFloat.emin. symmetry. apply Z.max_comm || reflexivity. Qed.

Lemma fexp_ge_emin (e : Z) : 3 - emax - prec <= fexp e.
Proof. rewrite fexp_eq. lia. Qed.

Lemma shr_fexp_exact (m e : Z) :
  0 <= m ->
  let n := Z.max (fexp (Zdigits2 m + e) - e) 0 in
  exists R, shr_fexp prec emax m e loc_Exact = (R, e + n) /\ inbetween n m R.
Proof.
  intros Hm n. unfold shr_fexp, shr. cbn [shr_record_of_loc].
  subst n. destruct (fexp (Zdigits2 m + e) - e) as [|p|p] eqn:Hn.
  - eexists. split; [f_equal; lia|]. now apply inbetween_exact.
  - eexists. split; [f_equal; lia|].
    replace (Z.max (Zpos p) 0) with (0 + Zpos p) by lia.
    apply inbetween_iter; [lia|]. now apply inbetween_exact.
  - eexists. split; [f_equal; lia|]. now apply inbetween_exact.
Qed.

Local Notation "'rounded'" := (rounded prec emax).

Lemma binary_round_aux_exact (s : bool) (M : positive) (E : Z) :
  E <= fexp (Zpos (digits2_pos M) + E) ->
  exists m2 k,
    0 <= k /\ 0 <= m2 /\
    binary_round_aux prec emax s (Zpos M) E loc_Exact = rounded s m2 (E + k) /\
    2 * m2 * 2 ^ k - 2 ^ k <= 2 * Zpos M <= 2 * m2 * 2 ^ k + 2 ^ k /\
    (0 < m2 -> fexp (Zdigits2 m2 + (E + k)) = E + k) /\
    E + k <= fexp (Zpos (digits2_pos M) + E) + 1.
Proof.
  intros Hcan. unfold binary_round_aux.
  destruct (shr_fexp_exact (Zpos M) E) as (R1 & -> & Hin1); [lia|].
  cbn [Zdigits2] in *.
  set (d := Zpos (digits2_pos M)) in *.
  set (e1 := fexp (d + E)) in *.
  replace (Z.max (e1 - E) 0) with (e1 - E) in * by lia.
  replace (E + (e1 - E)) with e1 by lia.
  set (p := e1 - E) in *. assert (Hp : 0 <= p) by (subst p; lia).
  destruct (round_nearest_even_error p (Zpos M) R1 Hp Hin1) as (Hq & Herr & _).
  set (m1 := round_nearest_even (shr_m R1) (loc_of_shr_record R1)) in *.
  assert (Hq0 : 0 <= shr_m R1) by (destruct Hin1; assumption).
  assert (Hm1 : 0 <= m1) by lia.
  destruct (digits2_pos_bounds M) as [Bd1 Bd2]. fold d in Bd1, Bd2.
  assert (Hd : 0 < d) by (subst d; lia).
  assert (Hpow : 0 < 2 ^ p) by (apply Z.pow_pos_nonneg; lia).
  (* the mantissa after the first shift has at most [prec] digits *)
  assert (Hm1le : m1 <= 2 ^ prec).
  { assert (d - p <= prec) by (subst p e1; rewrite ?fexp_eq in *; lia).
    assert (2 ^ d <= 2 ^ prec * 2 ^ p).
    { rewrite <- Z.pow_add_r by lia. apply Z.pow_le_mono_r; lia. }
    pose proof (inbetween_bounds p (Zpos M) R1 Hp Hin1) as [Hb _].
    assert (shr_m R1 * 2 ^ p < 2 ^ prec * 2 ^ p) by lia.
    assert (shr_m R1 < 2 ^ prec) by (apply Z.mul_lt_mono_pos_r with (2 ^ p); lia).
    lia. }
  (* and exactly [prec] of them unless the exponent is the least one *)
  assert (Hm1ge : 3 - emax - prec < e1 -> 2 ^ (prec - 1) <= m1).
  { intros Hlt.
    assert (Hpd : p = d - prec) by (subst p e1; rewrite ?fexp_eq in *; lia).
    assert (2 ^ (d - 1) = 2 ^ (prec - 1) * 2 ^ p).
    { rewrite <- Z.pow_add_r by lia. f_equal. lia. }
    assert (0 < 2 ^ (prec - 1)) by (apply Z.pow_pos_nonneg; lia).
    pose proof (inbetween_bounds p (Zpos M) R1 Hp Hin1) as [_ Hb].
    assert (2 ^ (prec - 1) * 2 ^ p < (shr_m R1 + 1) * 2 ^ p) by lia.
    assert (2 ^ (prec - 1) < shr_m R1 + 1) by (apply Z.mul_lt_mono_pos_r with (2 ^ p); lia).
    lia. }
  destruct (shr_fexp_exact m1 e1 Hm1) as (R2 & -> & Hin2).
  set (n2 := Z.max (fexp (Zdigits2 m1 + e1) - e1) 0) in *.
  assert (Hn2 : n2 = 0 \/ (n2 = 1 /\ m1 = 2 ^ prec)).
  { destruct m1 as [|q|q] eqn:Em1; [left|  |lia].
    - subst n2. cbn [Zdigits2]. subst e1. rewrite ?fexp_eq in *. lia.
    - cbn [Zdigits2] in *.
      destruct (Z.eq_dec (Zpos q) (2 ^ prec)) as [Heq|Hne].
      + right. split; [|exact Heq].
        assert (Zpos (digits2_pos q) = prec + 1).
        { apply Zdigits2_unique; [lia|].
          replace (prec + 1 - 1) with prec by lia.
          rewrite Z.pow_add_r by lia. lia. }
        subst n2. rewrite H. subst e1. rewrite ?fexp_eq in *. lia.
      + left. assert (Zpos (digits2_pos q) <= prec)
          by (apply Zdigits2_le; lia).
        subst n2. subst e1. rewrite ?fexp_eq in *. lia. }
  destruct Hn2 as [Hn2 | [Hn2 Hcarry]].
  - (* no carry: the rounded mantissa is the result *)
    rewrite Hn2 in *. destruct Hin2 as [_ Hin2].
    assert (Hm2 : shr_m R2 = m1).
    { destruct (shr_r R2), (shr_s R2); change (2 ^ 0) with 1 in Hin2; lia. }
    exists m1, p. rewrite Hm2. replace (e1 + 0) with e1 by lia.
    replace (E + p) with e1 by (subst p; lia).
    split; [lia|]. split; [lia|]. split; [reflexivity|]. split; [lia|].
    split; [|lia].
    intros Hpos.
    assert (Hle : fexp (Zdigits2 m1 + e1) <= e1) by (subst n2; lia).
    assert (Hge : e1 <= fexp (Zdigits2 m1 + e1)).
    { destruct (Z.eq_dec e1 (3 - emax - prec)) as [->|Hne]; [apply fexp_ge_emin|].
      assert (3 - emax - prec < e1) by (pose proof (fexp_ge_emin (d + E)); fold e1 in H; lia).
      destruct m1 as [|q|q]; try lia. cbn [Zdigits2].
      assert (prec - 1 + 1 <= Zpos (digits2_pos q))
        by (apply Zdigits2_ge; [lia| now apply Hm1ge]).
      rewrite ?fexp_eq in *. lia. }
    lia.
  - (* carry: the mantissa [2^prec] is halved, exactly *)
    rewrite Hn2 in *. destruct Hin2 as [Hr2 Hin2].
    assert (Hhalf : 2 ^ prec = 2 * 2 ^ (prec - 1)).
    { replace prec with (Z.succ (prec - 1)) at 1 by lia.
      apply Z.pow_succ_r. lia. }
    assert (Hm2 : shr_m R2 = 2 ^ (prec - 1)).
    { destruct (shr_r R2), (shr_s R2); change (2 ^ 1) with 2 in Hin2; lia. }
    exists (2 ^ (prec - 1)), (p + 1). rewrite Hm2.
    replace (E + (p + 1)) with (e1 + 1) by (subst p; lia).
    assert (0 < 2 ^ (prec - 1)) by (apply Z.pow_pos_nonneg; lia).
    split; [lia|]. split; [lia|]. split; [reflexivity|]. split.
    + rewrite Z.pow_add_r by lia. change (2 ^ 1) with 2. nia.
    + split; [|lia].
      intros _. destruct (2 ^ (prec - 1)) as [|q|q] eqn:Eq2; try lia.
      cbn [Zdigits2].
      assert (Zpos (digits2_pos q) = prec).
      { apply Zdigits2_unique; [lia|]. rewrite <- Eq2. lia. }
      rewrite H0. pose proof (fexp_ge_emin (d + E)). fold e1 in H1.
      rewrite ?fexp_eq in *. lia.
Qed.

Lemma rounded_not_nan (s : bool) (m2 e2 : Z) :
  0 <= m2 -> is_nan (rounded s m2 e2) = false.
Proof.
  intros H. unfold rounded. destruct m2; try lia; [reflexivity|].
  now destruct (e2 <=? emax - prec).
Qed.

Lemma rounded_nonneg (m2 e2 : Z) :
  0 <= m2 -> SFleb (S754_zero false) (rounded false m2 e2) = true.
Proof.
  intros H. unfold rounded. destruct m2; try lia; [reflexivity|].
  now destruct (e2 <=? emax - prec).
Qed.

(** Whatever is rounded, the result carries the sign it was given. *)
Lemma iter_shr_1_nonneg (p : positive) : forall mrs,
  0 <= shr_m mrs -> 0 <= shr_m (iter_pos shr_1 p mrs).
Proof.
  assert (H1 : forall mrs, 0 <= shr_m mrs -> 0 <= shr_m (shr_1 mrs)).
  { intros [m r s]. cbn [shr_m]. destruct m as [|[q|q|]|q]; cbn; lia. }
  induction p as [p IH | p IH |]; intros mrs H; cbn [iter_pos]; auto.
Qed.

Lemma shr_fexp_nonneg (m e : Z) (l : location) :
  0 <= m -> 0 <= shr_m (fst (shr_fexp prec emax m e l)).
Proof.
  intros H. unfold shr_fexp, shr.
  assert (H0 : 0 <= shr_m (shr_record_of_loc m l))
    by (destruct l as [|[]]; exact H).
  destruct (fexp (Zdigits2 m + e) - e); cbn [fst]; auto.
  now apply iter_shr_1_nonneg.
Qed.

Lemma binary_round_aux_shape (s : bool) (M E : Z) (l : location) :
  0 <= M ->
  exists m2 e2, 0 <= m2 /\ binary_round_aux prec emax s M E l = rounded s m2 e2.
Proof.
  intros H. unfold binary_round_aux.
  pose proof (shr_fexp_nonneg M E l H) as H1.
  destruct (shr_fexp prec emax M E l) as [R1 e1]. cbn [fst] in H1.
  set (m1 := round_nearest_even (shr_m R1) (loc_of_shr_record R1)).
  assert (Hm1 : 0 <= m1).
  { subst m1. destruct R1 as [m r t]. cbn [shr_m] in *.
    destruct r, t; cbn; try destruct (Z.even m); lia. }
  pose proof (shr_fexp_nonneg m1 e1 loc_Exact Hm1) as H2.
  destruct (shr_fexp prec emax m1 e1 loc_Exact) as [R2 e2]. cbn [fst] in H2.
  exists (shr_m R2), e2. split; [exact H2 | reflexivity].
Qed.

Lemma iter_xO (d m : positive) : Zpos (Pos.iter xO m d) = Zpos m * 2 ^ Zpos d.
Proof.
  induction d as [|d IH] using Pos.peano_ind.
  - cbn. lia.
  - rewrite Pos.iter_succ, Pos2Z.inj_xO, IH, Pos2Z.inj_succ, Z.pow_succ_r by lia.
    lia.
Qed.

Lemma shl_align_spec (mx : positive) (ex ex' : Z) :
  let '(m', e') := shl_align mx ex ex' in
  e' = Z.min ex ex' /\ Zpos m' = Zpos mx * 2 ^ (ex - e').
Proof.
  unfold shl_align. destruct (ex' - ex) as [|d|d] eqn:Hd.
  - split; [lia|]. replace (ex - ex) with 0 by lia. cbn. lia.
  - split; [lia|]. replace (ex - ex) with 0 by lia. cbn. lia.
  - split; [lia|]. rewrite iter_xO. f_equal. f_equal. lia.
Qed.

Lemma digits2_pos_shift (m m' : positive) (k : Z) :
  0 <= k -> Zpos m' = Zpos m * 2 ^ k ->
  Zpos (digits2_pos m') = Zpos (digits2_pos m) + k.
Proof.
  intros Hk H. destruct (digits2_pos_bounds m) as [B1 B2].
  apply Zdigits2_unique; [lia|]. rewrite H.
  replace (Zpos (digits2_pos m) + k - 1) with (Zpos (digits2_pos m) - 1 + k) by lia.
  rewrite !Z.pow_add_r by lia.
  assert (0 < 2 ^ k) by (apply Z.pow_pos_nonneg; lia). nia.
Qed.

(** Rounding of [mx * 2^ex]: shape, exponent bound and half-unit error, the
    error in units of [2^e0] with [e0] the aligned exponent. *)
Lemma binary_round_spec (s : bool) (mx : positive) (ex : Z) :
  let e0 := Z.min ex (fexp (Zpos (digits2_pos mx) + ex)) in
  exists m2 k,
    0 <= k /\ 0 <= m2 /\
    binary_round prec emax s mx ex = rounded s m2 (e0 + k) /\
    2 * m2 * 2 ^ k - 2 ^ k <= 2 * (Zpos mx * 2 ^ (ex - e0)) <= 2 * m2 * 2 ^ k + 2 ^ k /\
    (0 < m2 -> fexp (Zdigits2 m2 + (e0 + k)) = e0 + k) /\
    e0 + k <= fexp (Zpos (digits2_pos mx) + ex) + 1.
Proof.
  intros e0. unfold binary_round.
  pose proof (shl_align_spec mx ex (fexp (Zpos (digits2_pos mx) + ex))) as Hal.
  destruct (shl_align mx ex (fexp (Zpos (digits2_pos mx) + ex))) as [mz ez].
  destruct Hal as [Hez Hmz]. fold e0 in Hez. subst ez.
  assert (Hdig : Zpos (digits2_pos mz) + e0 = Zpos (digits2_pos mx) + ex).
  { rewrite (digits2_pos_shift mx mz (ex - e0)); [lia | subst e0; lia | exact Hmz]. }
  destruct (binary_round_aux_exact s mz e0) as (m2 & k & Hk & Hm2 & Heq & Herr & Hcan & Hexp).
  { rewrite Hdig. subst e0. lia. }
  exists m2, k. rewrite Hdig in Hexp. rewrite Hmz in Herr. tauto.
Qed.
End RoundSpec.

(** ** Floating point: signs and special values of the operations *)

Section OpShapes.
Variables prec emax : Z.
Hypothesis Hprec : 0 < prec.

Lemma binary_round_shape (s : bool) (m : positive) (e : Z) :
  exists m2 e2, 0 <= m2 /\ binary_round prec emax s m e = rounded prec emax s m2 e2.
Proof.
  unfold binary_round. destruct (shl_align _ _ _) as [mz ez].
  apply binary_round_aux_shape. lia.
Qed.

Lemma binary_normalize_not_nan (z e : Z) (sz : bool) :
  is_nan (binary_normalize prec emax z e sz) = false.
Proof.
  destruct z as [|p|p]; cbn [binary_normalize]; [reflexivity| |];
    destruct (binary_round_shape false p e) as (m2 & e2 & H & E);
    destruct (binary_round_shape true p e) as (m3 & e3 & H' & E');
    rewrite ?E, ?E'; now apply rounded_not_nan.
Qed.

Lemma SFsub_diag (x : spec_float) :
  uIsFinite x = true -> SFsub prec emax x x = S754_zero false.
Proof.
  destruct x as [s|s| |s m e]; try discriminate; intros _.
  - now destruct s.
  - unfold SFsub. now rewrite Z.sub_diag.
Qed.

Lemma SFsub_not_nan (x y : spec_float) :
  uIsFinite x = true -> uIsFinite y = true -> is_nan (SFsub prec emax x y) = false.
Proof.
  destruct x as [sx|sx| |sx mx ex], y as [sy|sy| |sy my ey];
    try discriminate; intros _ _; unfold SFsub.
  - now destruct sx, sy.
  - reflexivity.
  - reflexivity.
  - apply binary_normalize_not_nan.
Qed.

Lemma SFmul_self_nonneg (x : spec_float) :
  is_nan x = false -> SFleb (S754_zero false) (SFmul prec emax x x) = true.
Proof.
  destruct x as [s|s| |s m e]; try discriminate; intros _; unfold SFmul.
  - now destruct s.
  - now destruct s.
  - replace (xorb s s) with false by (now destruct s).
    destruct (binary_round_aux_shape prec emax false (Zpos (m * m)) (e + e) loc_Exact)
      as (m2 & e2 & H & ->); [lia|].
    now apply rounded_nonneg.
Qed.

Lemma SFadd_nonneg (x y : spec_float) :
  SFleb (S754_zero false) x = true -> SFleb (S754_zero false) y = true ->
  SFleb (S754_zero false) (SFadd prec emax x y) = true.
Proof.
  destruct x as [sx|sx| |sx mx ex], y as [sy|sy| |sy my ey];
    try discriminate; try destruct sx; try destruct sy; try discriminate;
    intros _ _; try reflexivity.
  unfold SFadd. cbn [cond_Zopp].
  destruct (binary_round_shape false
              (fst (shl_align mx ex (Z.min ex ey)) + fst (shl_align my ey (Z.min ex ey)))
              (Z.min ex ey)) as (m2 & e2 & H & E).
  cbn [Z.add binary_normalize]. rewrite E. now apply rounded_nonneg.
Qed.

Lemma SFabs_nonneg (x : spec_float) :
  is_nan x = false -> SFleb (S754_zero false) (SFabs x) = true.
Proof. destruct x; try discriminate; reflexivity. Qed.

Lemma rounded_finite (s : bool) (m2 e2 : Z) :
  0 <= m2 -> e2 <= emax - prec -> uIsFinite (rounded prec emax s m2 e2) = true.
Proof.
  intros H He. unfold rounded. destruct m2; try lia; [reflexivity|].
  replace (e2 <=? emax - prec) with true by (symmetry; apply Z.leb_le; lia).
  reflexivity.
Qed.

(** A sum does not overflow when both terms are below [2^(b + hi)]. *)
Lemma SFadd_finite (b lo hi : Z) (x y : spec_float) :
  let small z :=
    match z with
    | S754_zero _ => True
    | S754_finite _ m e => Zpos m < 2 ^ b /\ lo <= e <= hi
    | _ => False
    end in
  0 <= b -> lo <= hi ->
  Z.max (b + hi + 1 - prec) (3 - emax - prec) + 1 <= emax - prec ->
  small x -> small y -> uIsFinite (SFadd prec emax x y) = true.
Proof.
  intros small Hb Hlh Hroom Hx Hy.
  destruct x as [sx|sx| |sx mx ex], y as [sy|sy| |sy my ey];
    cbn in Hx, Hy; try contradiction; try reflexivity.
  - now destruct sx, sy.
  - unfold SFadd. set (ez := Z.min ex ey).
    pose proof (shl_align_spec mx ex ez) as Hax.
    pose proof (shl_align_spec my ey ez) as Hay.
    destruct (shl_align mx ex ez) as [ax e1], (shl_align my ey ez) as [ay e2].
    cbn [fst]. destruct Hax as [-> Hax], Hay as [-> Hay].
    replace (Z.min ex ez) with ez in Hax by (subst ez; lia).
    replace (Z.min ey ez) with ez in Hay by (subst ez; lia).
    assert (Hez : lo <= ez <= hi) by (subst ez; lia).
    assert (Hpw : forall e, lo <= e <= hi -> ez <= e -> 2 ^ (e - ez) <= 2 ^ (hi - ez)).
    { intros e He Hz. apply Z.pow_le_mono_r; lia. }
    assert (Hlim : 2 ^ b * 2 ^ (hi - ez) + 2 ^ b * 2 ^ (hi - ez) = 2 ^ (b + (hi - ez) + 1)).
    { rewrite !Z.pow_add_r by lia. change (2 ^ 1) with 2. lia. }
    assert (Hpx : 0 < 2 ^ (ex - ez)) by (apply Z.pow_pos_nonneg; subst ez; lia).
    assert (Hpy : 0 < 2 ^ (ey - ez)) by (apply Z.pow_pos_nonneg; subst ez; lia).
    assert (Hbx : Zpos ax < 2 ^ b * 2 ^ (hi - ez)).
    { rewrite Hax. specialize (Hpw ex). assert (ez <= ex) by (subst ez; lia). nia. }
    assert (Hby : Zpos ay < 2 ^ b * 2 ^ (hi - ez)).
    { rewrite Hay. specialize (Hpw ey). assert (ez <= ey) by (subst ez; lia). nia. }
    assert (Hz : forall z p, Z.abs z = Zpos p ->
               Z.abs z < 2 ^ (b + (hi - ez) + 1) ->
               forall s, uIsFinite (binary_round prec emax s p ez) = true).
    { intros z p Hzp Hzb s.
      destruct (binary_round_spec prec emax Hprec s p ez)
        as (m2 & k & Hk & Hm2 & -> & _ & _ & Hexp).
      apply rounded_finite; [exact Hm2|].
      assert (Zpos (digits2_pos p) <= b + (hi - ez) + 1)
        by (apply Zdigits2_le; lia).
      rewrite fexp_eq in Hexp |- *. lia. }
    destruct (cond_Zopp sx (Zpos ax) + cond_Zopp sy (Zpos ay)) as [|p|p] eqn:Ez;
      cbn [binary_normalize]; [reflexivity| |].
    + apply (Hz (Zpos p)); [reflexivity|].
      destruct sx, sy; cbn [cond_Zopp] in Ez; lia.
    + apply (Hz (Zneg p)); [reflexivity|].
      destruct sx, sy; cbn [cond_Zopp] in Ez; lia.
Qed.
End OpShapes.

(** A mantissa that is canonical at its exponent is rounded to itself. *)
Lemma binary_round_aux_canonical (prec emax : Z) (s : bool) (M : positive) (E : Z) :
  SpecFloat.fexp prec emax (Zpos (digits2_pos M) + E) = E ->
  binary_round_aux prec emax s (Zpos M) E loc_Exact = rounded prec emax s (Zpos M) E.
Proof.
  intros H. unfold binary_round_aux, shr_fexp. cbn [Zdigits2].
  rewrite H, Z.sub_diag. cbn [shr shr_record_of_loc shr_m loc_of_shr_record round_nearest_even].
  cbn [Zdigits2]. rewrite H, Z.sub_diag. cbn [shr shr_record_of_loc shr_m]. reflexivity.
Qed.

(** The widening of a [float] to [double] is exact: the mantissa is
    shifted left by [k] bits and the exponent lowered by [k], and the
    result is a binary64 value. *)
Lemma float_to_double_exact (s : bool) (m : positive) (e : Z) :
  F32.valid (S754_finite s m e) = true ->
  exists (m' : positive) (k : Z),
    0 <= k /\ Zpos m' = Zpos m * 2 ^ k /\
    float_to_double (S754_finite s m e) = S754_finite s m' (e - k) /\
    F64.valid (S754_finite s m' (e - k)) = true.
Proof.
  intros V. unfold F32.valid, valid_binary, bounded, canonical_mantissa in V.
  apply andb_true_iff in V. destruct V as [C B].
  apply Z.eqb_eq in C. apply Z.leb_le in B.
  rewrite (fexp_eq F32.prec F32.emax) in C.
  unfold F32.prec, F32.emax in *.
  set (d := Zpos (digits2_pos m)) in *.
  assert (Hd : 0 < d) by (subst d; lia).
  unfold float_to_double, binary_round.
  pose proof (shl_align_spec m e (SpecFloat.fexp F64.prec F64.emax (d + e))) as Hal.
  fold d.
  destruct (shl_align m e (SpecFloat.fexp F64.prec F64.emax (d + e))) as [mz ez].
  destruct Hal as [Hez Hmz].
  rewrite (fexp_eq F64.prec F64.emax) in Hez.
  unfold F64.prec, F64.emax in *.
  assert (Ez : ez = d + e - 53) by lia.
  assert (Hdig : Zpos (digits2_pos mz) = 53).
  { rewrite (digits2_pos_shift m mz (e - ez)); [fold d; lia | lia | exact Hmz]. }
  assert (Hc : SpecFloat.fexp 53 1024 (Zpos (digits2_pos mz) + ez) = ez).
  { rewrite (fexp_eq 53 1024), Hdig. lia. }
  rewrite binary_round_aux_canonical by exact Hc.
  exists mz, (e - ez). split; [lia|]. split; [exact Hmz|].
  replace (e - (e - ez)) with ez by lia.
  assert (Hb : (ez <=? 1024 - 53) = true) by (apply Z.leb_le; lia).
  split.
  - unfold rounded. now rewrite Hb.
  - unfold F64.valid, valid_binary, bounded, canonical_mantissa, F64.prec, F64.emax.
    rewrite Hc, Z.eqb_refl. exact Hb.
Qed.

(** ** Block dissimilarity scorers *)

Lemma all_samples_at {A : Type} (p : A -> bool) (m : Mat A) (v u : Z) :
  all_samples p m = true -> 0 <= v < rows m -> 0 <= u < cols m ->
  p (at_ m v u) = true.
Proof.
  unfold all_samples. intros H Hv Hu.
  rewrite forallb_forall in H. specialize (H v (proj2 (in_range _ _ _) Hv)).
  rewrite forallb_forall in H. exact (H u (proj2 (in_range _ _ _) Hu)).
Qed.

Lemma accumulate_invariant (P : float -> Prop) (r c : Z) (term : Z -> Z -> float) :
  P F32.zero ->
  (forall v u sc, 0 <= v < r -> 0 <= u < c -> P sc -> P (F32.add sc (term v u))) ->
  P (accumulate r c term).
Proof.
  intros H0 Hstep. unfold accumulate.
  apply for_range_invariant; [exact H0|].
  intros v sc Hv Hsc. apply for_range_invariant; [exact Hsc|].
  intros u sc' Hu Hsc'. now apply Hstep.
Qed.

Lemma of_Z_uchar_finite (a : Z) :
  in_uchar a = true -> uIsFinite (F32.of_Z a) = true.
Proof.
  intros H.
  assert (T : forallb (fun a => uIsFinite (F32.of_Z a)) (range 0 256) = true)
    by (vm_compute; reflexivity).
  rewrite forallb_forall in T. apply T, in_range.
  unfold in_uchar in H. lia.
Qed.

Lemma half_sample_small (a : Z) :
  in_short a = true -> half_sample_bound (F32.mul (F32.of_Z a) half) = true.
Proof.
  intros H.
  assert (T : forallb (fun a => half_sample_bound (F32.mul (F32.of_Z a) half))
                      (range (-32768) 32768) = true)
    by (vm_compute; reflexivity).
  rewrite forallb_forall in T. apply T, in_range.
  unfold in_short in H. lia.
Qed.

Lemma half_sample_bound_spec (z : float) :
  half_sample_bound z = true ->
  match z with
  | S754_zero _ => True
  | S754_finite _ m e => Zpos m < 2 ^ 24 /\ -24 <= e <= -9
  | _ => False
  end.
Proof.
  destruct z as [s|s| |s m e]; try discriminate; [exact (fun _ => I)|].
  unfold half_sample_bound. rewrite !andb_true_iff, Z.ltb_lt, !Z.leb_le. tauto.
Qed.

Lemma packed_intensity_finite (p : Z * Z) :
  in_short (fst p) = true -> in_short (snd p) = true ->
  uIsFinite (packed_intensity p) = true.
Proof.
  intros Ha Hb. unfold packed_intensity, F32.add.
  apply (SFadd_finite F32.prec F32.emax) with (b := 24) (lo := -24) (hi := -9).
  - unfold F32.prec. lia.
  - lia.
  - lia.
  - unfold F32.prec, F32.emax. lia.
  - apply half_sample_bound_spec, half_sample_small, Ha.
  - apply half_sample_bound_spec, half_sample_small, Hb.
Qed.

(** The samples the scorers compare are finite. *)
Lemma sample_diff_intensity (wl wr : Window) :
  same_encoding wl wr = true ->
  sample_diff wl wr =
    Some (fun v u => F32.sub (intensity wl v u) (intensity wr v u)).
Proof. destruct wl, wr; try discriminate; reflexivity. Qed.

Lemma intensity_finite (w : Window) (v u : Z) :
  well_formed w = true -> finite_samples w = true ->
  0 <= v < win_rows w -> 0 <= u < win_cols w ->
  uIsFinite (intensity w v u) = true.
Proof.
  intros Hw Hf Hv Hu. destruct w as [m|m|m|r c]; cbn in *.
  - apply of_Z_uchar_finite. exact (all_samples_at _ _ _ _ Hw Hv Hu).
  - exact (all_samples_at _ _ _ _ Hf Hv Hu).
  - pose proof (all_samples_at _ _ _ _ Hw Hv Hu) as H. cbn in H.
    apply andb_prop in H. apply packed_intensity_finite; tauto.
  - reflexivity.
Qed.

Lemma same_shape_refl (w : Window) : same_shape w w = true.
Proof. unfold same_shape. now rewrite !Z.eqb_refl. Qed.

Lemma same_encoding_refl (w : Window) : supported w = true -> same_encoding w w = true.
Proof. now destruct w. Qed.

Lemma scorers_of_equal_windows (w : Window) :
  supported w = true -> well_formed w = true -> finite_samples w = true ->
  ssd w w = Some F32.zero /\ sad w w = Some F32.zero.
Proof.
  intros Hs Hw Hf.
  assert (Hab : forall v u, 0 <= v < win_rows w -> 0 <= u < win_cols w ->
                 F32.sub (intensity w v u) (intensity w v u) = F32.zero).
  { intros v u Hv Hu. apply SFsub_diag. now apply intensity_finite. }
  unfold ssd, sad.
  rewrite (sample_diff_intensity w w (same_encoding_refl w Hs)), same_shape_refl.
  split; f_equal; apply accumulate_invariant; try reflexivity;
    intros v u sc Hv Hu ->; now rewrite Hab.
Qed.

Lemma scorers_nonneg (wl wr : Window) :
  well_formed wl = true -> finite_samples wl = true ->
  well_formed wr = true -> finite_samples wr = true ->
  same_encoding wl wr = true -> same_shape wl wr = true ->
  exists s1 s2, ssd wl wr = Some s1 /\ sad wl wr = Some s2 /\
                nonneg s1 = true /\ nonneg s2 = true.
Proof.
  intros Wl Fl Wr Fr He Hs.
  unfold ssd, sad. rewrite (sample_diff_intensity wl wr He), Hs.
  eexists; eexists. split; [reflexivity|]. split; [reflexivity|].
  assert (Hnan : forall v u, 0 <= v < win_rows wl -> 0 <= u < win_cols wl ->
                  is_nan (F32.sub (intensity wl v u) (intensity wr v u)) = false).
  { intros v u Hv Hu. unfold same_shape in Hs. apply andb_prop in Hs.
    apply SFsub_not_nan; apply intensity_finite; auto; lia. }
  split; apply accumulate_invariant; try reflexivity;
    intros v u sc Hv Hu Hsc; apply SFadd_nonneg; try exact Hsc.
  - apply SFmul_self_nonneg. now apply Hnan.
  - apply SFabs_nonneg. now apply Hnan.
Qed.

(** C9 (as amended): on a well-formed window without NaN or infinite
    samples, [ssd] and [sad] of the window with itself are [0]; on two
    such windows of one shape and one encoding, both scores are
    non-negative. *)
Theorem scorers_zero_on_equal_and_nonneg (w1 w2 : Window) :
  supported w1 = true -> well_formed w1 = true -> finite_samples w1 = true ->
  (ssd w1 w1 = Some F32.zero /\ sad w1 w1 = Some F32.zero) /\
  (same_encoding w1 w2 = true -> same_shape w1 w2 = true ->
   well_formed w2 = true -> finite_samples w2 = true ->
   exists s1 s2, ssd w1 w2 = Some s1 /\ sad w1 w2 = Some s2 /\
                 nonneg s1 = true /\ nonneg s2 = true).
Proof.
  intros Hs Hw Hf. split.
  - now apply scorers_of_equal_windows.
  - intros He Hsh Hw2 Hf2. now apply scorers_nonneg.
Qed.

Lemma scorers_zero_on_equal_and_nonneg_witness :
  let w1 := Win8UC1 (constant 5 5 100) in
  let w2 := Win8UC1 (constant 5 5 90) in
  (ssd w1 w1 = Some F32.zero /\ sad w1 w1 = Some F32.zero) /\
  exists s1 s2, ssd w1 w2 = Some s1 /\ sad w1 w2 = Some s2 /\
                nonneg s1 = true /\ nonneg s2 = true.
Proof.
  intros w1 w2.
  destruct (scorers_zero_on_equal_and_nonneg w1 w2 eq_refl eq_refl eq_refl)
    as [H1 H2].
  split; [exact H1|]. apply H2; reflexivity.
Defined.

(** C9, as stated, fails on a float window holding a NaN: both scores
    are NaN, which is neither [0] nor non-negative. *)
Lemma scorers_nan_window :
  let w := Win32FC1 (constant 1 1 S754_nan) in
  ssd w w = Some S754_nan /\ sad w w = Some S754_nan /\
  F32.eqb S754_nan F32.zero = false /\ nonneg S754_nan = false.
Proof. repeat split. Qed.

(** ** [getDepth] *)

(** C10: a query that rounds to a pixel outside the image returns [0] and
    reads no sample, for 16-bit and for float depth images. *)
Theorem getDepth_outside_image (depthImage : DepthImage) (x y : float)
        (smoothing : bool) (maxZError : float) (u v : Z) :
  0 < depth_rows depthImage -> 0 < depth_cols depthImage ->
  to_int (F32.add x half) = Some u ->
  to_int (F32.add y half) = Some v ->
  ~ (0 <= u < depth_cols depthImage /\ 0 <= v < depth_rows depthImage) ->
  getDepth depthImage x y smoothing maxZError = Some (F32.zero, []).
Proof.
  intros Hr Hc Hu Hv Hout. unfold getDepth.
  replace (depth_rows depthImage <=? 0) with false by (symmetry; apply Z.leb_gt; lia).
  replace (depth_cols depthImage <=? 0) with false by (symmetry; apply Z.leb_gt; lia).
  cbn [orb]. rewrite Hu, Hv.
  destruct ((0 <=? u) && (u <? depth_cols depthImage) &&
            (0 <=? v) && (v <? depth_rows depthImage)) eqn:E; [|reflexivity].
  exfalso. apply Hout.
  rewrite !andb_true_iff, !Z.leb_le, !Z.ltb_lt in E. lia.
Qed.

Lemma getDepth_outside_image_witness :
  getDepth (Depth16UC1 (constant 2 2 1000)) (F32.of_Z 5) (F32.of_Z 0) true
           (F32.lit 2 100) = Some (F32.zero, []).
Proof.
  apply (getDepth_outside_image _ _ _ _ _ 5 0).
  - cbn. lia.
  - cbn. lia.
  - vm_compute. reflexivity.
  - vm_compute. reflexivity.
  - cbn. lia.
Defined.

(** ** [registerDepth] *)

Lemma for_pixels_scan_order {S : Type} (r c : Z) (body : Z -> Z -> S -> S) (s : S) :
  for_pixels r c body s =
  fold_left (fun acc p => body (fst p) (snd p) acc) (scan_order r c) s.
Proof.
  unfold for_pixels, for_range, scan_order.
  revert s. induction (range 0 r) as [|y l IH]; intros s; cbn [fold_left flat_map].
  - reflexivity.
  - rewrite fold_left_app, IH. f_equal.
    clear. revert s. induction (range 0 c) as [|x l IH]; intros s; cbn.
    + reflexivity.
    + apply IH.
Qed.

Lemma registerDepth_scan (depth : Mat Z) (depthK colorK : Mat double) (T : Affine3f) :
  mat_empty depth = false ->
  registerDepth depth depthK colorK T =
  registered_after depth depthK colorK T (scan_order (rows depth) (cols depth)).
Proof.
  intros H. unfold registerDepth, registered_after. rewrite H.
  apply for_pixels_scan_order.
Qed.

Lemma nearest_snoc (l : list Z) (z : Z) :
  nearest (l ++ [z]) = match l with [] => z | _ => Z.min (nearest l) z end.
Proof.
  destruct l as [|a l]; [reflexivity|].
  cbn [app nearest]. now rewrite fold_left_app.
Qed.

Lemma fold_min_in (l : list Z) : forall a, In (fold_left Z.min l a) (a :: l).
Proof.
  induction l as [|b l IH]; intros a; cbn [fold_left].
  - now left.
  - destruct (IH (Z.min a b)) as [H|H].
    + destruct (Z.min_spec a b) as [[_ E]|[_ E]]; rewrite E in *.
      * now left.
      * right. now left.
    + right. now right.
Qed.

Lemma nearest_in (l : list Z) : l <> [] -> In (nearest l) l.
Proof. destruct l as [|a l]; [congruence|]. intros _. apply fold_min_in. Qed.

Lemma store_nearest_at (reg : Mat Z) (dy dx z v u : Z) :
  at_ (store_nearest reg dy dx z) v u =
  if (v =? dy) && (u =? dx)
  then (if (at_ reg dy dx =? 0) || (z <? at_ reg dy dx) then z else at_ reg dy dx)
  else at_ reg v u.
Proof.
  unfold store_nearest.
  destruct ((at_ reg dy dx =? 0) || (z <? at_ reg dy dx)); cbn [set_at at_].
  - reflexivity.
  - destruct ((v =? dy) && (u =? dx)) eqn:E; [|reflexivity].
    apply andb_prop in E. destruct E as [E1 E2].
    apply Z.eqb_eq in E1, E2. now subst.
Qed.

Lemma store_nearest_dims (reg : Mat Z) (dy dx z : Z) :
  rows (store_nearest reg dy dx z) = rows reg /\
  cols (store_nearest reg dy dx z) = cols reg.
Proof.
  unfold store_nearest.
  now destruct ((at_ reg dy dx =? 0) || (z <? at_ reg dy dx)).
Qed.

Section NearestWins.
Variables (depth : Mat Z) (depthK colorK : Mat double) (T : Affine3f).

Local Notation "'after'" := (registered_after depth depthK colorK T).
Local Notation "'contrib'" := (contributions depth depthK colorK T).

Lemma registered_after_snoc (l : list (Z * Z)) (p : Z * Z) :
  after (l ++ [p]) = register_pixel depth depthK colorK T (fst p) (snd p) (after l).
Proof. unfold registered_after. now rewrite fold_left_app. Qed.

Lemma contributions_snoc (l : list (Z * Z)) (p : Z * Z) (v u : Z) :
  contrib (l ++ [p]) v u = contrib l v u ++ contrib [p] v u.
Proof. unfold contributions. now rewrite flat_map_app. Qed.

Lemma registered_after_dims (l : list (Z * Z)) (reg : Mat Z) :
  after l = Some reg -> rows reg = rows depth /\ cols reg = cols depth.
Proof.
  revert reg. induction l as [|p l IH] using rev_ind; intros reg H.
  - injection H as <-. now split.
  - rewrite registered_after_snoc in H. unfold register_pixel in H.
    destruct (after l) as [reg0|]; [|discriminate].
    specialize (IH reg0 eq_refl).
    destruct (project_pixel _ _ _ _ _ _ _ _); try discriminate;
      injection H as <-; [exact IH|].
    pose proof (store_nearest_dims reg0 dy dx z16). lia.
Qed.

(** While no projected depth is [0], every destination pixel holds the
    nearest of the depths projected onto it so far. *)
Lemma registered_after_nearest (l : list (Z * Z)) : forall reg v u,
  after l = Some reg ->
  Forall (fun z => z <> 0) (contrib l v u) ->
  at_ reg v u = nearest (contrib l v u).
Proof.
  induction l as [|p l IH] using rev_ind; intros reg v u H Hnz.
  - injection H as <-. reflexivity.
  - rewrite registered_after_snoc in H. rewrite contributions_snoc in *.
    apply Forall_app in Hnz. destruct Hnz as [Hnz Hp].
    unfold register_pixel in H.
    destruct (after l) as [reg0|] eqn:E0; [|discriminate].
    destruct (registered_after_dims l reg0 E0) as [Hr Hc].
    specialize (IH reg0 v u eq_refl Hnz).
    unfold contributions in Hp |- * at 2. cbn [flat_map] in *.
    rewrite Hr, Hc in H.
    destruct (project_pixel _ _ _ _ _ _ _ _) as [| |dy dx z16];
      try discriminate; injection H as <-; rewrite (app_nil_r _ : _ ++ [] = _) in *.
    + rewrite app_nil_r. exact IH.
    + rewrite store_nearest_at.
      destruct ((dy =? v) && (dx =? u)) eqn:E.
      * apply andb_prop in E. destruct E as [E1 E2].
        apply Z.eqb_eq in E1, E2. subst dy dx.
        rewrite !Z.eqb_refl. cbn [andb].
        rewrite nearest_snoc. rewrite IH.
        inversion Hp as [|? ? Hz _]; subst.
        fold (contributions depth depthK colorK T l v u).
        destruct (contrib l v u) as [|a zs] eqn:Ec.
        -- reflexivity.
        -- assert (Hin : In (nearest (a :: zs)) (a :: zs))
             by (apply nearest_in; discriminate).
           rewrite Forall_forall in Hnz. specialize (Hnz _ Hin).
           destruct (nearest (a :: zs) =? 0) eqn:E0'; [apply Z.eqb_eq in E0'; lia|].
           cbn [orb]. destruct (z16 <? nearest (a :: zs)) eqn:Elt.
           ++ apply Z.ltb_lt in Elt. lia.
           ++ apply Z.ltb_ge in Elt. lia.
      * rewrite app_nil_r.
        replace ((v =? dy) && (u =? dx)) with false; [exact IH|].
        rewrite (Z.eqb_sym v dy), (Z.eqb_sym u dx). now rewrite E.
Qed.

(** A nonzero stored depth is only ever replaced by a smaller one. *)
Lemma register_pixel_decreases (y x : Z) (reg reg' : Mat Z) (v u : Z) :
  register_pixel depth depthK colorK T y x (Some reg) = Some reg' ->
  at_ reg v u <> 0 -> at_ reg' v u <= at_ reg v u.
Proof.
  unfold register_pixel. intros H Hnz.
  destruct (project_pixel _ _ _ _ _ _ _ _) as [| |dy dx z16];
    try discriminate; injection H as <-; [lia|].
  rewrite store_nearest_at.
  destruct ((v =? dy) && (u =? dx)) eqn:E; [|lia].
  apply andb_prop in E. destruct E as [E1 E2].
  apply Z.eqb_eq in E1, E2. subst dy dx.
  destruct (at_ reg v u =? 0) eqn:E0; [apply Z.eqb_eq in E0; lia|].
  cbn [orb]. destruct (z16 <? at_ reg v u) eqn:Elt; [apply Z.ltb_lt in Elt|]; lia.
Qed.
End NearestWins.

(** C2 (as amended): after any number [n] of source pixels, a nonzero
    stored depth is only replaced by a smaller projected depth, and every
    destination pixel onto which no depth of 0 mm was projected holds the
    minimum of the depths projected onto it so far (0 when there is none);
    the state after the last source pixel is the result of the call. *)
Theorem registerDepth_nearest_wins (depth : Mat Z) (depthK colorK : Mat double)
        (T : Affine3f) (n : nat) (reg : Mat Z) :
  let order := scan_order (rows depth) (cols depth) in
  mat_empty depth = false ->
  registered_after depth depthK colorK T (firstn n order) = Some reg ->
  (forall v u,
      Forall (fun z => z <> 0) (contributions depth depthK colorK T (firstn n order) v u) ->
      at_ reg v u = nearest (contributions depth depthK colorK T (firstn n order) v u)) /\
  (forall reg' v u,
      registered_after depth depthK colorK T (firstn (S n) order) = Some reg' ->
      at_ reg v u <> 0 -> at_ reg' v u <= at_ reg v u) /\
  (length order <= n -> registerDepth depth depthK colorK T = Some reg)%nat.
Proof.
  intros order Hne H. split; [|split].
  - intros v u Hnz. now apply registered_after_nearest.
  - intros reg' v u H' Hnz.
    destruct (Nat.lt_ge_cases n (length order)) as [Hlt|Hge].
    + destruct (nth_error order n) as [p|] eqn:Ep.
      * assert (Hs : firstn (S n) order = firstn n order ++ [p]).
        { clear - Ep. revert n Ep. induction order as [|a l IH]; intros [|n] Ep;
            try discriminate; cbn in *.
          - now injection Ep as ->.
          - f_equal. now apply IH. }
        rewrite Hs, registered_after_snoc, H in H'.
        now apply (register_pixel_decreases depth depthK colorK T (fst p) (snd p) reg).
      * apply nth_error_None in Ep. lia.
    + rewrite firstn_all2 in H, H' by lia. rewrite H in H'. injection H' as <-. lia.
  - intros Hlen. rewrite registerDepth_scan by exact Hne.
    fold order. now rewrite firstn_all2 in H by lia.
Qed.

Lemma registerDepth_nearest_wins_witness :
  exists reg,
    registerDepth Fixtures.depth_far Fixtures.depthK Fixtures.colorK
                  (Fixtures.along_z (F32.lit (-1) 2048)) = Some reg /\
    at_ reg 0 0 = 2.
Proof.
  set (T := Fixtures.along_z (F32.lit (-1) 2048)).
  destruct (registered_after Fixtures.depth_far Fixtures.depthK Fixtures.colorK T
              (firstn 4 (scan_order 2 2))) as [reg|] eqn:E;
    [|vm_compute in E; discriminate].
  destruct (registerDepth_nearest_wins Fixtures.depth_far Fixtures.depthK
              Fixtures.colorK T 4 reg eq_refl E) as (H1 & _ & H3).
  exists reg. split.
  - apply H3. vm_compute. lia.
  - rewrite (H1 0 0).
    + vm_compute. reflexivity.
    + vm_compute. repeat constructor; discriminate.
Defined.

(** C2, as stated, fails when a projected depth is less than 1 mm: it is
    stored as 0, the next depth written replaces it, and the pixel ends
    above the smallest nonzero depth written to it. *)
Lemma registerDepth_zero_depth_resets :
  let T := Fixtures.along_z (F32.lit (-1) 2048) in
  contributions Fixtures.depth_near Fixtures.depthK Fixtures.colorK T
                (scan_order 2 2) 0 0 = [4; 0; 6; 8] /\
  option_map (fun reg => at_ reg 0 0)
             (registerDepth Fixtures.depth_near Fixtures.depthK Fixtures.colorK T)
  = Some 6.
Proof. vm_compute. split; reflexivity. Qed.

(** C7: a source image without any depth still writes into the registered
    image, since the test [dz >= 0.0f] lets empty pixels through. *)
Lemma registerDepth_empty_pixels_contribute :
  option_map to_rows
    (registerDepth Fixtures.depth_none Fixtures.colorK Fixtures.colorK
                   (Fixtures.along_z (F32.of_Z 1)))
  = Some [[1000; 0]; [0; 0]].
Proof. vm_compute. reflexivity. Qed.

(** ** [fillRegisteredDepthHoles] *)

Lemma hole_or_outlier_nonzero (b a c error : Z) :
  b <> 0 -> hole_or_outlier b a c error = (a + error <? b) && (c + error <? b).
Proof.
  intros H. unfold hole_or_outlier.
  replace (b =? 0) with false by (symmetry; apply Z.eqb_neq; exact H).
  reflexivity.
Qed.

Lemma gap_free_at (img : Mat Z) (y x : Z) :
  gap_free img = true ->
  0 <= y < rows img -> 0 <= x < cols img -> at_ img y x <> 0.
Proof.
  intros Hfull Hy Hx. pose proof (all_samples_at _ _ _ _ Hfull Hy Hx) as H.
  cbn in H. apply negb_true_iff, Z.eqb_neq in H. exact H.
Qed.

Lemma fill_margin_pos (fillDoubleHoles : bool) : 1 <= fill_margin fillDoubleHoles.
Proof. unfold fill_margin. destruct fillDoubleHoles; lia. Qed.

Lemma fill_single_keeps (img : Mat Z) (skip : bool) (x y ya xa yc xc : Z) :
  at_ img y x <> 0 ->
  outlier (at_ img y x) (at_ img ya xa) (at_ img yc xc) = false ->
  fill_single skip x ya xa yc xc (mkFill img false y) = mkFill img false y.
Proof.
  intros Hb Ho. unfold fill_single. cbn [image index].
  destruct (negb (at_ img ya xa =? 0) && negb (at_ img yc xc =? 0)); [|reflexivity].
  rewrite hole_or_outlier_nonzero by exact Hb.
  unfold outlier in Ho. now rewrite Ho.
Qed.

Lemma fill_double_keeps (img : Mat Z) (skip mark : bool) (x y ya xa yc xc yd xd : Z) :
  at_ img y x <> 0 -> at_ img yc xc <> 0 ->
  fill_double skip mark x ya xa yc xc yd xd (mkFill img false y) = mkFill img false y.
Proof.
  intros Hb Hc. unfold fill_double. cbn [image index].
  replace (at_ img y x =? 0) with false by (symmetry; now apply Z.eqb_neq).
  replace (at_ img yc xc =? 0) with false by (symmetry; now apply Z.eqb_neq).
  now rewrite andb_false_r.
Qed.

Lemma fill_pass_keeps (img : Mat Z) (skip mark fillDoubleHoles : bool)
      (x y ya xa yc xc yd xd : Z) :
  at_ img y x <> 0 -> at_ img yc xc <> 0 ->
  outlier (at_ img y x) (at_ img ya xa) (at_ img yc xc) = false ->
  fill_pass skip mark fillDoubleHoles x ya xa yc xc yd xd (mkFill img false y)
  = mkFill img false y.
Proof.
  intros Hb Hc Ho. unfold fill_pass.
  rewrite fill_single_keeps by assumption. cbn [set negb andb].
  destruct fillDoubleHoles; [|reflexivity].
  now apply fill_double_keeps.
Qed.

Lemma fill_pixel_keeps (vertical horizontal fillDoubleHoles : bool) (img : Mat Z)
      (x y : Z) :
  at_ img y x <> 0 -> at_ img (y + 1) x <> 0 -> at_ img y (x + 1) <> 0 ->
  vertical && outlier (at_ img y x) (at_ img (y - 1) x) (at_ img (y + 1) x) = false ->
  horizontal && outlier (at_ img y x) (at_ img y (x - 1)) (at_ img y (x + 1)) = false ->
  fill_pixel vertical horizontal fillDoubleHoles x (mkFill img false y)
  = mkFill img false y.
Proof.
  intros Hb Hcv Hch Hv Hh. unfold fill_pixel. cbn [image index].
  destruct vertical; cbn [andb] in Hv.
  - rewrite fill_pass_keeps by assumption. cbn [set negb andb].
    destruct horizontal; [|reflexivity]. cbn [andb] in Hh.
    now apply fill_pass_keeps.
  - cbn [set negb andb]. destruct horizontal; [|reflexivity]. cbn [andb] in Hh.
    now apply fill_pass_keeps.
Qed.

Section Identity.
Variables vertical horizontal fillDoubleHoles : bool.
Variable img : Mat Z.
Hypothesis Hfull : gap_free img = true.
Hypothesis Hflat : no_outlier vertical horizontal fillDoubleHoles img = true.

Local Notation "'margin'" := (fill_margin fillDoubleHoles).

Lemma fill_pixel_identity (x y : Z) :
  1 <= x < cols img - margin -> 1 <= y < rows img - margin ->
  fill_pixel vertical horizontal fillDoubleHoles x (mkFill img false y)
  = mkFill img false y.
Proof.
  intros Hx Hy. pose proof (fill_margin_pos fillDoubleHoles) as Hm.
  pose proof Hflat as H.
  unfold no_outlier in H. rewrite forallb_forall in H.
  specialize (H x (proj2 (in_range _ _ _) Hx)).
  rewrite forallb_forall in H.
  specialize (H y (proj2 (in_range _ _ _) Hy)).
  apply andb_prop in H. destruct H as [Hv Hh].
  apply negb_true_iff in Hv, Hh.
  apply fill_pixel_keeps; try assumption; apply gap_free_at; auto; lia.
Qed.

Lemma fill_column_keeps (x : Z) (fuel : nat) : forall y,
  1 <= x < cols img - margin -> 1 <= y ->
  fill_column fuel vertical horizontal fillDoubleHoles margin x y img = img.
Proof.
  induction fuel as [|fuel IH]; intros y Hx Hy; cbn [fill_column]; [reflexivity|].
  destruct (y <? rows img - margin) eqn:E; [|reflexivity].
  apply Z.ltb_lt in E. rewrite fill_pixel_identity by lia.
  cbn [image index]. apply IH; lia.
Qed.

Lemma fill_columns_keep (xs : list Z) :
  (forall x, In x xs -> 1 <= x < cols img - margin) ->
  fill_columns vertical horizontal fillDoubleHoles xs img = img.
Proof.
  unfold fill_columns. induction xs as [|x xs IH]; intros H; cbn [fold_left].
  - reflexivity.
  - unfold fill_column_at at 2. rewrite fill_column_keeps.
    + apply IH. intros x' Hx'. apply H. now right.
    + apply H. now left.
    + lia.
Qed.
End Identity.

(** C6 (as amended): on a map without holes in which no visited pixel is an
    outlier between its neighbours, the filter changes nothing, whatever
    the flags. *)
Theorem fillRegisteredDepthHoles_identity (registeredDepth : Mat Z)
        (vertical horizontal fillDoubleHoles : bool) :
  gap_free registeredDepth = true ->
  no_outlier vertical horizontal fillDoubleHoles registeredDepth = true ->
  fillRegisteredDepthHoles registeredDepth vertical horizontal fillDoubleHoles
  = registeredDepth.
Proof.
  intros Hfull Hflat. unfold fillRegisteredDepthHoles.
  apply fill_columns_keep; try assumption.
  intros x Hx. now apply in_range in Hx.
Qed.

Lemma fillRegisteredDepthHoles_identity_witness :
  fillRegisteredDepthHoles Fixtures.flat true true false = Fixtures.flat.
Proof.
  apply fillRegisteredDepthHoles_identity; vm_compute; reflexivity.
Defined.

(** C6, as stated, fails on a map without holes that has an outlier: the
    pixel above both neighbours is replaced by their mean. *)
Lemma fillRegisteredDepthHoles_changes_outlier :
  gap_free Fixtures.spike = true /\
  at_ Fixtures.spike 1 1 = 2000 /\
  at_ (fillRegisteredDepthHoles Fixtures.spike true false false) 1 1 = 1000.
Proof. vm_compute. repeat split. Qed.

(** *** The vertical pass works column by column *)















Section ColumnsCommute.
Variables vertical fillDoubleHoles : bool.

Local Notation "'column'" := (fill_column_at vertical false fillDoubleHoles).






End ColumnsCommute.




(** ** [calcStereoCorrespondences] *)

Lemma fold_left_add_init (l : list (Z * Z)) : forall a,
  fold_left (fun n p => n + snd p) l a = a + fold_left (fun n p => n + snd p) l 0.
Proof.
  induction l as [|p l IH]; intros a; cbn [fold_left].
  - lia.
  - rewrite IH, (IH (0 + snd p)). lia.
Qed.

Section StereoProperties.
Variables leftPyramid rightPyramid : Z -> Mat Z.
Variable maxLevel : Z.
Variable getRectSubPix : Mat Z -> Z * Z -> float * float -> Mat float.
Variable winSize : Z * Z.
Variables minDisparity maxDisparity : Z.
Variable ssdApproach : bool.

Local Notation "'level_step'" :=
  (search_level leftPyramid rightPyramid winSize minDisparity maxDisparity ssdApproach).

(** Scoring the candidates leaves the active range alone and counts one
    iteration for each of them. *)
Lemma score_candidates_spec (level : Z) (windowLeft : Mat Z) (center : Z * Z)
      (ds : list Z) : forall st st',
  score_candidates rightPyramid winSize ssdApproach level windowLeft center ds st
    = Some st' ->
  tmpMinDisparity st' = tmpMinDisparity st /\
  tmpMaxDisparity st' = tmpMaxDisparity st /\
  evaluated st' = evaluated st /\
  iterations st' = iterations st + Z.of_nat (length ds).
Proof.
  unfold score_candidates.
  induction ds as [|d ds IH]; intros st st' H; cbn [fold_left length] in H |- *.
  - injection H as <-. repeat split. lia.
  - destruct (roi _ _ _ _ _) as [windowRight|].
    + destruct (block_score _ _ _) as [score|].
      * destruct (IH _ _ H) as (A & B & C & D). cbn in A, B, C, D.
        repeat split; try assumption. lia.
      * exfalso. clear - H. induction ds; cbn in H; [discriminate | auto].
    + exfalso. clear - H. induction ds; cbn in H; [discriminate | auto].
Qed.

(** What one level does to the state. *)
Lemma search_level_cases (corner : float * float) (level : Z) (st st' : Search) :
  level_step corner level (Some st) = Some st' ->
  (bestScoreIndex st' = -1 /\ iterations st' = iterations st /\
   evaluated st' = evaluated st /\
   tmpMinDisparity st' = tmpMinDisparity st /\
   tmpMaxDisparity st' = tmpMaxDisparity st) \/
  (exists n, 0 <= n /\
     iterations st' = iterations st + n /\
     evaluated st' = (level, n) :: evaluated st /\
     (tmpMinDisparity st', tmpMaxDisparity st') =
     if (0 <=? bestScoreIndex st') && (0 <? level)
     then narrow_range level minDisparity maxDisparity
                       (tmpMinDisparity st) (bestScoreIndex st')
     else (tmpMinDisparity st, tmpMaxDisparity st)).
Proof.
  unfold search_level.
  destruct (to_int _) as [cx|]; [|discriminate].
  destruct (to_int _) as [cy|]; [|discriminate].
  destruct (_ && _ && _ && _).
  - destruct (roi _ _ _ _ _) as [windowLeft|]; [|discriminate].
    match goal with
    | |- context [score_candidates _ _ _ _ _ _ ?l ?s] => set (ds := l); set (st0 := s)
    end.
    destruct (score_candidates _ _ _ _ _ _ ds st0) as [st1|] eqn:E; [|discriminate].
    destruct (score_candidates_spec _ _ _ _ _ _ E) as (A & B & C & D).
    subst st0. cbn [tmpMinDisparity tmpMaxDisparity evaluated iterations] in A, B, C, D.
    cbn [bestScoreIndex tmpMinDisparity tmpMaxDisparity evaluated iterations oi
         bestScore secondBest].
    intros H. right. exists (Z.of_nat (length ds)). split; [lia|].
    destruct ((0 <=? bestScoreIndex st1) && (0 <? level)) eqn:Eb.
    + destruct (narrow_range _ _ _ _ _) as [tmin tmax] eqn:En.
      injection H as <-. cbn. rewrite Eb, <- A, En, C. auto.
    + injection H as <-. cbn. rewrite Eb, A, B, C. auto.
  - intros H. injection H as <-. left. cbn. auto.
Qed.

(** The invariant of the loop over the levels: the counter [iterations]
    is the number of candidates scored at all the levels so far. *)
Lemma search_levels_counts (corner : float * float) (ls : list Z) (st : Search) :
  search_levels leftPyramid rightPyramid winSize minDisparity maxDisparity
                ssdApproach corner ls = Some st ->
  0 <= iterations st /\ iterations st = evaluated_total st.
Proof.
  unfold search_levels. revert st.
  induction ls as [|l ls IH] using rev_ind; intros st H.
  - injection H as <-. cbn. lia.
  - rewrite fold_left_app in H. cbn [fold_left] in H.
    destruct (fold_left _ ls _) as [st0|] eqn:E0; [|discriminate].
    destruct (IH st0 eq_refl) as [P0 T0].
    destruct (search_level_cases corner l st0 st H)
      as [(_ & I & Ev & _) | (n & Hn & I & Ev & _)];
      unfold evaluated_total in *; rewrite Ev, I.
    + lia.
    + cbn [fold_left snd]. rewrite fold_left_add_init. lia.
Qed.

Lemma refine_loop_ran (n : nat) (windowLeft : Mat float) (y x0 : float) :
  forall r r',
    refine_loop rightPyramid getRectSubPix winSize ssdApproach n windowLeft y x0 r
      = Some r' ->
    ran r <= ran r' <= ran r + Z.of_nat n.
Proof.
  induction n as [|n IH]; intros r r' H; cbn [refine_loop] in H.
  - injection H as <-. lia.
  - destruct (refine_step _ _ _ _ _ _ _ r) as [r1|] eqn:E; [|discriminate].
    assert (R1 : ran r1 = ran r + 1).
    { unfold refine_step in E.
      destruct (if F32.eqb _ _ then _ else _); [|discriminate].
      destruct (if F32.eqb _ _ then _ else _); [|discriminate].
      injection E as <-. reflexivity. }
    destruct (reject r1).
    + injection H as <-. lia.
    + specialize (IH _ _ H). lia.
Qed.
End StereoProperties.

(** C3 (as amended): when a level above 0 finds a best candidate, the new
    maximum is [c + c % level] for [c = old min + (bestIndex+1)*2^level],
    clamped from above to [maxDisparity], and the new minimum is
    [c' - c' % level] for [c' = old min + (bestIndex-1)*2^level], clamped
    from below to [minDisparity]. *)
Theorem search_level_narrows_with_remainder
        (leftPyramid rightPyramid : Z -> Mat Z) (winSize : Z * Z)
        (minDisparity maxDisparity : Z) (ssdApproach : bool)
        (corner : float * float) (level : Z) (st st' : Search) :
  0 < level ->
  search_level leftPyramid rightPyramid winSize minDisparity maxDisparity
               ssdApproach corner level (Some st) = Some st' ->
  0 <= bestScoreIndex st' ->
  let c_max := tmpMinDisparity st + (bestScoreIndex st' + 1) * 2 ^ level in
  let c_min := tmpMinDisparity st + (bestScoreIndex st' - 1) * 2 ^ level in
  tmpMaxDisparity st' = Z.min (c_max + Z.rem c_max level) maxDisparity /\
  tmpMinDisparity st' = Z.max (c_min - Z.rem c_min level) minDisparity.
Proof.
  intros Hl H Hb c_max c_min.
  destruct (search_level_cases _ _ _ _ _ _ _ _ _ _ H)
    as [(B & _) | (n & _ & _ & _ & R)]; [lia|].
  replace (0 <=? bestScoreIndex st') with true in R by (symmetry; apply Z.leb_le; lia).
  replace (0 <? level) with true in R by (symmetry; apply Z.ltb_lt; lia).
  cbn [andb] in R. unfold narrow_range in R. fold c_max c_min in R.
  injection R as -> ->. split.
  - destruct (maxDisparity <? c_max + Z.rem c_max level) eqn:E;
      [apply Z.ltb_lt in E | apply Z.ltb_ge in E]; lia.
  - destruct (c_min - Z.rem c_min level <? minDisparity) eqn:E;
      [apply Z.ltb_lt in E | apply Z.ltb_ge in E]; lia.
Qed.

Lemma search_level_narrows_with_remainder_witness :
  exists st',
    search_level Fixtures.leftPyramid Fixtures.rightPyramid (3, 3) 0 64 true
                 Fixtures.corner 3 (Some (initial_search 0 64)) = Some st' /\
    tmpMaxDisparity st' = 10 /\ tmpMinDisparity st' = 0.
Proof.
  destruct (search_level Fixtures.leftPyramid Fixtures.rightPyramid (3, 3) 0 64 true
              Fixtures.corner 3 (Some (initial_search 0 64))) as [st'|] eqn:E;
    [|vm_compute in E; discriminate].
  exists st'. split; [reflexivity|].
  assert (Hb : bestScoreIndex st' = 0)
    by (vm_compute in E; injection E as <-; reflexivity).
  destruct (search_level_narrows_with_remainder _ _ _ _ _ _ _ 3 _ _ eq_refl E)
    as [Hmax Hmin].
  - rewrite Hb. lia.
  - rewrite Hmax, Hmin, Hb. vm_compute. split; reflexivity.
Defined.

(** C3, as stated, fails at level 3: from the range [0, 64] and the best
    index 0 the new maximum is [8 + 8 % 3 = 10], not [8]. *)
Lemma search_level_remainder_counterexample :
  option_map (fun st => (bestScoreIndex st, tmpMinDisparity st, tmpMaxDisparity st))
    (search_level Fixtures.leftPyramid Fixtures.rightPyramid (3, 3) 0 64 true
                  Fixtures.corner 3 (Some (initial_search 0 64)))
  = Some (0, 0, 10) /\
  Z.min (Z.max (0 + (0 + 1) * 2 ^ 3) 0) 64 = 8.
Proof. vm_compute. split; reflexivity. Qed.

(** C4 (as amended): the sub-pixel loop runs at most as many iterations as
    candidates were scored at all the pyramid levels together. *)
Theorem refinement_bounded_by_all_levels
        (leftPyramid rightPyramid : Z -> Mat Z) (maxLevel : Z)
        (getRectSubPix : Mat Z -> Z * Z -> float * float -> Mat float)
        (winSize : Z * Z) (minDisparity maxDisparity : Z) (ssdApproach : bool)
        (corner : float * float) (r : Correspondence) :
  match_corner leftPyramid rightPyramid maxLevel getRectSubPix winSize
               minDisparity maxDisparity ssdApproach corner = Some r ->
  0 <= executed r <= evaluated_total (search r).
Proof.
  unfold match_corner. intros H.
  destruct (search_levels _ _ _ _ _ _ _ _) as [st|] eqn:E; [|discriminate].
  destruct (search_levels_counts _ _ _ _ _ _ _ _ _ E) as [P T].
  destruct (0 <=? bestScoreIndex st).
  - destruct (to_int _); [|discriminate].
    destruct (if F32.neqb _ _ then _ else _); [|discriminate].
    destruct (refine_loop _ _ _ _ _ _ _ _ _) as [rf|] eqn:R; [|discriminate].
    injection H as <-. cbn [executed search].
    apply refine_loop_ran in R. cbn [ran] in R. lia.
  - injection H as <-. cbn [executed search]. lia.
Qed.

Lemma refinement_bounded_by_all_levels_witness :
  exists r,
    match_corner Fixtures.leftPyramid Fixtures.rightPyramid 1 Fixtures.getRectSubPix
                 (3, 3) 0 4 true Fixtures.corner = Some r /\
    0 <= executed r <= evaluated_total (search r).
Proof.
  destruct (match_corner Fixtures.leftPyramid Fixtures.rightPyramid 1
              Fixtures.getRectSubPix (3, 3) 0 4 true Fixtures.corner) as [r|] eqn:E;
    [|vm_compute in E; discriminate].
  exists r. split; [reflexivity|].
  exact (refinement_bounded_by_all_levels _ _ _ _ _ _ _ _ _ _ E).
Defined.

(** C4, as stated, fails with two pyramid levels: two candidates are
    scored at level 0 (and two at level 1), and the sub-pixel loop runs
    four iterations. *)
Lemma refinement_exceeds_level0_candidates :
  option_map (fun r => (status r, executed r, evaluated_at 0 (search r),
                        evaluated_total (search r)))
    (match_corner Fixtures.leftPyramid Fixtures.rightPyramid 1 Fixtures.getRectSubPix
                  (3, 3) 0 4 true Fixtures.corner)
  = Some (1, 4, 2, 4).
Proof. vm_compute. reflexivity. Qed.

(** ** [calcOpticalFlowPyrLKStereo] *)

Lemma F32_add_zero_idem (x : float) :
  F32.add (F32.add x F32.zero) F32.zero = F32.add x F32.zero.
Proof. destruct x as [[|]|[|]| |s m e]; reflexivity. Qed.

Lemma F32_sub_zero (x : float) : F32.sub x F32.zero = x.
Proof. destruct x as [[|]|[|]| |s m e]; reflexivity. Qed.

Section TrackerProperties.
Variables (I : Mat Z) (derivI : Mat (Z * Z)) (J : Mat Z).
Variable winSize : Z * Z.
Variable level : Z.
Variable eps : double.

Local Notation "'vertical_kept'" := (vertical_kept winSize).

Lemma iterate_vertical_kept (y0 : float) (wI : Z * Z * Z * Z) (ix iy : Z)
      (A11 A12 A22 D : float) (j : Z) (t t' : Track) (go : bool) :
  vertical_kept y0 t ->
  iterate I derivI J winSize level eps wI ix iy A11 A12 A22 D j t = Some (t', go) ->
  vertical_kept y0 t'.
Proof.
  intros [Hu Hy] H. unfold iterate in H.
  destruct (cvFloor (fst (nextPt t))) as [jx|]; [|discriminate].
  destruct (cvFloor (snd (nextPt t))) as [jy|]; [|discriminate].
  destruct (outside _ _ _ _ _).
  { injection H as <- <-. split; assumption. }
  destruct (bilinear_weights _ _) as [wJ|]; [|discriminate].
  destruct (mismatch _ _ _ _ _ _ _ _ _ _) as [ib1 ib2].
  set (delta := (F32.mul _ D, F32.zero)) in H.
  assert (Hn : snd (padd (nextPt t) delta) = F32.add (F32.sub y0 (snd (halfWin winSize))) F32.zero).
  { cbn [padd snd delta]. destruct Hy as [(_ & -> & _)|(_ & -> & _)];
      [reflexivity | apply F32_add_zero_idem]. }
  assert (Hu' : forall d, In d (delta :: updates t) -> snd d = F32.zero).
  { intros d [<-|Hd]; [reflexivity | now apply Hu]. }
  assert (Hne : delta :: updates t <> []) by discriminate.
  assert (Hs : snd (padd (padd (nextPt t) delta) (halfWin winSize)) =
               F32.add (F32.add (F32.sub y0 (snd (halfWin winSize))) F32.zero)
                       (snd (halfWin winSize))).
  { cbn [padd snd] in Hn |- *. now rewrite Hn. }
  destruct (F64.leb _ _).
  { injection H as <- <-. split; [exact Hu' | right; repeat split; assumption]. }
  destruct (_ && _ && _).
  - injection H as <- <-. split; [exact Hu'|]. right. split; [exact Hne|].
    split; [exact Hn|].
    cbn [nextPts_i psub pscale snd delta] in *.
    change (F32.mul F32.zero half) with F32.zero.
    rewrite F32_sub_zero. exact Hs.
  - injection H as <- <-. split; [exact Hu' | right; repeat split; assumption].
Qed.

Lemma iterations_from_vertical_kept (y0 : float) (wI : Z * Z * Z * Z) (ix iy : Z)
      (A11 A12 A22 D : float) (n : nat) : forall j t t',
  vertical_kept y0 t ->
  iterations_from I derivI J winSize level eps n wI ix iy A11 A12 A22 D j t = Some t' ->
  vertical_kept y0 t'.
Proof.
  induction n as [|n IH]; intros j t t' Ht H; cbn [iterations_from] in H.
  - now injection H as <-.
  - destruct (iterate _ _ _ _ _ _ _ _ _ _ _ _ _ _ _) as [[t1 [|]]|] eqn:E;
      try discriminate.
    + eapply IH; [|exact H]. eapply iterate_vertical_kept; eassumption.
    + injection H as <-. eapply iterate_vertical_kept; eassumption.
Qed.
End TrackerProperties.

(** The tests of the loop compare in [double]. On the textured pair, for
    the point [(5, 0.1f)] and a 3x3 window: the smallest eigenvalue, about
    0.0148, is below a threshold of 0.25 and the point is rejected without
    an update; with an epsilon of 0.5 the second step, of squared length
    about 0.0041, ends the iterations; with a budget of 0 no update is
    applied and the estimate is stored as it came. *)
Lemma track_point_on_textured_pair :
  let run c thr :=
    option_map (fun t => (nextPts_i t, status_i t, length (updates t)))
      (track_point Fixtures.prevImg Fixtures.prevDeriv Fixtures.nextImg (3, 3) 0
                   (criteria_count c) (criteria_epsilon c) thr false true
                   Fixtures.point Fixtures.point true) in
  run Fixtures.criteria (F64.lit 1 4) = Some (Fixtures.point, false, 0%nat) /\
  run (mkTermCriteria true true 30 (F64.lit 1 2)) (F64.lit 1 10000)
  = Some ((S754_finite false 8399624 (-21), S754_finite false 13421776 (-27)),
          true, 2%nat) /\
  run (mkTermCriteria true true 0 (F64.lit 1 100)) (F64.lit 1 10000)
  = Some (Fixtures.point, true, 0%nat).
Proof. vm_compute. repeat split; reflexivity. Qed.

(** C5 (as amended): every update applied to a point has vertical component
    exactly zero. When no update was applied at the level (the point was
    rejected before the iterations, its first window was outside the
    second image, or the iteration budget is zero) the vertical coordinate
    stored is that of the estimate carried into the level; when one or more
    were applied it is that coordinate minus and plus half the window
    height, each operation rounded to [float]. *)
Theorem tracker_updates_are_horizontal
        (I : Mat Z) (derivI : Mat (Z * Z)) (J : Mat Z) (winSize : Z * Z)
        (level count : Z) (eps minEigThreshold : double)
        (err_needed get_min_eigenvals : bool)
        (prevPt estimate : Point2f) (status0 : bool) (t : Track) :
  track_point I derivI J winSize level count eps minEigThreshold
              err_needed get_min_eigenvals prevPt estimate status0 = Some t ->
  let h := snd (halfWin winSize) in
  (forall d, In d (updates t) -> snd d = F32.zero) /\
  (updates t = [] -> snd (nextPts_i t) = snd estimate) /\
  (updates t <> [] ->
   snd (nextPts_i t) = F32.add (F32.add (F32.sub (snd estimate) h) F32.zero) h).
Proof.
  intros H h. unfold track_point in H.
  destruct (cvFloor _) as [ix|]; [|discriminate].
  destruct (cvFloor _) as [iy|]; [|discriminate].
  destruct (outside _ _ _ _ _).
  { injection H as <-. cbn [updates nextPts_i].
    split; [intros d []|]. split; [reflexivity | intros N; now destruct N]. }
  destruct (bilinear_weights _ _) as [wI|]; [|discriminate].
  destruct (covariance _ _ _ _ _) as [[iA11 iA12] iA22].
  destruct (_ || _).
  { injection H as <-. cbn [updates nextPts_i].
    split; [intros d []|]. split; [reflexivity | intros N; now destruct N]. }
  destruct (iterations_from _ _ _ _ _ _ _ _ _ _ _ _ _ _ _ _) as [t1|] eqn:E;
    [|discriminate].
  assert (K : vertical_kept winSize (snd estimate) t1).
  { eapply iterations_from_vertical_kept; [|exact E].
    split; [intros d []|]. left. repeat split; reflexivity. }
  destruct K as [Ku Ky].
  assert (Hk : updates t = updates t1 /\ nextPts_i t = nextPts_i t1).
  { unfold check_final in H. destruct (_ && _ && _ && _).
    - destruct (cvFloor _); [|discriminate]. destruct (cvFloor _); [|discriminate].
      injection H as <-. split; reflexivity.
    - injection H as <-. split; reflexivity. }
  destruct Hk as [-> ->]. split; [exact Ku|].
  destruct Ky as [(Hnil & _ & ->)|(Hne & _ & ->)]; split; intros N;
    solve [reflexivity | contradiction].
Qed.

Lemma tracker_updates_are_horizontal_witness :
  exists t,
    track_point Fixtures.prevImg Fixtures.prevDeriv Fixtures.nextImg (3, 3) 0
                (criteria_count Fixtures.criteria) (criteria_epsilon Fixtures.criteria)
                (F64.lit 1 10000) false true Fixtures.point Fixtures.point true
    = Some t /\
    (forall d, In d (updates t) -> snd d = F32.zero) /\
    (updates t = [] -> snd (nextPts_i t) = snd Fixtures.point) /\
    (updates t <> [] ->
     snd (nextPts_i t) =
       F32.add (F32.add (F32.sub (snd Fixtures.point) (snd (halfWin (3, 3)))) F32.zero)
               (snd (halfWin (3, 3)))).
Proof.
  destruct (track_point Fixtures.prevImg Fixtures.prevDeriv Fixtures.nextImg (3, 3) 0
              (criteria_count Fixtures.criteria) (criteria_epsilon Fixtures.criteria)
              (F64.lit 1 10000) false true Fixtures.point Fixtures.point true)
    as [t|] eqn:E; [|vm_compute in E; discriminate].
  exists t. split; [reflexivity|].
  exact (tracker_updates_are_horizontal _ _ _ _ _ _ _ _ _ _ _ _ _ _ E).
Defined.

(** C5, as stated, fails for the point [(5, 0.1f)] and a 3x3 window: three
    updates are applied, all horizontal, the point stays tracked, and the
    stored vertical coordinate is [(0.1f - 1) + 1], three units in the last
    place above [0.1f]. *)
Lemma tracker_vertical_coordinate_rounds :
  snd Fixtures.point = S754_finite false 13421773 (-27) /\
  option_map (fun t => (snd (nextPts_i t), status_i t, map snd (updates t)))
    (track_point Fixtures.prevImg Fixtures.prevDeriv Fixtures.nextImg (3, 3) 0
                 (criteria_count Fixtures.criteria) (criteria_epsilon Fixtures.criteria)
                 (F64.lit 1 10000) false true Fixtures.point Fixtures.point true)
  = Some (S754_finite false 13421776 (-27), true,
          [F32.zero; F32.zero; F32.zero]).
Proof. vm_compute. split; reflexivity. Qed.
(** ** [cvtDepthFromFloat] and [cvtDepthToFloat] *)

Lemma round_trip_table_holds :
  forallb round_trip_exponent (range (-34) (-16)) = true.
Proof. vm_cast_no_check (eq_refl true). Qed.

Lemma pow2_pos (n : Z) : 0 <= n -> 0 < 2 ^ n.
Proof. intros H. apply Z.pow_pos_nonneg; lia. Qed.

Lemma pow2_le (a b : Z) : 0 <= a <= b -> 2 ^ a <= 2 ^ b.
Proof. intros H. apply Z.pow_le_mono_r; lia. Qed.

(** The floats [m * 2^e] that the table covers convert back within 1 mm. *)
Lemma shiftr_div_125 (x s : Z) :
  0 <= s -> Z.shiftr x (s + 4) / 125 = x / (2000 * 2 ^ s).
Proof.
  intros Hs. rewrite Z.shiftr_div_pow2 by lia.
  assert (0 < 2 ^ (s + 4)) by (apply pow2_pos; lia).
  rewrite Z.div_div by lia. f_equal.
  rewrite Z.pow_add_r by lia. change (2 ^ 4) with 16. lia.
Qed.

Lemma round_trip_pair_sound (e d m : Z) :
  -34 <= e <= -17 -> 1 <= d <= 65535 -> 2 ^ 23 <= m < 2 ^ 24 ->
  2 ^ (- e) * (2 * d * 2 ^ (24 - Zdigits2 d) - 1) <= 2000 * 2 ^ (24 - Zdigits2 d) * m ->
  2000 * 2 ^ (24 - Zdigits2 d) * m <= 2 ^ (- e) * (2 * (d + 1) * 2 ^ (24 - Zdigits2 d) - 1) ->
  exists mb eb,
    mm_to_depth d = S754_finite false mb eb /\ eb < 0 /\
    1000 * Z.abs (m * 2 ^ (- eb) - Zpos mb * 2 ^ (- e)) < 2 ^ (- e) * 2 ^ (- eb).
Proof.
  intros He Hd Hm Hlo Hhi.
  pose proof round_trip_table_holds as T.
  rewrite forallb_forall in T.
  assert (Hine : In e (range (-34) (-16))) by (apply in_range; lia).
  specialize (T e Hine).
  unfold round_trip_exponent in T. rewrite Z.shiftl_1_l in T.
  set (a := 2 ^ (- e)) in *.
  assert (Ha : 0 < a) by (apply pow2_pos; lia).
  assert (Hdig : 0 <= 24 - Zdigits2 d).
  { destruct d as [|p|p]; try lia. cbn [Zdigits2].
    assert (Zpos (digits2_pos p) <= 16) by (apply Zdigits2_le; lia). lia. }
  set (s := 24 - Zdigits2 d) in *.
  set (c := 2 ^ s) in *.
  assert (Hc : 0 < c) by (apply pow2_pos; lia).
  change (2 ^ 23) with 8388608 in Hm. change (2 ^ 24) with 16777216 in Hm.
  rewrite forallb_forall in T. specialize (T d).
  assert (Hin : In d (range (Z.max 1 (8388608000 / a))
                            (Z.min 65535 (16777216000 / a + 1) + 1))).
  { apply in_range.
    assert (8388608000 / a < d + 1).
    { apply Z.div_lt_upper_bound; [lia|]. nia. }
    assert (d - 1 <= 16777216000 / a).
    { apply Z.div_le_lower_bound; [lia|]. nia. }
    lia. }
  specialize (T Hin). unfold round_trip_pair in T.
  destruct (mm_to_depth d) as [| | |[|] mb eb]; try discriminate.
  apply andb_prop in T. destruct T as [Heb T]. apply Z.ltb_lt in Heb.
  exists mb, eb. split; [reflexivity|]. split; [exact Heb|].
  cbv zeta in T. fold s in T.
  rewrite !Z.shiftl_1_l, !shiftr_div_125 in T by exact Hdig. fold c in T.
  set (cb := 2 ^ (- eb)) in *.
  assert (Hcb : 0 < cb) by (apply pow2_pos; lia).
  set (den := 2000 * c) in *.
  set (lo := a * (c * (2 * d) - 1)) in *.
  set (hi := a * (c * (2 * (d + 1)) - 1)) in *.
  assert (Hlo' : lo <= den * m) by (subst lo; lia).
  assert (Hhi' : den * m <= hi) by (subst hi; lia).
  assert (Hmlo : (lo - 1) / den + 1 <= m).
  { assert ((lo - 1) / den < m); [|lia].
    apply Z.div_lt_upper_bound; lia. }
  assert (Hmhi : m <= hi / den).
  { apply Z.div_le_lower_bound; lia. }
  set (mlo := Z.max 8388608 ((lo - 1) / den + 1)) in *.
  set (mhi := Z.min 16777215 (hi / den)) in *.
  assert (mlo <= m <= mhi) by (subst mlo mhi; lia).
  apply orb_prop in T. destruct T as [T|T]; [apply Z.ltb_lt in T; lia|].
  apply andb_prop in T. destruct T as [T1 T2].
  apply Z.ltb_lt in T1, T2.
  assert (m * cb <= mhi * cb) by (apply Z.mul_le_mono_nonneg_r; lia).
  assert (mlo * cb <= m * cb) by (apply Z.mul_le_mono_nonneg_r; lia).
  lia.
Qed.


(** *** The product by 1000, in integers

    [m * 2^e] is the depth in meters, [m2 * 2^e2] the product
    [depth * 1000.0f] as rounded, [e2 = e - 14 + k], and [1000.0f] is
    [16384000 * 2^-14]. *)

Section Product.
Variables m e m2 k : Z.
Hypothesis He : -149 <= e <= 104.
Hypothesis Hm : 0 < m < 2 ^ 24.
Hypothesis Hnorm : -149 < e -> 2 ^ 23 <= m.
Hypothesis Hk : 0 <= k.
Hypothesis Hm2 : 0 < m2 < 2 ^ 24.
Hypothesis Hnorm2 : -149 < e - 14 + k -> 2 ^ 23 <= m2.
Hypothesis Hround :
  2 * m2 * 2 ^ k - 2 ^ k <= 2 * (m * 16384000) <= 2 * m2 * 2 ^ k + 2 ^ k.

Local Notation "'e2'" := (e - 14 + k).

Local Notation "'fits'" := (fits_ushort m2 e2).

Lemma fits_negative_exponent : fits -> e2 <= -8 /\ m2 <= 65535 * 2 ^ (- e2).
Proof.
  intros [H|[H1 H2]].
  - split; [lia|].
    assert (2 ^ 9 <= 2 ^ (- e2)) by (apply pow2_le; lia).
    change (2 ^ 9) with 512 in *. change (2 ^ 24) with 16777216 in *. lia.
  - split; [lia|]. rewrite H1. change (2 ^ (- -8)) with 256. lia.
Qed.

Lemma scale_split : e < 0 -> e2 < 0 -> 2 ^ k * 2 ^ (- e2) = 16384 * 2 ^ (- e).
Proof.
  intros H1 H2. rewrite <- Z.pow_add_r by lia.
  replace (k + - e2) with (14 + - e) by lia.
  rewrite Z.pow_add_r by lia. reflexivity.
Qed.

(** A depth of 65.535 m or more does not fit. *)
Lemma overflow_does_not_fit :
  (if 0 <=? e then 65535 <= 1000 * m * 2 ^ e else 65535 * 2 ^ (- e) <= 1000 * m) ->
  ~ fits.
Proof.
  intros Hov Hfit. destruct (fits_negative_exponent Hfit) as [He2 Hb].
  change (2 ^ 24) with 16777216 in *. change (2 ^ 23) with 8388608 in *.
  destruct (0 <=? e) eqn:Ee; [apply Z.leb_le in Ee | apply Z.leb_gt in Ee].
  - assert (2 ^ k <= 2 ^ 6) by (apply pow2_le; lia).
    change (2 ^ 6) with 64 in *.
    assert (0 < 2 ^ k) by (apply pow2_pos; lia).
    assert (8388608 <= m) by (apply Hnorm; lia). nia.
  - set (a := 2 ^ (- e)) in *.
    assert (Ha : 0 < a) by (apply pow2_pos; lia).
    assert (He17 : - e <= 17).
    { destruct (Z_le_gt_dec (- e) 17) as [|Hgt]; [assumption|].
      assert (2 ^ 18 <= a) by (apply pow2_le; lia).
      change (2 ^ 18) with 262144 in *. lia. }
    pose proof (scale_split Ee ltac:(lia)) as Hs. fold a in Hs.
    assert (Hpk : 2 ^ k <= 64 * a).
    { replace (64 * a) with (2 ^ (6 + - e))
        by (rewrite Z.pow_add_r by lia; reflexivity).
      apply pow2_le. lia. }
    assert (H0k : 0 < 2 ^ k) by (apply pow2_pos; lia).
    assert (Hmk : m2 * 2 ^ k <= 65535 * 16384 * a).
    { rewrite <- Z.mul_assoc, <- Hs.
      replace (65535 * (2 ^ k * 2 ^ (- e2))) with (65535 * 2 ^ (- e2) * 2 ^ k) by ring.
      apply Z.mul_le_mono_nonneg_r; lia. }
    set (b := 2 ^ (17 + e)).
    assert (Hb0 : 0 < b) by (apply pow2_pos; lia).
    assert (Hab : a * b = 131072).
    { subst a b. rewrite <- Z.pow_add_r by lia.
      replace (- e + (17 + e)) with 17 by lia. reflexivity. }
    assert (H1 : 2147450880 * a <= 32768000 * m) by lia.
    assert (H2 : 32768000 * m <= 2147450944 * a) by lia.
    assert (H3 : 2147450880 * a * b <= 32768000 * m * b)
      by (apply Z.mul_le_mono_nonneg_r; lia).
    assert (H4 : 32768000 * m * b <= 2147450944 * a * b)
      by (apply Z.mul_le_mono_nonneg_r; lia).
    replace (2147450880 * a * b) with (2147450880 * (a * b)) in H3 by ring.
    replace (2147450944 * a * b) with (2147450944 * (a * b)) in H4 by ring.
    rewrite Hab in H3, H4.
    replace (32768000 * m * b) with (32768000 * (m * b)) in H3, H4 by ring.
    lia.
Qed.

(** A depth below 65.535 m is below 1 (its exponent is negative) and fits. *)
Lemma below_limit_fits :
  ~ (if 0 <=? e then 65535 <= 1000 * m * 2 ^ e else 65535 * 2 ^ (- e) <= 1000 * m) ->
  e < 0 /\ fits.
Proof.
  intros Hov.
  change (2 ^ 24) with 16777216 in *. change (2 ^ 23) with 8388608 in *.
  destruct (0 <=? e) eqn:Ee; [apply Z.leb_le in Ee | apply Z.leb_gt in Ee].
  - exfalso. apply Hov.
    assert (1 <= 2 ^ e) by (pose proof (pow2_pos e); lia).
    assert (8388608 <= m) by (apply Hnorm; lia). nia.
  - split; [exact Ee|].
    set (a := 2 ^ (- e)) in *.
    assert (Ha : 0 < a) by (apply pow2_pos; lia).
    assert (Hlt : 1000 * m < 65535 * a) by lia.
    assert (H0k : 0 < 2 ^ k) by (apply pow2_pos; lia).
    unfold fits_ushort.
    destruct (Z_lt_ge_dec e2 (-8)) as [|Hge]; [now left|].
    destruct (Z.eq_dec e2 (-8)) as [Heq|Hne].
    + assert (Hpk : 2 ^ k = 64 * a).
      { replace k with (6 + - e) by lia.
        rewrite Z.pow_add_r by lia. reflexivity. }
      destruct (Z_le_gt_dec m2 16776960) as [Hle|Hgt]; [right; split; assumption|].
      exfalso. rewrite Hpk in Hround. nia.
    + exfalso.
      assert (Hpk : 128 * a <= 2 ^ k).
      { replace (128 * a) with (2 ^ (7 + - e))
          by (rewrite Z.pow_add_r by lia; reflexivity).
        apply pow2_le. lia. }
      assert (8388608 <= m2) by (apply Hnorm2; lia).
      assert (2 ^ k * (2 * 8388608 - 1) <= 2 ^ k * (2 * m2 - 1))
        by (apply Z.mul_le_mono_nonneg_l; lia).
      nia.
Qed.

(** The millimetres stored for a product that fits, and where the depth
    in meters lies around them. *)
Lemma fitting_product_bounds :
  e < 0 -> fits ->
  let d := m2 / 2 ^ (- e2) in
  0 <= d <= 65535 /\
  (d = 0 -> 1000 * m < 2 ^ (- e)) /\
  (1 <= d ->
   -34 <= e <= -17 /\ 2 ^ 23 <= m /\
   2 ^ (- e) * (2 * d * 2 ^ (24 - Zdigits2 d) - 1) <= 2000 * 2 ^ (24 - Zdigits2 d) * m /\
   2000 * 2 ^ (24 - Zdigits2 d) * m <=
     2 ^ (- e) * (2 * (d + 1) * 2 ^ (24 - Zdigits2 d) - 1)).
Proof.
  intros Ee Hfit d. destruct (fits_negative_exponent Hfit) as [He2 Hb].
  pose proof (scale_split Ee ltac:(lia)) as Hs.
  set (a := 2 ^ (- e)) in *. set (c := 2 ^ (- e2)) in *.
  assert (Ha : 0 < a) by (apply pow2_pos; lia).
  assert (Hc : 0 < c) by (apply pow2_pos; lia).
  assert (H0k : 0 < 2 ^ k) by (apply pow2_pos; lia).
  assert (Hd : d * c <= m2 < (d + 1) * c).
  { subst d. pose proof (Z.div_mod m2 c ltac:(lia)).
    pose proof (Z.mod_pos_bound m2 c Hc). nia. }
  assert (Hd0 : 0 <= d) by (subst d; apply Z.div_pos; lia).
  (* the depth lies within half a unit of the product around [d] *)
  assert (Hup : 2000 * c * m <= a * (2 * (d + 1) * c - 1)).
  { assert (2 * (m * 16384000) * c <= (2 * m2 + 1) * (2 ^ k * c)) by nia.
    rewrite Hs in H.
    assert ((2 * m2 + 1) * (16384 * a) <= (2 * ((d + 1) * c - 1) + 1) * (16384 * a))
      by (apply Z.mul_le_mono_nonneg_r; lia).
    nia. }
  assert (Hlow : a * (2 * d * c - 1) <= 2000 * c * m).
  { assert ((2 * m2 - 1) * (2 ^ k * c) <= 2 * (m * 16384000) * c) by nia.
    rewrite Hs in H.
    assert ((2 * (d * c) - 1) * (16384 * a) <= (2 * m2 - 1) * (16384 * a))
      by (apply Z.mul_le_mono_nonneg_r; lia).
    nia. }
  change (2 ^ 24) with 16777216 in *. change (2 ^ 23) with 8388608 in *.
  split; [|split].
  - split; [exact Hd0|].
    destruct Hfit as [Hlt|[Heq Hle]].
    + assert (2 ^ 9 <= c) by (apply pow2_le; lia).
      change (2 ^ 9) with 512 in *. nia.
    + subst c. rewrite Heq in *. change (2 ^ (- -8)) with 256 in *. lia.
  - intros Hz. rewrite Hz in Hup. nia.
  - intros Hd1.
    (* the product is normal, and its exponent is that of [d] *)
    assert (He2' : -149 < e2).
    { destruct (Z_lt_ge_dec (-149) e2) as [|Hge]; [assumption|].
      assert (2 ^ 149 <= c) by (apply pow2_le; lia).
      assert (16777216 < 2 ^ 149) by reflexivity. nia. }
    assert (Hn2 : 8388608 <= m2) by (apply Hnorm2; exact He2').
    assert (He23 : - e2 <= 23).
    { destruct (Z_le_gt_dec (- e2) 23) as [|Hgt]; [assumption|].
      assert (2 ^ 24 <= c) by (apply pow2_le; lia).
      change (2 ^ 24) with 16777216 in *. nia. }
    assert (Hdig : Zdigits2 d = 24 + e2).
    { destruct d as [|p|p] eqn:Ed; try lia. cbn [Zdigits2].
      apply Zdigits2_unique; [lia|].
      assert (E1 : 2 ^ (24 + e2 - 1) * c = 8388608).
      { subst c. rewrite <- Z.pow_add_r by lia.
        replace (24 + e2 - 1 + - e2) with 23 by lia. reflexivity. }
      assert (E2 : 2 ^ (24 + e2) * c = 16777216).
      { subst c. rewrite <- Z.pow_add_r by lia.
        replace (24 + e2 + - e2) with 24 by lia. reflexivity. }
      assert (0 < 2 ^ (24 + e2 - 1)) by (apply pow2_pos; lia).
      assert (0 < 2 ^ (24 + e2)) by (apply pow2_pos; lia).
      split.
      - assert (2 ^ (24 + e2 - 1) < Zpos p + 1); [|lia].
        apply Z.mul_lt_mono_pos_r with c; [lia|]. lia.
      - apply Z.mul_lt_mono_pos_r with c; [lia|]. lia. }
    rewrite Hdig. replace (24 - (24 + e2)) with (- e2) by lia. fold c.
    assert (Hale : a <= 2000 * m).
    { assert (a * c <= a * (2 * d * c - 1))
        by (apply Z.mul_le_mono_nonneg_l; nia).
      assert (a * c <= 2000 * m * c) by lia.
      apply Z.mul_le_mono_pos_r with c; lia. }
    assert (He34 : - 34 <= e).
    { destruct (Z_le_gt_dec (-34) e) as [|Hgt]; [assumption|].
      assert (2 ^ 35 <= a) by (apply pow2_le; lia).
      change (2 ^ 35) with 34359738368 in *. lia. }
    assert (Hmn : 8388608 <= m) by (apply Hnorm; lia).
    assert (Hagt : 1000 * m < a * (d + 1)).
    { assert (2000 * c * m < a * (2 * (d + 1) * c)) by nia.
      apply Z.mul_lt_mono_pos_r with (2 * c); lia. }
    assert (He17 : e <= -17).
    { destruct (Z_le_gt_dec e (-17)) as [|Hgt]; [assumption|].
      assert (a <= 2 ^ 16) by (apply pow2_le; lia).
      change (2 ^ 16) with 65536 in *. nia. }
    repeat split; lia.
Qed.
End Product.


(** *** The product by 1000, on floats *)

Lemma canonical_bounds (p : positive) (e : Z) :
  fexp 24 128 (Zpos (digits2_pos p) + e) = e ->
  -149 <= e /\ Zpos p < 2 ^ 24 /\ (-149 < e -> 2 ^ 23 <= Zpos p).
Proof.
  intros H. rewrite fexp_eq in H.
  destruct (digits2_pos_bounds p) as [B1 B2].
  assert (Hd : Zpos (digits2_pos p) <= 24) by lia.
  split; [lia|]. split.
  - assert (2 ^ Zpos (digits2_pos p) <= 2 ^ 24) by (apply pow2_le; lia). lia.
  - intros He. replace (Zpos (digits2_pos p)) with 24 in B1 by lia. exact B1.
Qed.

Lemma valid_finite (s : bool) (m : positive) (e : Z) :
  F32.valid (S754_finite s m e) = true ->
  fexp 24 128 (Zpos (digits2_pos m) + e) = e /\ e <= 104.
Proof.
  unfold F32.valid, valid_binary, bounded, canonical_mantissa, F32.prec, F32.emax.
  intros H. apply andb_prop in H. destruct H as [H1 H2].
  apply Z.eqb_eq in H1. apply Z.leb_le in H2. split; [exact H1 | lia].
Qed.

Lemma thousand_eq : thousand = S754_finite false 16384000 (-14).
Proof. reflexivity. Qed.

Lemma ushrt_max_eq : F32.of_Z USHRT_MAX = S754_finite false 16776960 (-8).
Proof. reflexivity. Qed.

(** The product of a positive float by [1000.0f]: a positive float in
    canonical form within half a unit of the exact product, or [+inf]. *)
Lemma mul_thousand_positive (m : positive) (e : Z) :
  F32.valid (S754_finite false m e) = true ->
  exists (p2 : positive) (k : Z),
    0 <= k /\
    F32.mul (S754_finite false m e) thousand =
      (if e - 14 + k <=? 104 then S754_finite false p2 (e - 14 + k)
       else S754_infinity false) /\
    -149 <= e - 14 + k /\ Zpos p2 < 2 ^ 24 /\
    (-149 < e - 14 + k -> 2 ^ 23 <= Zpos p2) /\
    2 * Zpos p2 * 2 ^ k - 2 ^ k <= 2 * (Zpos m * 16384000) <= 2 * Zpos p2 * 2 ^ k + 2 ^ k.
Proof.
  intros Hv. destruct (valid_finite _ _ _ Hv) as [Hc He].
  destruct (canonical_bounds _ _ Hc) as (He' & Hm & _).
  rewrite thousand_eq. unfold F32.mul, SFmul, F32.prec, F32.emax. cbn [xorb].
  assert (Hdig : 24 <= Zpos (digits2_pos (m * 16384000))).
  { apply (Zdigits2_ge _ 23); [lia|]. change (2 ^ 23) with 8388608. lia. }
  destruct (binary_round_aux_exact 24 128 ltac:(lia) false (m * 16384000) (e + -14))
    as (m2 & k & Hk & Hm2 & Heq & Herr & Hcan & Hexp).
  { rewrite fexp_eq. lia. }
  replace (e + -14) with (e - 14) in * by lia.
  assert (H0k : 0 < 2 ^ k) by (apply pow2_pos; lia).
  assert (Hpos : 0 < m2).
  { destruct (Z.eq_dec m2 0) as [->|]; [|lia]. exfalso.
    rewrite fexp_eq in Hexp.
    destruct (digits2_pos_bounds (m * 16384000)) as [B1 _].
    set (dM := Zpos (digits2_pos (m * 16384000))) in *.
    destruct (Z_le_gt_dec k 15) as [Hle|Hgt].
    - assert (2 ^ k <= 2 ^ 15) by (apply pow2_le; lia).
      change (2 ^ 15) with 32768 in *. lia.
    - assert (Hkd : k <= dM - 23) by lia.
      assert (2 ^ k <= 2 ^ (dM - 23)) by (apply pow2_le; lia).
      assert (2 ^ (dM - 1) = 2 ^ 22 * 2 ^ (dM - 23)).
      { rewrite <- Z.pow_add_r by lia. f_equal. lia. }
      assert (0 < 2 ^ (dM - 23)) by (apply pow2_pos; lia).
      change (2 ^ 22) with 4194304 in *. lia. }
  destruct m2 as [|p2|p2]; try lia.
  specialize (Hcan Hpos). cbn [Zdigits2] in Hcan.
  destruct (canonical_bounds _ _ Hcan) as (A & B & C).
  exists p2, k. rewrite Heq. unfold rounded.
  replace (128 - 24) with 104 by reflexivity.
  rewrite Pos2Z.inj_mul in Herr.
  repeat split; try assumption; lia.
Qed.

Lemma leb_ushrt_max (p2 : positive) (e2 : Z) :
  F32.leb (S754_finite false p2 e2) (F32.of_Z USHRT_MAX) = true <->
  fits_ushort (Zpos p2) e2.
Proof.
  rewrite ushrt_max_eq. unfold F32.leb, SFleb, SFcompare, fits_ushort.
  destruct (Z.compare_spec e2 (-8)) as [E|E|E].
  - rewrite Pos.compare_cont_spec. cbn [Pos.switch_Eq].
    destruct (Pos.compare_spec p2 16776960) as [P|P|P]; cbn [Pos.switch_Eq].
    + split; [intros _|reflexivity]. right. split; [exact E|].
      rewrite P. apply Z.le_refl.
    + split; [intros _|reflexivity]. right. split; [exact E|].
      apply Z.lt_le_incl. exact P.
    + split; [intros H; discriminate H|]. intros [H|[_ H]].
      * rewrite E in H. exfalso. revert H. apply Z.lt_irrefl.
      * exfalso. apply (Z.lt_irrefl (Zpos p2)).
        apply Z.le_lt_trans with (1 := H).
        apply Pos2Z.pos_lt_pos. exact P.
  - split; [intros _; left; exact E | reflexivity].
  - split; [intros H; discriminate H |]. intros [H|[H _]].
    + exfalso. apply (Z.lt_irrefl e2). now apply Z.lt_trans with (-8).
    + rewrite H in E. exfalso. revert E. apply Z.lt_irrefl.
Qed.

Lemma gtb_ushrt_max (p2 : positive) (e2 : Z) :
  F32.gtb (S754_finite false p2 e2) (F32.of_Z USHRT_MAX) = true <->
  ~ fits_ushort (Zpos p2) e2.
Proof.
  rewrite <- leb_ushrt_max. rewrite ushrt_max_eq.
  unfold F32.gtb, F32.leb, F32.ltb, SFltb, SFleb, SFcompare.
  rewrite (Z.compare_antisym e2 (-8)).
  destruct (e2 ?= -8); cbn [CompOpp].
  - rewrite !Pos.compare_cont_spec. cbn [Pos.switch_Eq].
    rewrite (Pos.compare_antisym p2 16776960).
    destruct (p2 ?= 16776960)%positive; cbn [CompOpp Pos.switch_Eq];
      split; intros H; try discriminate H; try (intros H'; discriminate H');
      try reflexivity; exfalso; apply H; reflexivity.
  - split; [intros H; discriminate H|]. intros H. exfalso. apply H. reflexivity.
  - split; [intros _ H; discriminate H | reflexivity].
Qed.

(** *** Values as rationals *)

Lemma to_pos_pow2 (n : Z) : 0 <= n -> Zpos (Z.to_pos (2 ^ n)) = 2 ^ n.
Proof. intros H. apply Z2Pos.id. now apply pow2_pos. Qed.

Lemma overflowing_finite (m : positive) (e : Z) :
  overflowing (S754_finite false m e) = true <->
  (if 0 <=? e then 65535 <= 1000 * Zpos m * 2 ^ e
   else 65535 * 2 ^ (- e) <= 1000 * Zpos m).
Proof.
  unfold overflowing. rewrite Qle_bool_iff. unfold F2Q, Qle.
  destruct (0 <=? e) eqn:E; cbn [cond_Zopp Qnum Qden inject_Z].
  - lia.
  - apply Z.leb_gt in E. rewrite to_pos_pow2 by lia. lia.
Qed.

Lemma within_a_millimetre (mb m : positive) (eb e : Z) :
  eb < 0 -> e < 0 ->
  1000 * Z.abs (Zpos m * 2 ^ (- eb) - Zpos mb * 2 ^ (- e)) < 2 ^ (- e) * 2 ^ (- eb) ->
  (Qabs (F2Q (S754_finite false mb eb) - F2Q (S754_finite false m e)) < 1 # 1000)%Q.
Proof.
  intros Hb He H. unfold F2Q.
  replace (0 <=? eb) with false by (symmetry; apply Z.leb_gt; lia).
  replace (0 <=? e) with false by (symmetry; apply Z.leb_gt; lia).
  cbn [cond_Zopp]. unfold Qminus, Qplus, Qopp, Qabs, Qlt. cbn [Qnum Qden].
  rewrite Pos2Z.inj_mul, !to_pos_pow2 by lia. lia.
Qed.

Lemma below_a_millimetre (m : positive) (e : Z) :
  e < 0 -> 1000 * Zpos m < 2 ^ (- e) ->
  (Qabs (F2Q (S754_zero false) - F2Q (S754_finite false m e)) < 1 # 1000)%Q.
Proof.
  intros He H. unfold F2Q.
  replace (0 <=? e) with false by (symmetry; apply Z.leb_gt; lia).
  cbn [cond_Zopp]. unfold Qminus, Qplus, Qopp, Qabs, Qlt. cbn [Qnum Qden].
  rewrite to_pos_pow2 by lia. lia.
Qed.

(** *** One pixel *)

Lemma mm_to_depth_zero : mm_to_depth 0 = S754_zero false.
Proof. reflexivity. Qed.

(** A product that does not lead to a [depth > 0] stores no millimetre and
    counts nothing. *)
Lemma depth_to_mm_nonpositive (x : float) :
  F32.gtb (F32.mul x thousand) F32.zero = false ->
  F32.gtb (F32.mul x thousand) (F32.of_Z USHRT_MAX) = false ->
  depth_to_mm x = Some (0, 0).
Proof. intros H1 H2. unfold depth_to_mm. rewrite H1, H2. reflexivity. Qed.

Lemma mul_thousand_negative (m : positive) (e : Z) :
  exists m2 e2, 0 <= m2 /\
    F32.mul (S754_finite true m e) thousand = rounded 24 128 true m2 e2.
Proof.
  rewrite thousand_eq. unfold F32.mul, SFmul. cbn [xorb].
  apply binary_round_aux_shape. apply Pos2Z.is_nonneg.
Qed.

Lemma depth_to_mm_negative (m : positive) (e : Z) :
  depth_to_mm (S754_finite true m e) = Some (0, 0).
Proof.
  destruct (mul_thousand_negative m e) as (m2 & e2 & H0 & H).
  apply depth_to_mm_nonpositive; rewrite H, ?ushrt_max_eq; unfold rounded;
    destruct m2 as [|p|p]; try lia; try reflexivity;
    destruct (e2 <=? 128 - 24); reflexivity.
Qed.

(** What [cvtDepthFromFloat] stores and counts at one pixel, and what
    [cvtDepthToFloat] makes of it. *)
Lemma depth_to_mm_spec (x : float) :
  F32.valid x = true ->
  exists mm,
    depth_to_mm x = Some (mm, if overflowing x then 1 else 0) /\
    0 <= mm <= 65535 /\
    (representable x = false -> mm = 0) /\
    (representable x = true ->
     uIsFinite (mm_to_depth mm) = true /\
     (Qabs (F2Q (mm_to_depth mm) - F2Q x) < 1 # 1000)%Q).
Proof.
  intros Hv. destruct x as [s|s| |s m e].
  - exists 0. split; [destruct s; reflexivity|]. split; [lia|].
    split; [discriminate|]. intros _. split; reflexivity.
  - exists 0. split; [destruct s; reflexivity|]. split; [lia|].
    split; [reflexivity|]. discriminate.
  - exists 0. split; [reflexivity|]. split; [lia|].
    split; [reflexivity|]. discriminate.
  - destruct s.
    { exists 0. split; [apply depth_to_mm_negative|]. split; [lia|].
      split; [reflexivity|]. discriminate. }
    destruct (valid_finite _ _ _ Hv) as [Hcan He].
    destruct (canonical_bounds _ _ Hcan) as (Hlo & Hm & Hnorm).
    destruct (mul_thousand_positive m e Hv)
      as (p2 & k & Hk & Hmul & Hlo2 & Hm2 & Hnorm2 & Hround).
    assert (Hm' : 0 < Zpos m < 2 ^ 24) by (split; [reflexivity | exact Hm]).
    assert (Hm2' : 0 < Zpos p2 < 2 ^ 24) by (split; [reflexivity | exact Hm2]).
    pose proof (overflowing_finite m e) as Hov.
    destruct (overflowing (S754_finite false m e)) eqn:Eov.
    + (* at or above 65.535 m *)
      pose proof (overflow_does_not_fit (Zpos m) e (Zpos p2) k Hm' Hnorm Hk Hm2'
                    Hround (proj1 Hov eq_refl)) as Hnofit.
      assert (Hrep : representable (S754_finite false m e) = false).
      { unfold representable. unfold overflowing in Eov. rewrite Eov. reflexivity. }
      exists 0. split; [|split; [lia|split; [reflexivity|rewrite Hrep; discriminate]]].
      unfold depth_to_mm. rewrite Hmul.
      destruct (e - 14 + k <=? 104); [|reflexivity].
      replace (F32.leb (S754_finite false p2 (e - 14 + k)) (F32.of_Z USHRT_MAX))
        with false.
      2:{ symmetry. apply not_true_is_false. intros H.
          apply Hnofit. apply leb_ushrt_max. exact H. }
      rewrite andb_false_r.
      rewrite (proj2 (gtb_ushrt_max p2 (e - 14 + k)) Hnofit). reflexivity.
    + (* below 65.535 m *)
      assert (Hnov : ~ (if 0 <=? e then 65535 <= 1000 * Zpos m * 2 ^ e
                        else 65535 * 2 ^ (- e) <= 1000 * Zpos m)).
      { intros H. apply Hov in H. discriminate H. }
      destruct (below_limit_fits (Zpos m) e (Zpos p2) k Hm' Hnorm Hk Hm2'
                  Hnorm2 Hround Hnov) as [Ee Hfit].
      destruct (fits_negative_exponent e (Zpos p2) k Hk Hm2' Hfit) as [He2 _].
      pose proof (fitting_product_bounds (Zpos m) e (Zpos p2) k Hm' Hnorm Hk Hm2'
                    Hnorm2 Hround Ee Hfit) as Hd.
      cbv zeta in Hd. destruct Hd as (Hd & Hd0 & Hd1).
      set (d := Zpos p2 / 2 ^ (- (e - 14 + k))) in *.
      assert (Hrep : representable (S754_finite false m e) = true).
      { unfold representable. unfold overflowing in Eov. rewrite Eov. reflexivity. }
      exists d. split.
      { unfold depth_to_mm. rewrite Hmul.
        replace (e - 14 + k <=? 104) with true by (symmetry; apply Z.leb_le; lia).
        rewrite (proj2 (leb_ushrt_max p2 (e - 14 + k)) Hfit).
        replace (F32.gtb (S754_finite false p2 (e - 14 + k)) F32.zero)
          with true by reflexivity.
        cbn [andb]. unfold to_ushort, to_integer, trunc.
        replace (0 <=? e - 14 + k) with false by (symmetry; apply Z.leb_gt; lia).
        cbn [cond_Zopp]. fold d.
        replace ((0 <=? d) && (d <=? 65535)) with true; [reflexivity|].
        symmetry. apply andb_true_iff. split; apply Z.leb_le; lia. }
      split; [exact Hd|]. split; [rewrite Hrep; discriminate|]. intros _.
      destruct (Z.eq_dec d 0) as [E0|E0].
      * rewrite E0, mm_to_depth_zero. split; [reflexivity|].
        apply below_a_millimetre; [exact Ee | apply Hd0; exact E0].
      * destruct Hd1 as (He' & Hm23 & Hle1 & Hle2); [lia|].
        destruct (round_trip_pair_sound e d (Zpos m) He' ltac:(lia)
                    (conj Hm23 Hm) Hle1 Hle2) as (mb & eb & Hback & Heb & Herr).
        rewrite Hback. split; [reflexivity|].
        apply within_a_millimetre; assumption.
Qed.

(** *** The loops over the pixels *)

Lemma in_scan_order (r c v u : Z) :
  In (v, u) (scan_order r c) <-> 0 <= v < r /\ 0 <= u < c.
Proof.
  unfold scan_order. rewrite in_flat_map. split.
  - intros (y & Hy & H). apply in_map_iff in H. destruct H as (x & E & Hx).
    inversion E; subst. apply in_range in Hy. apply in_range in Hx. now split.
  - intros [Hv Hu]. exists v. split; [now apply in_range|].
    apply in_map_iff. exists u. split; [reflexivity | now apply in_range].
Qed.

Lemma visited_scan_order (r c v u : Z) :
  0 <= v < r -> 0 <= u < c -> visited (scan_order r c) v u = true.
Proof.
  intros Hv Hu. unfold visited. apply existsb_exists. exists (v, u).
  split; [now apply in_scan_order|]. cbn [fst snd]. now rewrite !Z.eqb_refl.
Qed.

(** Pixels assigned one by one: each holds the value assigned for it. *)
Lemma fold_set_at {A : Type} (f : Z -> Z -> A) (l : list (Z * Z)) :
  forall m0 : Mat A,
    let m := fold_left (fun acc p => set_at acc (fst p) (snd p) (f (fst p) (snd p)))
                       l m0 in
    rows m = rows m0 /\ cols m = cols m0 /\
    forall v u, at_ m v u = if visited l v u then f v u else at_ m0 v u.
Proof.
  induction l as [|[y x] l IH]; intros m0; cbn [fold_left fst snd].
  - repeat split.
  - destruct (IH (set_at m0 y x (f y x))) as (Hr & Hc & Hat).
    split; [exact Hr|]. split; [exact Hc|]. intros v u. rewrite Hat.
    unfold visited. cbn [existsb fst snd].
    destruct (existsb _ l); [now rewrite orb_true_r|].
    rewrite orb_false_r. cbn [set_at at_].
    destruct ((v =? y) && (u =? x)) eqn:E; [|reflexivity].
    apply andb_true_iff in E. destruct E as [E1 E2].
    apply Z.eqb_eq in E1, E2. now subst.
Qed.

(** The loops of [cvtDepthFromFloat], when no narrowing is undefined. *)
Lemma cvtDepthFromFloat_loops (depth32F : Mat float) (l : list (Z * Z)) :
  (forall p, In p l ->
     depth_to_mm (at_ depth32F (fst p) (snd p)) =
       Some (stored_mm (at_ depth32F (fst p) (snd p)),
             if overflowing (at_ depth32F (fst p) (snd p)) then 1 else 0)) ->
  forall (depth16U : Mat Z) (countOverMax : Z),
    fold_left
      (fun st p =>
         match st with
         | Some (depth16U, countOverMax) =>
             match depth_to_mm (at_ depth32F (fst p) (snd p)) with
             | Some (depthMM, over) =>
                 Some (set_at depth16U (fst p) (snd p) depthMM, countOverMax + over)
             | None => None
             end
         | None => None
         end) l (Some (depth16U, countOverMax)) =
    Some (fold_left (fun acc p => set_at acc (fst p) (snd p)
                                         (stored_mm (at_ depth32F (fst p) (snd p))))
                    l depth16U,
          fold_left (fun n p => if overflowing (at_ depth32F (fst p) (snd p))
                                then n + 1 else n) l countOverMax).
Proof.
  induction l as [|p l IH]; intros H depth16U countOverMax; cbn [fold_left].
  - reflexivity.
  - rewrite (H p (or_introl eq_refl)).
    rewrite IH by (intros q Hq; apply H; now right).
    destruct (overflowing _); [reflexivity|]. now rewrite Z.add_0_r.
Qed.

Lemma stored_mm_spec (x : float) :
  F32.valid x = true ->
  depth_to_mm x = Some (stored_mm x, if overflowing x then 1 else 0) /\
  0 <= stored_mm x <= 65535 /\
  (representable x = false -> stored_mm x = 0) /\
  (representable x = true ->
   uIsFinite (mm_to_depth (stored_mm x)) = true /\
   (Qabs (F2Q (mm_to_depth (stored_mm x)) - F2Q x) < 1 # 1000)%Q).
Proof.
  intros Hv. destruct (depth_to_mm_spec x Hv) as (mm & H1 & H2).
  unfold stored_mm. rewrite H1. split; [reflexivity | exact H2].
Qed.

Lemma overflowing_not_representable (x : float) :
  overflowing x = true -> representable x = false.
Proof.
  unfold overflowing, representable.
  destruct x as [s|s| |s m e]; try discriminate; try reflexivity.
  - destruct s; [discriminate|]. intros ->. reflexivity.
Qed.

Lemma cvtDepthToFloat_at (depth16U : Mat Z) (v u : Z) :
  0 <= v < rows depth16U -> 0 <= u < cols depth16U ->
  at_ (cvtDepthToFloat depth16U) v u = mm_to_depth (at_ depth16U v u).
Proof.
  intros Hv Hu. unfold cvtDepthToFloat, mat_empty.
  replace (rows depth16U <=? 0) with false by (symmetry; apply Z.leb_gt; lia).
  replace (cols depth16U <=? 0) with false by (symmetry; apply Z.leb_gt; lia).
  cbn [orb]. rewrite for_pixels_scan_order.
  destruct (fold_set_at (fun i j => mm_to_depth (at_ depth16U i j))
              (scan_order (rows depth16U) (cols depth16U))
              (constant (rows depth16U) (cols depth16U) F32.zero)) as (_ & _ & H).
  rewrite H, visited_scan_order by assumption. reflexivity.
Qed.

(** [cvtDepthFromFloat] on an image of floats: it returns, with the count
    of the depths at or above 65.535 m, an image of the same size that
    holds [stored_mm] of every pixel. *)
Lemma cvtDepthFromFloat_pixels (depth32F : Mat float) :
  all_samples F32.valid depth32F = true ->
  exists depth16U,
    cvtDepthFromFloat depth32F =
      Some (depth16U, count_samples overflowing depth32F) /\
    (mat_empty depth32F = false ->
     rows depth16U = rows depth32F /\ cols depth16U = cols depth32F) /\
    forall i j, 0 <= i < rows depth32F -> 0 <= j < cols depth32F ->
      at_ depth16U i j = stored_mm (at_ depth32F i j).
Proof.
  intros Hvalid. unfold cvtDepthFromFloat, count_samples.
  rewrite !for_pixels_scan_order.
  destruct (mat_empty depth32F) eqn:Eempty.
  - exists (mkMat 0 0 (fun _ _ => 0)). split.
    + f_equal. f_equal. unfold mat_empty in Eempty.
      apply orb_true_iff in Eempty.
      assert (E : scan_order (rows depth32F) (cols depth32F) = []).
      { destruct (scan_order (rows depth32F) (cols depth32F)) as [|[v u] l] eqn:E;
          [reflexivity|].
        assert (Hin : In (v, u) (scan_order (rows depth32F) (cols depth32F)))
          by (rewrite E; now left).
        apply in_scan_order in Hin.
        destruct Eempty as [H|H]; apply Z.leb_le in H; lia. }
      rewrite E. reflexivity.
    + split; [discriminate|]. intros i j Hi Hj. unfold mat_empty in Eempty.
      apply orb_true_iff in Eempty.
      destruct Eempty as [H|H]; apply Z.leb_le in H; lia.
  - set (l := scan_order (rows depth32F) (cols depth32F)).
    set (m0 := constant (rows depth32F) (cols depth32F) 0).
    exists (fold_left (fun acc p => set_at acc (fst p) (snd p)
                                      (stored_mm (at_ depth32F (fst p) (snd p))))
                      l m0).
    split.
    + apply cvtDepthFromFloat_loops. intros [v u] Hin. cbn [fst snd].
      apply in_scan_order in Hin. destruct Hin as [Hv Hu].
      apply stored_mm_spec. now apply all_samples_at.
    + destruct (fold_set_at (fun i j => stored_mm (at_ depth32F i j)) l m0)
        as (Hr & Hc & Hat).
      split; [intros _; split; assumption|]. intros i j Hi Hj.
      rewrite Hat. unfold l. now rewrite visited_scan_order.
Qed.

(** C1: on every image of binary32 depths, [cvtDepthFromFloat] returns, and
    the count it reports is the number of pixels whose depth is at or above
    65.535 m, each counted once; each of those is stored as 0; and a pixel
    whose depth [x] is in the representable range, [0 <= x < 65.535], comes
    back from [cvtDepthToFloat] as a finite float less than 1 mm away from
    [x]. *)
Theorem depth_round_trip (depth32F : Mat float) :
  all_samples F32.valid depth32F = true ->
  exists depth16U countOverMax,
    cvtDepthFromFloat depth32F = Some (depth16U, countOverMax) /\
    countOverMax = count_samples overflowing depth32F /\
    forall i j, 0 <= i < rows depth32F -> 0 <= j < cols depth32F ->
      let x := at_ depth32F i j in
      let y := at_ (cvtDepthToFloat depth16U) i j in
      (representable x = true ->
       uIsFinite y = true /\ (Qabs (F2Q y - F2Q x) < 1 # 1000)%Q) /\
      (overflowing x = true -> at_ depth16U i j = 0).
Proof.
  intros Hvalid.
  destruct (cvtDepthFromFloat_pixels depth32F Hvalid) as (depth16U & Hret & Hdim & Hat).
  exists depth16U, (count_samples overflowing depth32F).
  split; [exact Hret|]. split; [reflexivity|]. intros i j Hi Hj x y.
  assert (Hne : mat_empty depth32F = false).
  { unfold mat_empty. apply orb_false_iff. split; apply Z.leb_gt; lia. }
  destruct (Hdim Hne) as [Hr Hc].
  assert (Hy : y = mm_to_depth (stored_mm x)).
  { subst y. rewrite cvtDepthToFloat_at by (rewrite ?Hr, ?Hc; assumption).
    now rewrite Hat. }
  destruct (stored_mm_spec x (all_samples_at _ _ _ _ Hvalid Hi Hj))
    as (_ & _ & Hzero & Hback).
  split.
  - intros Hrep. rewrite Hy. now apply Hback.
  - intros Hov. rewrite Hat by assumption. apply Hzero.
    now apply overflowing_not_representable.
Qed.

Lemma depth_round_trip_witness :
  all_samples F32.valid Fixtures.depth_meters = true /\
  exists depth16U countOverMax,
    cvtDepthFromFloat Fixtures.depth_meters = Some (depth16U, countOverMax) /\
    countOverMax = count_samples overflowing Fixtures.depth_meters /\
    forall i j, 0 <= i < rows Fixtures.depth_meters ->
                0 <= j < cols Fixtures.depth_meters ->
      let x := at_ Fixtures.depth_meters i j in
      let y := at_ (cvtDepthToFloat depth16U) i j in
      (representable x = true ->
       uIsFinite y = true /\ (Qabs (F2Q y - F2Q x) < 1 # 1000)%Q) /\
      (overflowing x = true -> at_ depth16U i j = 0).
Proof.
  split; [reflexivity|]. apply (depth_round_trip Fixtures.depth_meters). reflexivity.
Defined.
(** * Further properties *)

(** ** [decimate] *)

Lemma decimate_samples_spec {A : Type} (image : Mat A) (decimation : Z) (fill : A) :
  0 < decimation -> 0 <= rows image -> 0 <= cols image ->
  let out := decimate_samples image decimation fill in
  rows out = rows image / decimation /\
  cols out = cols image / decimation /\
  forall j i, 0 <= j < rows out -> 0 <= i < cols out ->
    at_ out j i = at_ image (j * decimation) (i * decimation).
Proof.
  intros Hd Hr Hc. unfold decimate_samples. rewrite for_pixels_scan_order.
  rewrite !Z.quot_div_nonneg by lia.
  destruct (fold_set_at (fun j i => at_ image (j * decimation) (i * decimation))
              (scan_order (rows image / decimation) (cols image / decimation))
              (constant (rows image / decimation) (cols image / decimation) fill))
    as (H1 & H2 & H3).
  cbv zeta. rewrite H1, H2. cbn [constant rows cols].
  split; [reflexivity|]. split; [reflexivity|]. intros j i Hj Hi.
  rewrite H3, visited_scan_order by assumption. reflexivity.
Qed.

Lemma decimate_exact (image : DepthImage) (decimation : Z) :
  1 < decimation ->
  0 < depth_rows image -> 0 < depth_cols image ->
  Z.rem (depth_rows image) decimation = 0 ->
  Z.rem (depth_cols image) decimation = 0 ->
  exists out,
    decimate image decimation = Some out /\
    depth_rows out = depth_rows image / decimation /\
    depth_cols out = depth_cols image / decimation /\
    forall j i, 0 <= j < depth_rows out -> 0 <= i < depth_cols out ->
      sample_of out j i = sample_of image (j * decimation) (i * decimation).
Proof.
  intros Hd Hr Hc Hrr Hrc. unfold decimate.
  replace (decimation <? 1) with false by (symmetry; apply Z.ltb_ge; lia).
  replace (depth_rows image <=? 0) with false by (symmetry; apply Z.leb_gt; lia).
  replace (depth_cols image <=? 0) with false by (symmetry; apply Z.leb_gt; lia).
  replace (1 <? decimation) with true by (symmetry; apply Z.ltb_lt; lia).
  rewrite Hrr, Hrc. cbn [orb andb Z.eqb].
  destruct image as [m|m]; cbn [depth_rows depth_cols sample_of] in *.
  - destruct (decimate_samples_spec m decimation 0) as (H1 & H2 & H3); try lia.
    eexists. split; [reflexivity|]. cbn [depth_rows depth_cols sample_of].
    split; [exact H1|]. split; [exact H2|]. intros j i Hj Hi. f_equal. now apply H3.
  - destruct (decimate_samples_spec m decimation F32.zero) as (H1 & H2 & H3); try lia.
    eexists. split; [reflexivity|]. cbn [depth_rows depth_cols sample_of].
    split; [exact H1|]. split; [exact H2|]. intros j i Hj Hi. f_equal. now apply H3.
Qed.

(** [decimate] by more than 1 on a depth image whose size is a multiple of
    the decimation: the output has the size divided by it, and its pixel
    [(j, i)] is the pixel [(j * decimation, i * decimation)] of the input. *)
Theorem decimate_pixels (image : DepthImage) (decimation : Z) :
  1 < decimation ->
  0 < depth_rows image -> 0 < depth_cols image ->
  Z.rem (depth_rows image) decimation = 0 ->
  Z.rem (depth_cols image) decimation = 0 ->
  exists out,
    decimate image decimation = Some out /\
    depth_rows out = depth_rows image / decimation /\
    depth_cols out = depth_cols image / decimation /\
    forall j i, 0 <= j < depth_rows out -> 0 <= i < depth_cols out ->
      sample_of out j i = sample_of image (j * decimation) (i * decimation).
Proof.
  intros Hd Hr Hc Hrr Hrc.
  destruct (decimate_exact image decimation Hd Hr Hc Hrr Hrc) as (out & H).
  now exists out.
Qed.

Lemma decimate_pixels_witness :
  exists out,
    decimate Fixtures.depth_4x8 2 = Some out /\
    depth_rows out = depth_rows Fixtures.depth_4x8 / 2 /\
    depth_cols out = depth_cols Fixtures.depth_4x8 / 2 /\
    forall j i, 0 <= j < depth_rows out -> 0 <= i < depth_cols out ->
      sample_of out j i = sample_of Fixtures.depth_4x8 (j * 2) (i * 2).
Proof.
  apply (decimate_pixels Fixtures.depth_4x8 2); [lia | | | |]; reflexivity.
Defined.

(** [decimate] on a depth image fails exactly when the decimation is below
    1, or when it is above 1 and does not divide both sides of a non-empty
    image. *)
Theorem decimate_fails_iff (image : DepthImage) (decimation : Z) :
  decimate image decimation = None <->
  decimation < 1 \/
  (1 < decimation /\ 0 < depth_rows image /\ 0 < depth_cols image /\
   (Z.rem (depth_rows image) decimation <> 0 \/
    Z.rem (depth_cols image) decimation <> 0)).
Proof.
  unfold decimate.
  destruct (Z.ltb_spec decimation 1) as [H1|H1]; [split; [now left | reflexivity]|].
  destruct (Z.leb_spec (depth_rows image) 0) as [Hr|Hr]; cbn [orb].
  { split; [discriminate | intros [?|(_ & ? & _)]; lia]. }
  destruct (Z.leb_spec (depth_cols image) 0) as [Hc|Hc].
  { split; [discriminate | intros [?|(_ & _ & ? & _)]; lia]. }
  destruct (Z.ltb_spec 1 decimation) as [H2|H2].
  2:{ split; [discriminate | intros [?|(? & _)]; lia]. }
  destruct (Z.eqb_spec (Z.rem (depth_rows image) decimation) 0) as [E1|E1];
    destruct (Z.eqb_spec (Z.rem (depth_cols image) decimation) 0) as [E2|E2];
    cbn [andb]; split; try discriminate; try reflexivity;
    try (intros _; right; repeat split; try assumption; tauto).
  intros [?|(_ & _ & _ & [?|?])]; [lia | contradiction | contradiction].
Qed.

(** Decimating by [a] and then by [b] gives the image that decimating once
    by [a * b] gives. *)
Theorem decimate_twice (image : DepthImage) (a b : Z) :
  1 < a -> 1 < b ->
  0 < depth_rows image -> 0 < depth_cols image ->
  Z.rem (depth_rows image) (a * b) = 0 ->
  Z.rem (depth_cols image) (a * b) = 0 ->
  exists once first second,
    decimate image (a * b) = Some once /\
    decimate image a = Some first /\
    decimate first b = Some second /\
    same_depth second once.
Proof.
  intros Ha Hb Hr Hc Hrr Hrc.
  assert (Hab : 1 < a * b) by nia.
  rewrite Z.rem_mod_nonneg in Hrr, Hrc by lia.
  apply Z.mod_divide in Hrr; [|lia]. apply Z.mod_divide in Hrc; [|lia].
  destruct Hrr as [qr Hqr]. destruct Hrc as [qc Hqc].
  assert (Hqr0 : 0 < qr) by nia. assert (Hqc0 : 0 < qc) by nia.
  assert (Ra : depth_rows image / a = qr * b).
  { rewrite Hqr. replace (qr * (a * b)) with (qr * b * a) by ring.
    apply Z.div_mul. lia. }
  assert (Ca : depth_cols image / a = qc * b).
  { rewrite Hqc. replace (qc * (a * b)) with (qc * b * a) by ring.
    apply Z.div_mul. lia. }
  assert (Rab : depth_rows image / (a * b) = qr)
    by (rewrite Hqr; apply Z.div_mul; lia).
  assert (Cab : depth_cols image / (a * b) = qc)
    by (rewrite Hqc; apply Z.div_mul; lia).
  destruct (decimate_exact image (a * b)) as (once & E1 & R1 & C1 & P1); try lia.
  { rewrite Z.rem_mod_nonneg by lia. rewrite Hqr. apply Z.mod_mul. lia. }
  { rewrite Z.rem_mod_nonneg by lia. rewrite Hqc. apply Z.mod_mul. lia. }
  destruct (decimate_exact image a) as (first & E2 & R2 & C2 & P2); try lia.
  { rewrite Z.rem_mod_nonneg by lia. rewrite Hqr.
    replace (qr * (a * b)) with (qr * b * a) by ring. apply Z.mod_mul. lia. }
  { rewrite Z.rem_mod_nonneg by lia. rewrite Hqc.
    replace (qc * (a * b)) with (qc * b * a) by ring. apply Z.mod_mul. lia. }
  destruct (decimate_exact first b) as (second & E3 & R3 & C3 & P3); try lia.
  { rewrite Z.rem_mod_nonneg by lia. rewrite R2, Ra. apply Z.mod_mul. lia. }
  { rewrite Z.rem_mod_nonneg by lia. rewrite C2, Ca. apply Z.mod_mul. lia. }
  exists once, first, second. repeat split; try assumption.
  - rewrite R3, R2, Ra, R1, Rab. apply Z.div_mul. lia.
  - rewrite C3, C2, Ca, C1, Cab. apply Z.div_mul. lia.
  - intros v u Hv Hu.
    assert (Rq : depth_rows second = qr) by (rewrite R3, R2, Ra; apply Z.div_mul; lia).
    assert (Cq : depth_cols second = qc) by (rewrite C3, C2, Ca; apply Z.div_mul; lia).
    rewrite P3 by assumption.
    rewrite P2 by (rewrite ?R2, ?C2, ?Ra, ?Ca; nia).
    rewrite P1 by (rewrite ?R1, ?C1, ?Rab, ?Cab; lia).
    f_equal; ring.
Qed.

Lemma decimate_twice_witness :
  exists once first second,
    decimate Fixtures.depth_4x8 (2 * 2) = Some once /\
    decimate Fixtures.depth_4x8 2 = Some first /\
    decimate first 2 = Some second /\
    same_depth second once.
Proof.
  apply (decimate_twice Fixtures.depth_4x8 2 2); try lia; reflexivity.
Defined.
(** ** [depthFromDisparity] *)

(** A float above zero is a positive finite float or [+inf]. *)
Lemma gtb_zero_cases (d : float) :
  F32.gtb d F32.zero = true ->
  d = S754_infinity false \/ exists m e, d = S754_finite false m e.
Proof.
  destruct d as [s|s| |s m e]; try discriminate; destruct s; try discriminate.
  - now left.
  - right. now exists m, e.
Qed.

(** The product of a positive float by [1000.0f]: [+0], [+inf], or a
    positive float of at most 24 bits. *)
Lemma mul_thousand_shape (m : positive) (e : Z) :
  exists m2 e2,
    0 <= m2 < 2 ^ 24 /\
    F32.mul (S754_finite false m e) thousand = rounded 24 128 false m2 e2.
Proof.
  rewrite thousand_eq. unfold F32.mul, SFmul, F32.prec, F32.emax. cbn [xorb].
  assert (Hdig : 24 <= Zpos (digits2_pos (m * 16384000))).
  { apply (Zdigits2_ge _ 23); [lia|]. change (2 ^ 23) with 8388608. lia. }
  destruct (binary_round_aux_exact 24 128 ltac:(lia) false (m * 16384000) (e + -14))
    as (m2 & k & Hk & Hm2 & Heq & _ & Hcan & _).
  { rewrite fexp_eq. lia. }
  exists m2, (e + -14 + k). split; [|exact Heq].
  destruct m2 as [|p2|p2]; try lia.
  specialize (Hcan ltac:(lia)). cbn [Zdigits2] in Hcan.
  destruct (canonical_bounds _ _ Hcan) as (_ & B & _). lia.
Qed.

(** The narrowing of [d * 1000.0f] to [unsigned short] is defined whenever
    [d > 0] and the product is at most [65535.0f]. *)
Lemma quantize_defined (d : float) :
  F32.gtb d F32.zero = true ->
  F32.leb (F32.mul d thousand) (F32.of_Z USHRT_MAX) = true ->
  exists mm, to_ushort (F32.mul d thousand) = Some mm /\ 0 <= mm <= 65535.
Proof.
  intros Hpos Hle. destruct (gtb_zero_cases d Hpos) as [->|(m & e & ->)].
  - discriminate Hle.
  - destruct (mul_thousand_shape m e) as (m2 & e2 & Hm2 & Heq).
    rewrite Heq in *. unfold rounded in *.
    destruct m2 as [|p2|p2]; try lia.
    + exists 0. split; [reflexivity | lia].
    + destruct (e2 <=? 128 - 24); [|discriminate Hle].
      apply leb_ushrt_max in Hle.
      replace e2 with (e2 + 14 - 14 + 0) in Hle by lia.
      destruct (fits_negative_exponent (e2 + 14) (Zpos p2) 0 ltac:(lia)
                  ltac:(lia) Hle) as [He2 Hb].
      replace (e2 + 14 - 14 + 0) with e2 in * by lia.
      assert (Hc : 0 < 2 ^ (- e2)) by (apply pow2_pos; lia).
      assert (Hq : 0 <= Zpos p2 / 2 ^ (- e2) <= 65535).
      { split; [apply Z.div_pos; lia|].
        apply Z.div_le_upper_bound; lia. }
      exists (Zpos p2 / 2 ^ (- e2)). split; [|exact Hq].
      unfold to_ushort, to_integer, trunc.
      replace (0 <=? e2) with false by (symmetry; apply Z.leb_gt; lia).
      cbn [cond_Zopp].
      replace ((0 <=? Zpos p2 / 2 ^ (- e2)) && (Zpos p2 / 2 ^ (- e2) <=? 65535))
        with true; [reflexivity|].
      symmetry. apply andb_true_iff. split; apply Z.leb_le; lia.
Qed.

Lemma depth_quotient_positive (fx baseline dv d : float) :
  depth_quotient fx baseline dv = Some d -> F32.gtb d F32.zero = true.
Proof.
  unfold depth_quotient. destruct (F32.gtb dv F32.zero); [|discriminate].
  destruct (F32.gtb (F32.div (F32.mul baseline fx) dv) F32.zero) eqn:E;
    [|discriminate].
  intros H. injection H as <-. exact E.
Qed.

Lemma quantize_range (d : float) (mm : Z) :
  quantize d = Some mm -> 0 <= mm <= 65535.
Proof.
  unfold quantize, to_ushort, to_integer.
  destruct (F32.leb _ _); [|discriminate].
  destruct (trunc _) as [z|]; [|discriminate].
  destruct ((0 <=? z) && (z <=? 65535)) eqn:E; [|discriminate].
  intros H. injection H as <-. apply andb_true_iff in E.
  destruct E as [E1 E2]. apply Z.leb_le in E1, E2. lia.
Qed.

(** Pixels assigned or skipped one by one. *)
Lemma fold_assign {A : Type} (g : Z -> Z -> option A) (l : list (Z * Z)) :
  forall m0 : Mat A,
    let m := fold_left (fun acc p =>
                          match g (fst p) (snd p) with
                          | Some x => set_at acc (fst p) (snd p) x
                          | None => acc
                          end) l m0 in
    rows m = rows m0 /\ cols m = cols m0 /\
    forall v u, at_ m v u =
                if visited l v u
                then match g v u with Some x => x | None => at_ m0 v u end
                else at_ m0 v u.
Proof.
  induction l as [|[y x] l IH]; intros m0; cbn [fold_left fst snd].
  - repeat split.
  - set (m1 := match g y x with Some x0 => set_at m0 y x x0 | None => m0 end).
    destruct (IH m1) as (Hr & Hc & Hat).
    assert (Hd : rows m1 = rows m0 /\ cols m1 = cols m0)
      by (subst m1; destruct (g y x); split; reflexivity).
    split; [rewrite Hr; apply Hd|]. split; [rewrite Hc; apply Hd|].
    intros v u. rewrite Hat. unfold visited. cbn [existsb fst snd].
    destruct ((v =? y) && (u =? x)) eqn:E; cbn [orb].
    + apply andb_true_iff in E. destruct E as [E1 E2].
      apply Z.eqb_eq in E1, E2. subst v u.
      subst m1. destruct (g y x) as [x0|].
      * cbn [set_at at_]. rewrite !Z.eqb_refl. cbn [andb].
        now destruct (existsb _ l).
      * now destruct (existsb _ l).
    + assert (Hm1 : at_ m1 v u = at_ m0 v u).
      { subst m1. destruct (g y x); [|reflexivity].
        cbn [set_at at_]. now rewrite E. }
      now rewrite Hm1.
Qed.

Lemma length_range_from (n : nat) (lo : Z) : length (range_from n lo) = n.
Proof. revert lo. induction n as [|n IH]; intros lo; cbn; [reflexivity | now rewrite IH]. Qed.

Lemma length_range (lo hi : Z) : Z.of_nat (length (range lo hi)) = Z.max 0 (hi - lo).
Proof. unfold range. rewrite length_range_from. lia. Qed.

Lemma length_scan_order (r c : Z) :
  0 <= r -> 0 <= c -> Z.of_nat (length (scan_order r c)) = r * c.
Proof.
  intros Hr Hc. unfold scan_order.
  assert (H : forall l : list Z,
             length (flat_map (fun y => map (fun x => (y, x)) (range 0 c)) l)
             = (length l * length (range 0 c))%nat).
  { induction l as [|y l IH]; [reflexivity|].
    cbn [flat_map length]. rewrite length_app, length_map, IH. lia. }
  rewrite H, Nat2Z.inj_mul, !length_range. lia.
Qed.

(** The loops on a float depth image. *)
Lemma depth_loops_32 (disparity : DisparityImage) (fx baseline : float)
      (l : list (Z * Z)) :
  forall (m : Mat float) (n : Z),
    fold_left (fun st p => depth_pixel disparity fx baseline (fst p) (snd p) st) l
              (Some (Depth32FC1 m, n)) =
    Some (Depth32FC1
            (fold_left (fun acc p =>
                          match depth_quotient fx baseline
                                  (disparity_value disparity (fst p) (snd p)) with
                          | Some d => set_at acc (fst p) (snd p) d
                          | None => acc
                          end) l m), n).
Proof.
  induction l as [|p l IH]; intros m n; cbn [fold_left]; [reflexivity|].
  unfold depth_pixel at 2. unfold depth_quotient at 2.
  destruct (F32.gtb (disparity_value disparity (fst p) (snd p)) F32.zero);
    [|apply IH].
  cbv zeta.
  destruct (F32.gtb (F32.div (F32.mul baseline fx)
                             (disparity_value disparity (fst p) (snd p))) F32.zero);
    [|apply IH].
  cbn [store_depth]. rewrite Z.add_0_r. apply IH.
Qed.

(** The loops on a 16-bit depth image: no narrowing is undefined. *)
Lemma depth_loops_16 (disparity : DisparityImage) (fx baseline : float)
      (l : list (Z * Z)) :
  forall (m : Mat Z) (n : Z),
    exists n',
      n <= n' <= n + Z.of_nat (length l) /\
      fold_left (fun st p => depth_pixel disparity fx baseline (fst p) (snd p) st) l
                (Some (Depth16UC1 m, n)) =
      Some (Depth16UC1
              (fold_left (fun acc p =>
                            match match depth_quotient fx baseline
                                          (disparity_value disparity (fst p) (snd p)) with
                                  | Some d => quantize d
                                  | None => None
                                  end with
                            | Some mm => set_at acc (fst p) (snd p) mm
                            | None => acc
                            end) l m), n').
Proof.
  induction l as [|p l IH]; intros m n; cbn [fold_left length].
  - exists n. split; [lia | reflexivity].
  - unfold depth_pixel at 2.
    pose proof (depth_quotient_positive fx baseline
                  (disparity_value disparity (fst p) (snd p))) as Hq.
    unfold depth_quotient in *.
    destruct (F32.gtb (disparity_value disparity (fst p) (snd p)) F32.zero).
    2:{ destruct (IH m n) as (n' & Hn & E). exists n'. split; [lia | exact E]. }
    cbv zeta in *.
    set (d := F32.div (F32.mul baseline fx)
                      (disparity_value disparity (fst p) (snd p))) in *.
    destruct (F32.gtb d F32.zero) eqn:Ed.
    2:{ destruct (IH m n) as (n' & Hn & E). exists n'. split; [lia | exact E]. }
    cbn [store_depth]. unfold quantize.
    destruct (F32.leb (F32.mul d thousand) (F32.of_Z USHRT_MAX)) eqn:Ele.
    + destruct (quantize_defined d Ed Ele) as (mm & Hmm & _). rewrite Hmm.
      rewrite Z.add_0_r.
      destruct (IH (set_at m (fst p) (snd p) mm) n) as (n' & Hn & E).
      exists n'. split; [lia | exact E].
    + destruct (IH m (n + 1)) as (n' & Hn & E).
      exists n'. split; [lia | exact E].
Qed.

(** [depthFromDisparity] is a map over the pixels. *)
Lemma depthFromDisparity_spec (disparity : DisparityImage) (fx baseline : float)
      (type : DepthType) :
  0 < disparity_rows disparity -> 0 < disparity_cols disparity ->
  exists depth countOverMax,
    depthFromDisparity disparity fx baseline type = Some (depth, countOverMax) /\
    has_type depth type = true /\
    depth_rows depth = disparity_rows disparity /\
    depth_cols depth = disparity_cols disparity /\
    0 <= countOverMax <= disparity_rows disparity * disparity_cols disparity /\
    (type = CV_32FC1 -> countOverMax = 0) /\
    forall i j, 0 <= i < disparity_rows disparity ->
                0 <= j < disparity_cols disparity ->
      sample_of depth i j =
      depth_value type fx baseline (disparity_value disparity i j).
Proof.
  intros Hr Hc. unfold depthFromDisparity.
  replace (disparity_rows disparity <=? 0) with false by (symmetry; apply Z.leb_gt; lia).
  replace (disparity_cols disparity <=? 0) with false by (symmetry; apply Z.leb_gt; lia).
  cbn [orb]. rewrite for_pixels_scan_order.
  set (r := disparity_rows disparity) in *. set (c := disparity_cols disparity) in *.
  destruct type; cbn [depth_zeros].
  - rewrite depth_loops_32.
    destruct (fold_assign (fun i j => depth_quotient fx baseline
                                        (disparity_value disparity i j))
                (scan_order r c) (constant r c F32.zero)) as (H1 & H2 & H3).
    eexists. exists 0. split; [reflexivity|]. cbn [has_type depth_rows depth_cols sample_of].
    split; [reflexivity|]. split; [exact H1|]. split; [exact H2|].
    split; [nia|]. split; [reflexivity|]. intros i j Hi Hj.
    rewrite H3, visited_scan_order by assumption. unfold depth_value.
    now destruct (depth_quotient _ _ _).
  - destruct (depth_loops_16 disparity fx baseline (scan_order r c) (constant r c 0) 0)
      as (n' & Hn & E).
    rewrite E.
    destruct (fold_assign (fun i j => match depth_quotient fx baseline
                                              (disparity_value disparity i j) with
                                      | Some d => quantize d
                                      | None => None
                                      end)
                (scan_order r c) (constant r c 0)) as (H1 & H2 & H3).
    eexists. exists n'. split; [reflexivity|]. cbn [has_type depth_rows depth_cols sample_of].
    split; [reflexivity|]. split; [exact H1|]. split; [exact H2|].
    split.
    { rewrite length_scan_order in Hn by lia. lia. }
    split; [discriminate|]. intros i j Hi Hj.
    rewrite H3, visited_scan_order by assumption. unfold depth_value.
    cbn [constant at_]. now destruct (depth_quotient _ _ _) as [d|]; [destruct (quantize d)|].
Qed.

(** [depthFromDisparity] returns on every non-empty disparity image,
    whatever the focal length and the baseline: no narrowing to
    [unsigned short] is undefined.  The depth image has the requested
    type and the size of the disparity, a 16-bit one holds 16-bit values,
    and at most every pixel is counted as over the maximum. *)
Theorem depthFromDisparity_defined (disparity : DisparityImage)
        (fx baseline : float) (type : DepthType) :
  0 < disparity_rows disparity -> 0 < disparity_cols disparity ->
  exists depth countOverMax,
    depthFromDisparity disparity fx baseline type = Some (depth, countOverMax) /\
    has_type depth type = true /\
    depth_rows depth = disparity_rows disparity /\
    depth_cols depth = disparity_cols disparity /\
    samples_in_ushort depth /\
    0 <= countOverMax <= disparity_rows disparity * disparity_cols disparity.
Proof.
  intros Hr Hc.
  destruct (depthFromDisparity_spec disparity fx baseline type Hr Hc)
    as (depth & n & E & Ht & Hrows & Hcols & Hn & _ & Hat).
  exists depth, n. repeat split; try assumption; try lia.
  destruct depth as [m|m]; [|exact I]. cbn [samples_in_ushort].
  cbn [depth_rows depth_cols] in *. intros v u Hv Hu.
  specialize (Hat v u ltac:(lia) ltac:(lia)). cbn [sample_of] in Hat.
  destruct type; [discriminate Ht|]. unfold depth_value in Hat.
  destruct (depth_quotient _ _ _) as [d|]; [|injection Hat as ->; lia].
  destruct (quantize d) as [mm|] eqn:Eq; injection Hat as ->; [|lia].
  now apply quantize_range in Eq.
Qed.

Lemma depthFromDisparity_defined_witness :
  exists depth countOverMax,
    depthFromDisparity Fixtures.disparity_16 (F32.of_Z 500) (F32.lit 1 10) CV_16UC1
      = Some (depth, countOverMax) /\
    has_type depth CV_16UC1 = true /\
    depth_rows depth = disparity_rows Fixtures.disparity_16 /\
    depth_cols depth = disparity_cols Fixtures.disparity_16 /\
    samples_in_ushort depth /\
    0 <= countOverMax <=
      disparity_rows Fixtures.disparity_16 * disparity_cols Fixtures.disparity_16.
Proof.
  apply (depthFromDisparity_defined Fixtures.disparity_16); reflexivity.
Defined.

(** A pixel whose disparity is not above zero (zero, negative or NaN) is
    left at zero, in both depth types. *)
Theorem depthFromDisparity_without_disparity (disparity : DisparityImage)
        (fx baseline : float) (type : DepthType) (depth : DepthImage)
        (countOverMax i j : Z) :
  depthFromDisparity disparity fx baseline type = Some (depth, countOverMax) ->
  0 <= i < disparity_rows disparity -> 0 <= j < disparity_cols disparity ->
  F32.gtb (disparity_value disparity i j) F32.zero = false ->
  sample_of depth i j = zero_sample type.
Proof.
  intros E Hi Hj Hd.
  destruct (depthFromDisparity_spec disparity fx baseline type ltac:(lia) ltac:(lia))
    as (depth' & n & E' & _ & _ & _ & _ & _ & Hat).
  rewrite E in E'. injection E' as <- <-.
  rewrite Hat by assumption. unfold depth_value, depth_quotient. rewrite Hd.
  now destruct type.
Qed.

Lemma depthFromDisparity_without_disparity_witness :
  exists depth countOverMax,
    depthFromDisparity Fixtures.disparity_32 (F32.of_Z 500) (F32.lit 1 10) CV_32FC1
      = Some (depth, countOverMax) /\
    sample_of depth 0 2 = zero_sample CV_32FC1.
Proof.
  destruct (depthFromDisparity Fixtures.disparity_32 (F32.of_Z 500) (F32.lit 1 10)
                               CV_32FC1) as [[depth n]|] eqn:E;
    [|vm_compute in E; discriminate].
  exists depth, n. split; [reflexivity|].
  apply (depthFromDisparity_without_disparity Fixtures.disparity_32 (F32.of_Z 500)
           (F32.lit 1 10) CV_32FC1 depth n 0 2 E); [cbn; lia | cbn; lia | reflexivity].
Defined.

(** With a float depth image nothing is counted, and a pixel of positive
    disparity whose depth [baseline * fx / disparity] is positive holds
    that depth. *)
Theorem depthFromDisparity_float (disparity : DisparityImage)
        (fx baseline : float) (depth : DepthImage) (countOverMax : Z) :
  depthFromDisparity disparity fx baseline CV_32FC1 = Some (depth, countOverMax) ->
  countOverMax = 0 /\
  forall i j, 0 <= i < disparity_rows disparity -> 0 <= j < disparity_cols disparity ->
    let d := F32.div (F32.mul baseline fx) (disparity_value disparity i j) in
    F32.gtb (disparity_value disparity i j) F32.zero = true ->
    F32.gtb d F32.zero = true ->
    sample_of depth i j = inr d.
Proof.
  intros E.
  assert (Hne : 0 < disparity_rows disparity /\ 0 < disparity_cols disparity).
  { unfold depthFromDisparity in E.
    destruct (Z.leb_spec (disparity_rows disparity) 0); [discriminate E|].
    destruct (Z.leb_spec (disparity_cols disparity) 0); [discriminate E|]. lia. }
  destruct (depthFromDisparity_spec disparity fx baseline CV_32FC1
              (proj1 Hne) (proj2 Hne))
    as (depth' & n & E' & _ & _ & _ & _ & Hn & Hat).
  rewrite E in E'. injection E' as <- <-.
  split; [now apply Hn|]. intros i j Hi Hj d H1 H2.
  rewrite Hat by assumption. unfold depth_value, depth_quotient.
  rewrite H1. fold d. now rewrite H2.
Qed.

Lemma depthFromDisparity_float_witness :
  exists depth countOverMax,
    depthFromDisparity Fixtures.disparity_32 (F32.of_Z 500) (F32.lit 1 10) CV_32FC1
      = Some (depth, countOverMax) /\
    countOverMax = 0 /\
    forall i j, 0 <= i < disparity_rows Fixtures.disparity_32 ->
                0 <= j < disparity_cols Fixtures.disparity_32 ->
      let d := F32.div (F32.mul (F32.lit 1 10) (F32.of_Z 500))
                       (disparity_value Fixtures.disparity_32 i j) in
      F32.gtb (disparity_value Fixtures.disparity_32 i j) F32.zero = true ->
      F32.gtb d F32.zero = true ->
      sample_of depth i j = inr d.
Proof.
  destruct (depthFromDisparity Fixtures.disparity_32 (F32.of_Z 500) (F32.lit 1 10)
                               CV_32FC1) as [[depth n]|] eqn:E;
    [|vm_compute in E; discriminate].
  exists depth, n. split; [reflexivity|].
  exact (depthFromDisparity_float Fixtures.disparity_32 (F32.of_Z 500)
           (F32.lit 1 10) depth n E).
Defined.

(** Every pixel of the depth depends on the disparity of that pixel alone:
    two pixels of the same disparity, in one image or in two, get the same
    depth. *)
Theorem depthFromDisparity_pixelwise (disparity disparity' : DisparityImage)
        (fx baseline : float) (type : DepthType) (depth depth' : DepthImage)
        (n n' i j i' j' : Z) :
  depthFromDisparity disparity fx baseline type = Some (depth, n) ->
  depthFromDisparity disparity' fx baseline type = Some (depth', n') ->
  0 <= i < disparity_rows disparity -> 0 <= j < disparity_cols disparity ->
  0 <= i' < disparity_rows disparity' -> 0 <= j' < disparity_cols disparity' ->
  disparity_value disparity i j = disparity_value disparity' i' j' ->
  sample_of depth i j = sample_of depth' i' j'.
Proof.
  intros E E' Hi Hj Hi' Hj' Hd.
  destruct (depthFromDisparity_spec disparity fx baseline type ltac:(lia) ltac:(lia))
    as (d1 & n1 & E1 & _ & _ & _ & _ & _ & Hat).
  destruct (depthFromDisparity_spec disparity' fx baseline type ltac:(lia) ltac:(lia))
    as (d2 & n2 & E2 & _ & _ & _ & _ & _ & Hat').
  rewrite E in E1. injection E1 as <- <-.
  rewrite E' in E2. injection E2 as <- <-.
  rewrite Hat, Hat' by assumption. now rewrite Hd.
Qed.

Lemma depthFromDisparity_pixelwise_witness :
  exists depth depth' n n',
    depthFromDisparity Fixtures.disparity_16 (F32.of_Z 500) (F32.lit 1 10) CV_16UC1
      = Some (depth, n) /\
    depthFromDisparity Fixtures.disparity_32 (F32.of_Z 500) (F32.lit 1 10) CV_16UC1
      = Some (depth', n') /\
    sample_of depth 1 1 = sample_of depth' 1 1.
Proof.
  destruct (depthFromDisparity Fixtures.disparity_16 (F32.of_Z 500) (F32.lit 1 10)
                               CV_16UC1) as [[depth n]|] eqn:E;
    [|vm_compute in E; discriminate].
  destruct (depthFromDisparity Fixtures.disparity_32 (F32.of_Z 500) (F32.lit 1 10)
                               CV_16UC1) as [[depth' n']|] eqn:E';
    [|vm_compute in E'; discriminate].
  exists depth, depth', n, n'. split; [reflexivity|]. split; [reflexivity|].
  apply (depthFromDisparity_pixelwise Fixtures.disparity_16 Fixtures.disparity_32
           (F32.of_Z 500) (F32.lit 1 10) CV_16UC1 depth depth' n n' 1 1 1 1 E E');
    try (cbn; lia). reflexivity.
Defined.
(** ** [disparityFromStereoCorrespondences] *)

Section DisparityFromCorrespondences.
Variable disparitySize : Z * Z.
Variables leftCorners rightCorners : list Point2f.
Variable mask : list Z.

Local Notation "'body'" :=
  (fun (st : option (Mat float)) (i : Z) =>
     disparity_corner disparitySize leftCorners rightCorners mask i st).

(** The corner [i] takes part and is stored at row [v], column [u]: the
    row is the rounded [x] and the column the rounded [y]. *)
Local Notation "'stored_at' i v u" :=
  (mask_at mask i = true /\
   to_int (F32.add (fst (corner_at leftCorners i)) half) = Some v /\
   to_int (F32.add (snd (corner_at leftCorners i)) half) = Some u)
  (at level 10, i at level 9, v at level 9, u at level 9).

Lemma disparity_fold_none (idx : list Z) : fold_left body idx None = None.
Proof. induction idx as [|i idx IH]; [reflexivity | exact IH]. Qed.

Lemma disparity_corner_cases (i : Z) (m0 m : Mat float) :
  disparity_corner disparitySize leftCorners rightCorners mask i (Some m0) = Some m ->
  (mask_at mask i = false /\ m = m0) \/
  exists v u,
    stored_at i v u /\
    0 <= v < snd disparitySize /\ 0 <= u < fst disparitySize /\
    m = set_at m0 v u (F32.sub (fst (corner_at leftCorners i))
                               (fst (corner_at rightCorners i))).
Proof.
  unfold disparity_corner, uIsInBounds.
  destruct (mask_at mask i); [|intros H; injection H as <-; now left].
  destruct (to_int (F32.add (snd (corner_at leftCorners i)) half)) as [px|];
    [|discriminate].
  destruct (to_int (F32.add (fst (corner_at leftCorners i)) half)) as [py|];
    [|discriminate].
  destruct (Z.leb_spec 0 px); [|discriminate].
  destruct (Z.ltb_spec px (fst disparitySize)); [|discriminate].
  destruct (Z.leb_spec 0 py); [|discriminate].
  destruct (Z.ltb_spec py (snd disparitySize)); [|discriminate].
  cbn [andb]. intros Heq. injection Heq as <-. right. exists py, px.
  repeat split; try reflexivity; lia.
Qed.

Lemma disparity_fold_origin (idx : list Z) : forall m0 m,
  fold_left body idx (Some m0) = Some m ->
  rows m = rows m0 /\ cols m = cols m0 /\
  forall v u,
    at_ m v u = at_ m0 v u \/
    exists i, In i idx /\ stored_at i v u /\
              at_ m v u = F32.sub (fst (corner_at leftCorners i))
                                  (fst (corner_at rightCorners i)).
Proof.
  induction idx as [|i idx IH]; intros m0 m; cbn [fold_left].
  - intros H. injection H as <-. repeat split. now left.
  - destruct (disparity_corner disparitySize leftCorners rightCorners mask i (Some m0))
      as [m1|] eqn:E; [|rewrite disparity_fold_none; discriminate].
    intros H. destruct (IH m1 m H) as (Hr & Hc & Hat).
    destruct (disparity_corner_cases i m0 m1 E)
      as [[_ ->]|(v' & u' & Hst & Hv & Hu & ->)].
    + split; [exact Hr|]. split; [exact Hc|]. intros v u.
      destruct (Hat v u) as [H0|(k & Hk & Hs & Hval)]; [now left|].
      right. exists k. split; [now right|]. now split.
    + split; [exact Hr|]. split; [exact Hc|]. intros v u.
      destruct (Hat v u) as [H0|(k & Hk & Hs & Hval)].
      * rewrite H0. cbn [set_at at_].
        destruct ((v =? v') && (u =? u')) eqn:Evu; [|now left].
        apply andb_true_iff in Evu. destruct Evu as [E1 E2].
        apply Z.eqb_eq in E1, E2. subst v' u'.
        right. exists i. split; [now left|]. now split.
      * right. exists k. split; [now right|]. now split.
Qed.

Lemma disparity_fold_keeps (v u : Z) (idx : list Z) : forall m0 m,
  fold_left body idx (Some m0) = Some m ->
  (forall j, In j idx -> ~ stored_at j v u) ->
  at_ m v u = at_ m0 v u.
Proof.
  induction idx as [|i idx IH]; intros m0 m; cbn [fold_left].
  - intros H _. now injection H as <-.
  - destruct (disparity_corner disparitySize leftCorners rightCorners mask i (Some m0))
      as [m1|] eqn:E; [|rewrite disparity_fold_none; discriminate].
    intros H Hno. rewrite (IH m1 m H) by (intros j Hj; apply Hno; now right).
    destruct (disparity_corner_cases i m0 m1 E)
      as [[_ ->]|(v' & u' & Hst & Hv & Hu & ->)]; [reflexivity|].
    cbn [set_at at_].
    destruct ((v =? v') && (u =? u')) eqn:Evu; [|reflexivity].
    apply andb_true_iff in Evu. destruct Evu as [E1 E2].
    apply Z.eqb_eq in E1, E2. subst v' u'.
    exfalso. apply (Hno i); [now left | exact Hst].
Qed.

Lemma disparity_fold_defined (idx : list Z) : forall m0,
  fold_left body idx (Some m0) <> None <->
  forall i, In i idx -> mask_at mask i = true ->
    exists v u, to_int (F32.add (fst (corner_at leftCorners i)) half) = Some v /\
                to_int (F32.add (snd (corner_at leftCorners i)) half) = Some u /\
                0 <= v < snd disparitySize /\ 0 <= u < fst disparitySize.
Proof.
  induction idx as [|i idx IH]; intros m0; cbn [fold_left].
  - split; [intros _ i [] | discriminate].
  - destruct (disparity_corner disparitySize leftCorners rightCorners mask i (Some m0))
      as [m1|] eqn:E.
    + rewrite IH. split.
      * intros H j [<-|Hj] Hm; [|now apply H].
        destruct (disparity_corner_cases i m0 m1 E)
          as [[Hf _]|(v & u & (_ & Hv & Hu) & Bv & Bu & _)]; [congruence|].
        now exists v, u.
      * intros H j Hj. apply H. now right.
    + rewrite disparity_fold_none. split; [congruence|]. intros H. exfalso.
      unfold disparity_corner, uIsInBounds in E.
      destruct (mask_at mask i) eqn:Em; [|discriminate E].
      destruct (H i (or_introl eq_refl) Em) as (v & u & Hv & Hu & Bv & Bu).
      rewrite Hv, Hu in E.
      replace (0 <=? u) with true in E by (symmetry; apply Z.leb_le; lia).
      replace (u <? fst disparitySize) with true in E by (symmetry; apply Z.ltb_lt; lia).
      replace (0 <=? v) with true in E by (symmetry; apply Z.leb_le; lia).
      replace (v <? snd disparitySize) with true in E by (symmetry; apply Z.ltb_lt; lia).
      discriminate E.
Qed.

End DisparityFromCorrespondences.

(** [disparityFromStereoCorrespondences] returns a disparity image exactly
    when the sizes of the vectors agree and every corner that takes part
    has its rounded [x] below the height and its rounded [y] below the
    width of [disparitySize]. *)
Theorem disparityFromStereoCorrespondences_defined (disparitySize : Z * Z)
        (leftCorners rightCorners : list Point2f) (mask : list Z) :
  disparityFromStereoCorrespondences disparitySize leftCorners rightCorners mask
    <> None <->
  sizes_agree leftCorners rightCorners mask = true /\
  forall i, 0 <= i < Z.of_nat (length leftCorners) -> mask_at mask i = true ->
    exists v u, to_int (F32.add (fst (corner_at leftCorners i)) half) = Some v /\
                to_int (F32.add (snd (corner_at leftCorners i)) half) = Some u /\
                0 <= v < snd disparitySize /\ 0 <= u < fst disparitySize.
Proof.
  unfold disparityFromStereoCorrespondences, for_range.
  destruct (sizes_agree leftCorners rightCorners mask).
  - rewrite disparity_fold_defined. split.
    + intros H. split; [reflexivity|]. intros i Hi. apply H. now apply in_range.
    + intros [_ H] i Hi. apply H. now apply in_range in Hi.
  - split; [congruence | intros [H _]; discriminate H].
Qed.

(** The disparity image has [disparitySize] (width, height), and each of
    its pixels is zero or the disparity [left.x - right.x] of a corner
    that takes part; that corner's rounded [x] is the row and its rounded
    [y] the column of the pixel. *)
Theorem disparityFromStereoCorrespondences_pixels (disparitySize : Z * Z)
        (leftCorners rightCorners : list Point2f) (mask : list Z)
        (disparity : Mat float) :
  disparityFromStereoCorrespondences disparitySize leftCorners rightCorners mask
    = Some disparity ->
  rows disparity = snd disparitySize /\ cols disparity = fst disparitySize /\
  forall v u,
    at_ disparity v u = F32.zero \/
    exists i, 0 <= i < Z.of_nat (length leftCorners) /\
              mask_at mask i = true /\
              to_int (F32.add (fst (corner_at leftCorners i)) half) = Some v /\
              to_int (F32.add (snd (corner_at leftCorners i)) half) = Some u /\
              at_ disparity v u = F32.sub (fst (corner_at leftCorners i))
                                          (fst (corner_at rightCorners i)).
Proof.
  unfold disparityFromStereoCorrespondences, for_range.
  destruct (sizes_agree leftCorners rightCorners mask); [|discriminate].
  intros H. destruct (disparity_fold_origin _ _ _ _ _ _ _ H) as (Hr & Hc & Hat).
  split; [exact Hr|]. split; [exact Hc|]. intros v u.
  destruct (Hat v u) as [H0|(i & Hi & (Hm & Hv & Hu) & Hval)]; [now left|].
  right. exists i. apply in_range in Hi. repeat split; try assumption; lia.
Qed.

Lemma disparityFromStereoCorrespondences_pixels_witness :
  exists disparity,
    disparityFromStereoCorrespondences (3, 6) Fixtures.left_corners
                                       Fixtures.right_corners [] = Some disparity /\
    rows disparity = 6 /\ cols disparity = 3 /\
    forall v u,
      at_ disparity v u = F32.zero \/
      exists i, 0 <= i < Z.of_nat (length Fixtures.left_corners) /\
                mask_at [] i = true /\
                to_int (F32.add (fst (corner_at Fixtures.left_corners i)) half) = Some v /\
                to_int (F32.add (snd (corner_at Fixtures.left_corners i)) half) = Some u /\
                at_ disparity v u = F32.sub (fst (corner_at Fixtures.left_corners i))
                                            (fst (corner_at Fixtures.right_corners i)).
Proof.
  destruct (disparityFromStereoCorrespondences (3, 6) Fixtures.left_corners
              Fixtures.right_corners []) as [disparity|] eqn:E;
    [|vm_compute in E; discriminate].
  exists disparity. split; [reflexivity|].
  exact (disparityFromStereoCorrespondences_pixels (3, 6) Fixtures.left_corners
           Fixtures.right_corners [] disparity E).
Defined.

(** A corner that takes part, and whose pixel no other corner that takes
    part rounds to, has its disparity stored at the row of its rounded [x]
    and the column of its rounded [y]. *)
Theorem disparityFromStereoCorrespondences_stores (disparitySize : Z * Z)
        (leftCorners rightCorners : list Point2f) (mask : list Z)
        (disparity : Mat float) (i v u : Z) :
  disparityFromStereoCorrespondences disparitySize leftCorners rightCorners mask
    = Some disparity ->
  0 <= i < Z.of_nat (length leftCorners) ->
  mask_at mask i = true ->
  to_int (F32.add (fst (corner_at leftCorners i)) half) = Some v ->
  to_int (F32.add (snd (corner_at leftCorners i)) half) = Some u ->
  (forall j, 0 <= j < Z.of_nat (length leftCorners) -> j <> i ->
     mask_at mask j = true ->
     ~ (to_int (F32.add (fst (corner_at leftCorners j)) half) = Some v /\
        to_int (F32.add (snd (corner_at leftCorners j)) half) = Some u)) ->
  at_ disparity v u = F32.sub (fst (corner_at leftCorners i))
                              (fst (corner_at rightCorners i)).
Proof.
  unfold disparityFromStereoCorrespondences, for_range.
  destruct (sizes_agree leftCorners rightCorners mask); [|discriminate].
  intros H Hi Hm Hv Hu Hother.
  set (n := Z.of_nat (length leftCorners)) in *.
  assert (Hin : In i (range 0 n)) by now apply in_range.
  destruct (in_split _ _ Hin) as (l1 & l2 & Hsplit).
  pose proof (range_NoDup 0 n) as Hnd. rewrite Hsplit in Hnd, H.
  apply NoDup_remove_2 in Hnd.
  rewrite fold_left_app in H. cbn [fold_left] in H.
  destruct (fold_left
              (fun st k => disparity_corner disparitySize leftCorners rightCorners mask k st)
              l1 (Some (constant (snd disparitySize) (fst disparitySize) F32.zero)))
    as [m1|] eqn:E1.
  2:{ cbn [disparity_corner] in H. rewrite disparity_fold_none in H. discriminate H. }
  destruct (disparity_corner disparitySize leftCorners rightCorners mask i (Some m1))
    as [m2|] eqn:E2; [|rewrite disparity_fold_none in H; discriminate H].
  rewrite (disparity_fold_keeps _ _ _ _ v u l2 m2 disparity H).
  - destruct (disparity_corner_cases _ _ _ _ i m1 m2 E2)
      as [[Hf _]|(v' & u' & (_ & Hv' & Hu') & _ & _ & ->)]; [congruence|].
    rewrite Hv in Hv'. rewrite Hu in Hu'. injection Hv' as <-. injection Hu' as <-.
    cbn [set_at at_]. now rewrite !Z.eqb_refl.
  - intros j Hj (Hmj & Hvj & Huj).
    assert (Hjr : In j (range 0 n)) by (rewrite Hsplit; apply in_or_app; right; now right).
    apply in_range in Hjr.
    apply (Hother j Hjr); [|exact Hmj | now split].
    intros ->. apply Hnd. apply in_or_app. now right.
Qed.

Lemma disparityFromStereoCorrespondences_stores_witness :
  exists disparity,
    disparityFromStereoCorrespondences (3, 6) Fixtures.left_corners
                                       Fixtures.right_corners [] = Some disparity /\
    at_ disparity 3 1 = F32.sub (fst (corner_at Fixtures.left_corners 0))
                                (fst (corner_at Fixtures.right_corners 0)).
Proof.
  destruct (disparityFromStereoCorrespondences (3, 6) Fixtures.left_corners
              Fixtures.right_corners []) as [disparity|] eqn:E;
    [|vm_compute in E; discriminate].
  exists disparity. split; [reflexivity|].
  apply (disparityFromStereoCorrespondences_stores (3, 6) Fixtures.left_corners
           Fixtures.right_corners [] disparity 0 3 1 E);
    try reflexivity; [cbn; lia|].
  intros j Hj Hne _ [Hv _].
  assert (Hc : j = 1 \/ j = 2) by (cbn in Hj; lia).
  destruct Hc as [-> | ->]; vm_compute in Hv; discriminate Hv.
Defined.

(** ** [depthFromStereoCorrespondences] *)

Section DepthFromCorrespondences.
Variables leftCorners rightCorners : list Point2f.
Variable mask : list Z.
Variables fx baseline : float.

Local Notation "'body'" :=
  (fun (st : option (Mat float)) (i : Z) =>
     depth_corner leftCorners rightCorners mask fx baseline i st).

Local Notation "'disparity_of' i" :=
  (F32.sub (fst (corner_at leftCorners i)) (fst (corner_at rightCorners i)))
  (at level 10, i at level 9).

Lemma depth_fold_none (idx : list Z) : fold_left body idx None = None.
Proof. induction idx as [|i idx IH]; [reflexivity | exact IH]. Qed.

Lemma depth_corner_cases (i : Z) (m0 m : Mat float) :
  depth_corner leftCorners rightCorners mask fx baseline i (Some m0) = Some m ->
  ((mask_at mask i = false \/ F32.gtb (disparity_of i) F32.zero = false) /\ m = m0) \/
  exists v u,
    mask_at mask i = true /\ F32.gtb (disparity_of i) F32.zero = true /\
    to_int (F32.add (snd (corner_at leftCorners i)) half) = Some v /\
    to_int (F32.add (fst (corner_at leftCorners i)) half) = Some u /\
    0 <= v < rows m0 /\ 0 <= u < cols m0 /\
    m = set_at m0 v u (F32.div (F32.mul baseline fx) (disparity_of i)).
Proof.
  unfold depth_corner, uIsInBounds.
  destruct (mask_at mask i); [|intros Heq; injection Heq as <-; left; now split; [left|]].
  cbv zeta.
  destruct (F32.gtb (disparity_of i) F32.zero);
    [|intros Heq; injection Heq as <-; left; now split; [right|]].
  destruct (to_int (F32.add (snd (corner_at leftCorners i)) half)) as [v|];
    [|discriminate].
  destruct (to_int (F32.add (fst (corner_at leftCorners i)) half)) as [u|];
    [|discriminate].
  destruct (Z.leb_spec 0 v); [|discriminate].
  destruct (Z.ltb_spec v (rows m0)); [|discriminate].
  destruct (Z.leb_spec 0 u); [|discriminate].
  destruct (Z.ltb_spec u (cols m0)); [|discriminate].
  cbn [andb]. intros Heq. injection Heq as <-. right. exists v, u.
  repeat split; try reflexivity; lia.
Qed.

Lemma depth_fold_origin (idx : list Z) : forall m0 m,
  fold_left body idx (Some m0) = Some m ->
  rows m = rows m0 /\ cols m = cols m0 /\
  forall v u,
    at_ m v u = at_ m0 v u \/
    exists i, In i idx /\ mask_at mask i = true /\
              F32.gtb (disparity_of i) F32.zero = true /\
              to_int (F32.add (snd (corner_at leftCorners i)) half) = Some v /\
              to_int (F32.add (fst (corner_at leftCorners i)) half) = Some u /\
              at_ m v u = F32.div (F32.mul baseline fx) (disparity_of i).
Proof.
  induction idx as [|i idx IH]; intros m0 m; cbn [fold_left].
  - intros H. injection H as <-. repeat split. now left.
  - destruct (depth_corner leftCorners rightCorners mask fx baseline i (Some m0))
      as [m1|] eqn:E; [|rewrite depth_fold_none; discriminate].
    intros H. destruct (IH m1 m H) as (Hr & Hc & Hat).
    destruct (depth_corner_cases i m0 m1 E)
      as [[_ ->]|(v' & u' & Hm & Hd & Hv & Hu & Bv & Bu & ->)].
    + split; [exact Hr|]. split; [exact Hc|]. intros v u.
      destruct (Hat v u) as [H0|(k & Hk & Hrest)]; [now left|].
      right. exists k. split; [now right | exact Hrest].
    + split; [exact Hr|]. split; [exact Hc|]. intros v u.
      destruct (Hat v u) as [H0|(k & Hk & Hrest)].
      * rewrite H0. cbn [set_at at_].
        destruct ((v =? v') && (u =? u')) eqn:Evu; [|now left].
        apply andb_true_iff in Evu. destruct Evu as [E1 E2].
        apply Z.eqb_eq in E1, E2. subst v' u'.
        right. exists i. split; [now left|]. repeat split; assumption.
      * right. exists k. split; [now right | exact Hrest].
Qed.

(** Corners without a positive disparity are skipped before their
    coordinates are looked at. *)
Lemma depth_fold_skips (idx : list Z) : forall m0,
  (forall i, In i idx -> mask_at mask i = true ->
     F32.gtb (disparity_of i) F32.zero = false) ->
  fold_left body idx (Some m0) = Some m0.
Proof.
  induction idx as [|i idx IH]; intros m0 H; cbn [fold_left]; [reflexivity|].
  assert (E : depth_corner leftCorners rightCorners mask fx baseline i (Some m0)
              = Some m0).
  { unfold depth_corner. destruct (mask_at mask i) eqn:Em; [|reflexivity].
    cbv zeta. now rewrite (H i (or_introl eq_refl) Em). }
  rewrite E. apply IH. intros j Hj. apply H. now right.
Qed.

End DepthFromCorrespondences.

(** The depth image has the size of the left image, and each of its pixels
    is zero or the depth [baseline * fx / disparity] of a corner that takes
    part and has a positive disparity [left.x - right.x]; that corner's
    rounded [y] is the row and its rounded [x] the column of the pixel. *)
Theorem depthFromStereoCorrespondences_pixels {A : Type} (leftImage : Mat A)
        (leftCorners rightCorners : list Point2f) (mask : list Z)
        (fx baseline : float) (depth : Mat float) :
  depthFromStereoCorrespondences leftImage leftCorners rightCorners mask fx baseline
    = Some depth ->
  rows depth = rows leftImage /\ cols depth = cols leftImage /\
  forall v u,
    at_ depth v u = F32.zero \/
    exists i, 0 <= i < Z.of_nat (length leftCorners) /\
              mask_at mask i = true /\
              let disparity := F32.sub (fst (corner_at leftCorners i))
                                       (fst (corner_at rightCorners i)) in
              F32.gtb disparity F32.zero = true /\
              to_int (F32.add (snd (corner_at leftCorners i)) half) = Some v /\
              to_int (F32.add (fst (corner_at leftCorners i)) half) = Some u /\
              at_ depth v u = F32.div (F32.mul baseline fx) disparity.
Proof.
  unfold depthFromStereoCorrespondences, for_range.
  destruct (negb (mat_empty leftImage) && sizes_agree leftCorners rightCorners mask);
    [|discriminate].
  intros H. destruct (depth_fold_origin _ _ _ _ _ _ _ _ H) as (Hr & Hc & Hat).
  split; [exact Hr|]. split; [exact Hc|]. intros v u.
  destruct (Hat v u) as [H0|(i & Hi & Hrest)]; [now left|].
  right. exists i. apply in_range in Hi. split; [lia | exact Hrest].
Qed.

Lemma depthFromStereoCorrespondences_pixels_witness :
  exists depth,
    depthFromStereoCorrespondences Fixtures.column_holes Fixtures.left_corners
      [(F32.of_Z 1, F32.of_Z 1); (F32.of_Z 5, F32.of_Z 0); (F32.of_Z 3, F32.of_Z 2)]
      [1; 1; 1] (F32.of_Z 500) (F32.lit 1 10) = Some depth /\
    rows depth = rows Fixtures.column_holes /\ cols depth = cols Fixtures.column_holes.
Proof.
  destruct (depthFromStereoCorrespondences Fixtures.column_holes Fixtures.left_corners
      [(F32.of_Z 1, F32.of_Z 1); (F32.of_Z 5, F32.of_Z 0); (F32.of_Z 3, F32.of_Z 2)]
      [1; 1; 1] (F32.of_Z 500) (F32.lit 1 10)) as [depth|] eqn:E;
    [|vm_compute in E; discriminate].
  exists depth. split; [reflexivity|].
  destruct (depthFromStereoCorrespondences_pixels Fixtures.column_holes Fixtures.left_corners
      [(F32.of_Z 1, F32.of_Z 1); (F32.of_Z 5, F32.of_Z 0); (F32.of_Z 3, F32.of_Z 2)]
      [1; 1; 1] (F32.of_Z 500) (F32.lit 1 10) depth E) as (Hr & Hc & _).
  split; assumption.
Defined.

(** When no corner that takes part has a positive disparity, the depth is
    the image of zeros, wherever the corners are: the coordinates of a
    corner without positive disparity are never converted. *)
Theorem depthFromStereoCorrespondences_without_disparity {A : Type}
        (leftImage : Mat A) (leftCorners rightCorners : list Point2f)
        (mask : list Z) (fx baseline : float) :
  mat_empty leftImage = false ->
  sizes_agree leftCorners rightCorners mask = true ->
  (forall i, 0 <= i < Z.of_nat (length leftCorners) -> mask_at mask i = true ->
     F32.gtb (F32.sub (fst (corner_at leftCorners i))
                      (fst (corner_at rightCorners i))) F32.zero = false) ->
  depthFromStereoCorrespondences leftImage leftCorners rightCorners mask fx baseline
  = Some (constant (rows leftImage) (cols leftImage) F32.zero).
Proof.
  intros He Hs H. unfold depthFromStereoCorrespondences, for_range.
  rewrite He, Hs. cbn [negb andb]. apply depth_fold_skips.
  intros i Hi. apply H. now apply in_range in Hi.
Qed.

Lemma depthFromStereoCorrespondences_without_disparity_witness :
  depthFromStereoCorrespondences Fixtures.flat
    [(F32.of_Z 100, F32.of_Z (-7)); (S754_nan, S754_nan)]
    [(F32.of_Z 100, F32.of_Z 0); (F32.of_Z 1, F32.of_Z 1)] []
    (F32.of_Z 500) (F32.lit 1 10)
  = Some (constant (rows Fixtures.flat) (cols Fixtures.flat) F32.zero).
Proof.
  apply (depthFromStereoCorrespondences_without_disparity Fixtures.flat);
    try reflexivity.
  intros i Hi _. assert (Hc : i = 0 \/ i = 1) by (cbn in Hi; lia).
  destruct Hc as [-> | ->]; reflexivity.
Defined.
(** ** [getDepth] *)

Lemma Forall_snoc {A : Type} (P : A -> Prop) (l : list A) (x : A) :
  Forall P l -> P x -> Forall P (l ++ [x]).
Proof. intros Hl Hx. apply Forall_app. split; [exact Hl | now constructor]. Qed.

(** Every sample [getDepth] reads lies inside the image, with or without
    smoothing, at the border as in the middle. *)
Theorem getDepth_reads_inside (depthImage : DepthImage) (x y : float)
        (smoothing : bool) (maxZError : float) (depth : float)
        (samples : list (Z * Z)) :
  getDepth depthImage x y smoothing maxZError = Some (depth, samples) ->
  Forall (fun p => 0 <= fst p < depth_rows depthImage /\
                   0 <= snd p < depth_cols depthImage) samples.
Proof.
  unfold getDepth.
  destruct ((depth_rows depthImage <=? 0) || (depth_cols depthImage <=? 0));
    [discriminate|].
  destruct (to_int (F32.add x half)) as [u|]; [|discriminate].
  destruct (to_int (F32.add y half)) as [v|]; [|discriminate].
  destruct ((0 <=? u) && (u <? depth_cols depthImage) &&
            (0 <=? v) && (v <? depth_rows depthImage)) eqn:E; cbn [negb].
  2:{ intros H. injection H as <- <-. constructor. }
  rewrite !andb_true_iff, !Z.leb_le, !Z.ltb_lt in E.
  assert (Hc : Forall (fun p => 0 <= fst p < depth_rows depthImage /\
                                0 <= snd p < depth_cols depthImage) [(v, u)])
    by (constructor; [cbn [fst snd]; lia | constructor]).
  cbv zeta.
  destruct (F32.neqb (depth_sample depthImage v u) F32.zero &&
            uIsFinite (depth_sample depthImage v u)).
  2:{ intros H. injection H as <- <-. exact Hc. }
  destruct smoothing.
  2:{ intros H. injection H as <- <-. exact Hc. }
  intros H. injection H as <- <-.
  apply (for_range_invariant
           (fun s => Forall (fun p => 0 <= fst p < depth_rows depthImage /\
                                      0 <= snd p < depth_cols depthImage) (reads s)));
    [exact Hc|].
  intros uu s Huu Hs.
  apply (for_range_invariant
           (fun s => Forall (fun p => 0 <= fst p < depth_rows depthImage /\
                                      0 <= snd p < depth_cols depthImage) (reads s)));
    [exact Hs|].
  intros vv t Hvv Ht.
  destruct (negb ((uu =? u) && (vv =? v))); [|exact Ht].
  assert (Hn : Forall (fun p => 0 <= fst p < depth_rows depthImage /\
                                0 <= snd p < depth_cols depthImage)
                      (reads t ++ [(vv, uu)])).
  { apply Forall_snoc; [exact Ht|]. cbn [fst snd]. lia. }
  cbn [sumWeights sumDepths reads].
  destruct (F32.neqb (depth_sample depthImage vv uu) F32.zero &&
            uIsFinite (depth_sample depthImage vv uu) &&
            F32.ltb (F32.abs (F32.sub (depth_sample depthImage vv uu)
                                      (depth_sample depthImage v u))) maxZError);
    [|exact Hn].
  destruct ((uu =? u) || (vv =? v)); exact Hn.
Qed.

Lemma getDepth_reads_inside_witness :
  exists depth samples,
    getDepth (Depth16UC1 Fixtures.flat) (F32.of_Z 0) (F32.of_Z 2) true (F32.lit 2 100)
      = Some (depth, samples) /\
    Forall (fun p => 0 <= fst p < 3 /\ 0 <= snd p < 3) samples.
Proof.
  destruct (getDepth (Depth16UC1 Fixtures.flat) (F32.of_Z 0) (F32.of_Z 2) true
                     (F32.lit 2 100)) as [[depth samples]|] eqn:E;
    [|vm_compute in E; discriminate].
  exists depth, samples. split; [reflexivity|].
  exact (getDepth_reads_inside (Depth16UC1 Fixtures.flat) (F32.of_Z 0) (F32.of_Z 2)
           true (F32.lit 2 100) depth samples E).
Defined.

(** When the sample at the rounded pixel is zero, NaN or infinite,
    [getDepth] returns 0 and looks at no neighbour, with smoothing as
    without. *)
Theorem getDepth_invalid_centre (depthImage : DepthImage) (x y : float)
        (smoothing : bool) (maxZError : float) (u v : Z) :
  to_int (F32.add x half) = Some u ->
  to_int (F32.add y half) = Some v ->
  0 <= u < depth_cols depthImage -> 0 <= v < depth_rows depthImage ->
  F32.eqb (depth_sample depthImage v u) F32.zero = true \/
  uIsFinite (depth_sample depthImage v u) = false ->
  getDepth depthImage x y smoothing maxZError = Some (F32.zero, [(v, u)]).
Proof.
  intros Hu Hv Bu Bv Hbad. unfold getDepth.
  replace (depth_rows depthImage <=? 0) with false by (symmetry; apply Z.leb_gt; lia).
  replace (depth_cols depthImage <=? 0) with false by (symmetry; apply Z.leb_gt; lia).
  cbn [orb]. rewrite Hu, Hv.
  replace ((0 <=? u) && (u <? depth_cols depthImage) &&
           (0 <=? v) && (v <? depth_rows depthImage)) with true.
  2:{ symmetry. rewrite !andb_true_iff, !Z.leb_le, !Z.ltb_lt. lia. }
  cbn [negb]. cbv zeta. unfold F32.neqb, F32.eqb in *.
  destruct Hbad as [H|H]; rewrite H; [reflexivity|].
  now rewrite andb_false_r.
Qed.

Lemma getDepth_invalid_centre_witness :
  getDepth (Depth16UC1 Fixtures.holes) (F32.of_Z 1) (F32.of_Z 1) true (F32.lit 2 100)
  = Some (F32.zero, [(1, 1)]).
Proof.
  apply (getDepth_invalid_centre (Depth16UC1 Fixtures.holes) _ _ _ _ 1 1);
    try reflexivity; try (cbn; lia).
  left. reflexivity.
Defined.
(** ** [fillRegisteredDepthHoles] *)

Lemma refines_refl (img : Mat Z) : refines img img.
Proof.
  split; [reflexivity|]. split; [reflexivity|]. split; [reflexivity|].
  intros Hu. split; [exact Hu | intros y x H; exact H].
Qed.

Lemma refines_trans (a b c : Mat Z) : refines a b -> refines b c -> refines a c.
Proof.
  intros (R1 & C1 & B1 & U1) (R2 & C2 & B2 & U2).
  split; [congruence|]. split; [congruence|]. split.
  - intros y x H. rewrite B2, B1; [reflexivity | exact H |].
    unfold in_interior in *. rewrite R1, C1. exact H.
  - intros Ha. destruct (U1 Ha) as [Hb K1]. destruct (U2 Hb) as [Hc K2].
    split; [exact Hc|]. intros y x H. apply K2, K1, H.
Qed.

Lemma refines_set (img : Mat Z) (y x v : Z) :
  in_interior img y x -> (ushort_image img -> 1 <= v <= 65535) ->
  refines img (set_at img y x v).
Proof.
  intros Hin Hv. split; [reflexivity|]. split; [reflexivity|]. split.
  - intros y0 x0 Hout. cbn [set_at at_].
    destruct ((y0 =? y) && (x0 =? x)) eqn:E; [|reflexivity].
    apply andb_true_iff in E. destruct E as [E1 E2].
    apply Z.eqb_eq in E1, E2. subst. contradiction.
  - intros Hu. specialize (Hv Hu). split.
    + intros y0 x0. cbn [set_at at_].
      destruct ((y0 =? y) && (x0 =? x)); [lia | apply Hu].
    + intros y0 x0 H. cbn [set_at at_].
      destruct ((y0 =? y) && (x0 =? x)); [lia | exact H].
Qed.

Lemma refines_set2 (img : Mat Z) (y x v y' x' v' : Z) :
  in_interior img y x -> in_interior img y' x' ->
  (ushort_image img -> 1 <= v <= 65535 /\ 1 <= v' <= 65535) ->
  refines img (set_at (set_at img y x v) y' x' v').
Proof.
  intros Hin Hin' Hv. split; [reflexivity|]. split; [reflexivity|]. split.
  - intros y0 x0 Hout. cbn [set_at at_].
    destruct ((y0 =? y') && (x0 =? x')) eqn:E'.
    { apply andb_true_iff in E'. destruct E' as [E1 E2].
      apply Z.eqb_eq in E1, E2. subst. contradiction. }
    destruct ((y0 =? y) && (x0 =? x)) eqn:E; [|reflexivity].
    apply andb_true_iff in E. destruct E as [E1 E2].
    apply Z.eqb_eq in E1, E2. subst. contradiction.
  - intros Hu. specialize (Hv Hu). split.
    + intros y0 x0. cbn [set_at at_].
      destruct ((y0 =? y') && (x0 =? x')); [lia|].
      destruct ((y0 =? y) && (x0 =? x)); [lia | apply Hu].
    + intros y0 x0 H. cbn [set_at at_].
      destruct ((y0 =? y') && (x0 =? x')); [lia|].
      destruct ((y0 =? y) && (x0 =? x)); [lia | exact H].
Qed.

(** The mean of two non-empty 16-bit depths is a non-empty 16-bit depth. *)
Lemma mean_in_ushort (a c : Z) :
  1 <= a <= 65535 -> 1 <= c <= 65535 -> 1 <= u16 (Z.quot (a + c) 2) <= 65535.
Proof.
  intros Ha Hc. unfold u16. rewrite Z.quot_div_nonneg by lia.
  assert (1 <= (a + c) / 2 <= 65535).
  { split; [apply Z.div_le_lower_bound; lia | apply Z.div_le_upper_bound; lia]. }
  rewrite Z.mod_small by lia. lia.
Qed.

(** The two depths that bridge a double hole lie between its ends. *)
Lemma bridge_in_ushort (a d : Z) :
  1 <= a <= 65535 -> 1 <= d <= 65535 ->
  1 <= fst (bridge a d) <= 65535 /\ 1 <= snd (bridge a d) <= 65535.
Proof.
  intros Ha Hd. unfold bridge, u16.
  destruct (Z.ltb_spec d a) as [H|H]; cbn [fst snd].
  - rewrite Z.quot_div_nonneg by lia.
    assert (0 <= (a - d) / 4) by (apply Z.div_pos; lia).
    assert (4 * ((a - d) / 4) <= a - d) by (apply Z.mul_div_le; lia).
    rewrite (Z.mod_small ((a - d) / 4)) by lia.
    rewrite !Z.mod_small by lia. lia.
  - rewrite Z.quot_div_nonneg by lia.
    assert (0 <= (d - a) / 4) by (apply Z.div_pos; lia).
    assert (4 * ((d - a) / 4) <= d - a) by (apply Z.mul_div_le; lia).
    rewrite (Z.mod_small ((d - a) / 4)) by lia.
    rewrite !Z.mod_small by lia. lia.
Qed.

Lemma nonzero_ushort (img : Mat Z) (y x : Z) :
  ushort_image img -> (at_ img y x =? 0) = false -> 1 <= at_ img y x <= 65535.
Proof. intros Hu H. apply Z.eqb_neq in H. specialize (Hu y x). lia. Qed.

(** The test on a pair at distance 1: the state is left as it is, or the
    pixel [(y, x)] is set and [set] raised. *)
Lemma fill_single_cases (skip : bool) (x ya xa yc xc : Z) (st : FillState) :
  in_interior (image st) (index st) x ->
  let st' := fill_single skip x ya xa yc xc st in
  st' = st \/
  (set st' = true /\ index st <= index st' /\
   (skip = false -> index st' = index st) /\
   refines (image st) (image st')).
Proof.
  intros Hin. unfold fill_single. cbv zeta.
  destruct (negb (at_ (image st) ya xa =? 0)) eqn:Ea; [|now left].
  destruct (negb (at_ (image st) yc xc =? 0)) eqn:Ec; [|now left].
  cbn [andb].
  destruct (hole_or_outlier _ _ _ _ && consistent _ _ _); [|now left].
  right. cbn [set index image]. split; [reflexivity|].
  split; [destruct skip; lia|]. split; [now intros ->|].
  apply refines_set; [exact Hin|]. intros Hu.
  apply negb_true_iff in Ea, Ec.
  apply mean_in_ushort; now apply nonzero_ushort.
Qed.

Lemma fill_double_cases (skip mark : bool) (x ya xa yc xc yd xd : Z)
      (st : FillState) :
  in_interior (image st) (index st) x -> in_interior (image st) yc xc ->
  let st' := fill_double skip mark x ya xa yc xc yd xd st in
  index st <= index st' /\ (skip = false -> index st' = index st) /\
  refines (image st) (image st').
Proof.
  intros Hin Hinc. unfold fill_double. cbv zeta.
  destruct (negb (at_ (image st) ya xa =? 0)) eqn:Ea;
    [|cbn [andb]; split; [lia | split; [reflexivity | apply refines_refl]]].
  destruct (negb (at_ (image st) yd xd =? 0)) eqn:Ed;
    [|cbn [andb]; split; [lia | split; [reflexivity | apply refines_refl]]].
  cbn [andb].
  destruct ((at_ (image st) (index st) x =? 0) || (at_ (image st) yc xc =? 0));
    [|cbn [andb]; split; [lia | split; [reflexivity | apply refines_refl]]].
  destruct (hole_or_outlier _ _ _ _ && hole_or_outlier _ _ _ _ && consistent _ _ _);
    [|cbn [andb]; split; [lia | split; [reflexivity | apply refines_refl]]].
  apply negb_true_iff in Ea, Ed.
  pose proof (bridge_in_ushort (at_ (image st) ya xa) (at_ (image st) yd xd)) as Hb.
  destruct (bridge (at_ (image st) ya xa) (at_ (image st) yd xd)) as [vb vc].
  cbn [fst snd] in Hb. cbn [image index].
  split; [destruct skip; lia|]. split; [now intros ->|].
  apply refines_set2; [exact Hin | exact Hinc |]. intros Hu.
  apply Hb; now apply nonzero_ushort.
Qed.

Lemma fill_pass_refines (skip mark fillDoubleHoles : bool)
      (x ya xa yc xc yd xd : Z) (st : FillState) :
  in_interior (image st) (index st) x ->
  (fillDoubleHoles = true -> in_interior (image st) yc xc) ->
  let st' := fill_pass skip mark fillDoubleHoles x ya xa yc xc yd xd st in
  index st <= index st' /\ (skip = false -> index st' = index st) /\
  refines (image st) (image st').
Proof.
  intros Hin Hinc. unfold fill_pass. cbv zeta.
  destruct (fill_single_cases skip x ya xa yc xc st Hin) as [->|(Hs & Hi & Hk & Hr)].
  - destruct (negb (set st) && fillDoubleHoles) eqn:E.
    + apply andb_true_iff in E. destruct E as [_ ->].
      apply fill_double_cases; [exact Hin | now apply Hinc].
    + split; [lia|]. split; [reflexivity | apply refines_refl].
  - rewrite Hs. cbn [negb andb]. now split; [|split].
Qed.

Lemma in_interior_dims (img img' : Mat Z) (y x : Z) :
  rows img' = rows img -> cols img' = cols img ->
  in_interior img y x -> in_interior img' y x.
Proof. unfold in_interior. intros -> ->. exact (fun H => H). Qed.

Lemma fill_pixel_refines (vertical horizontal fillDoubleHoles : bool) (x : Z)
      (st : FillState) :
  in_interior (image st) (index st) x ->
  (fillDoubleHoles = true ->
   in_interior (image st) (index st + 1) x /\ in_interior (image st) (index st) (x + 1)) ->
  let st' := fill_pixel vertical horizontal fillDoubleHoles x st in
  index st <= index st' /\ refines (image st) (image st').
Proof.
  intros Hin Hd. unfold fill_pixel. cbv zeta.
  set (st0 := mkFill (image st) false (index st)).
  assert (H1 : let st1 := if vertical
                          then fill_pass (negb horizontal) true fillDoubleHoles x
                                         (index st - 1) x (index st + 1) x
                                         (index st + 2) x st0
                          else st0 in
               index st <= index st1 /\
               (horizontal = true -> index st1 = index st) /\
               refines (image st) (image st1)).
  { destruct vertical; cbv zeta.
    - destruct (fill_pass_refines (negb horizontal) true fillDoubleHoles x
                  (index st - 1) x (index st + 1) x (index st + 2) x st0)
        as (Hi & Hk & Hr); [exact Hin | intros Hf; now apply Hd |].
      cbn [index image st0] in *. split; [exact Hi|]. split; [|exact Hr].
      intros ->. now apply Hk.
    - cbn [index image st0]. split; [lia|]. split; [reflexivity | apply refines_refl]. }
  cbv zeta in H1.
  destruct (if vertical
            then fill_pass (negb horizontal) true fillDoubleHoles x
                           (index st - 1) x (index st + 1) x (index st + 2) x st0
            else st0) as [img1 set1 y1] eqn:E1.
  cbn [index image set] in *. destruct H1 as (Hi & Hk & Hr).
  destruct (negb set1 && horizontal) eqn:E; [|now split].
  apply andb_true_iff in E. destruct E as [_ ->]. specialize (Hk eq_refl). subst y1.
  destruct Hr as (Rr & Rc & Rest).
  destruct (fill_pass_refines false false fillDoubleHoles x (index st) (x - 1)
              (index st) (x + 1) (index st) (x + 2) (mkFill img1 set1 (index st)))
    as (Hi2 & _ & Hr2); cbn [index image].
  - now apply (in_interior_dims (image st)).
  - intros Hf. apply (in_interior_dims (image st)); [assumption..|]. now apply Hd.
  - split; [exact Hi2|].
    apply refines_trans with img1; [|exact Hr2]. now split; [|split].
Qed.

Lemma fill_column_refines (vertical horizontal fillDoubleHoles : bool) (x : Z)
      (fuel : nat) : forall y img,
  1 <= y -> 1 <= x < cols img - fill_margin fillDoubleHoles ->
  refines img (fill_column fuel vertical horizontal fillDoubleHoles
                           (fill_margin fillDoubleHoles) x y img).
Proof.
  induction fuel as [|fuel IH]; intros y img Hy Hx; cbn [fill_column];
    [apply refines_refl|].
  destruct (Z.ltb_spec y (rows img - fill_margin fillDoubleHoles)) as [Hlt|];
    [|apply refines_refl].
  pose proof (fill_margin_pos fillDoubleHoles) as Hm.
  destruct (fill_pixel_refines vertical horizontal fillDoubleHoles x (mkFill img false y))
    as (Hi & Hr); cbn [image index].
  - unfold in_interior. lia.
  - intros ->. unfold fill_margin in *. unfold in_interior. lia.
  - cbn [image index] in *.
    eapply refines_trans; [exact Hr|]. apply IH; [lia|].
    destruct Hr as (_ & -> & _). exact Hx.
Qed.

Lemma fill_columns_refine (vertical horizontal fillDoubleHoles : bool)
      (xs : list Z) : forall img,
  (forall x, In x xs -> 1 <= x < cols img - fill_margin fillDoubleHoles) ->
  refines img (fill_columns vertical horizontal fillDoubleHoles xs img).
Proof.
  unfold fill_columns. induction xs as [|x xs IH]; intros img H; cbn [fold_left].
  - apply refines_refl.
  - assert (Hr : refines img (fill_column_at vertical horizontal fillDoubleHoles x img)).
    { apply fill_column_refines; [lia | apply H; now left]. }
    eapply refines_trans; [exact Hr|]. apply IH. intros x' Hx'.
    destruct Hr as (_ & -> & _). apply H. now right.
Qed.

Lemma fillRegisteredDepthHoles_refines (registeredDepth : Mat Z)
      (vertical horizontal fillDoubleHoles : bool) :
  refines registeredDepth
          (fillRegisteredDepthHoles registeredDepth vertical horizontal fillDoubleHoles).
Proof.
  apply fill_columns_refine. intros x Hx. now apply in_range in Hx.
Qed.

(** The filter keeps the size of the image and never changes a pixel of
    its first or last row or column, whatever the flags. *)
Theorem fillRegisteredDepthHoles_border (registeredDepth : Mat Z)
        (vertical horizontal fillDoubleHoles : bool) :
  let filled := fillRegisteredDepthHoles registeredDepth vertical horizontal
                                         fillDoubleHoles in
  rows filled = rows registeredDepth /\ cols filled = cols registeredDepth /\
  forall y x,
    y <= 0 \/ rows registeredDepth - 1 <= y \/
    x <= 0 \/ cols registeredDepth - 1 <= x ->
    at_ filled y x = at_ registeredDepth y x.
Proof.
  destruct (fillRegisteredDepthHoles_refines registeredDepth vertical horizontal
              fillDoubleHoles) as (Hr & Hc & Hb & _).
  cbv zeta. split; [exact Hr|]. split; [exact Hc|]. intros y x H.
  apply Hb. unfold in_interior. lia.
Qed.

(** On 16-bit depths the filter never empties a pixel: every pixel that
    holds a depth before the call holds one after it, and the samples stay
    16-bit values. *)
Theorem fillRegisteredDepthHoles_no_new_hole (registeredDepth : Mat Z)
        (vertical horizontal fillDoubleHoles : bool) :
  ushort_image registeredDepth ->
  let filled := fillRegisteredDepthHoles registeredDepth vertical horizontal
                                         fillDoubleHoles in
  ushort_image filled /\
  forall y x, at_ registeredDepth y x <> 0 -> at_ filled y x <> 0.
Proof.
  intros Hu.
  destruct (fillRegisteredDepthHoles_refines registeredDepth vertical horizontal
              fillDoubleHoles) as (_ & _ & _ & H).
  exact (H Hu).
Qed.

Lemma fillRegisteredDepthHoles_no_new_hole_witness :
  let img := set_at (constant 3 3 1000) 1 1 0 in
  ushort_image (fillRegisteredDepthHoles img true true false) /\
  forall y x, at_ img y x <> 0 ->
              at_ (fillRegisteredDepthHoles img true true false) y x <> 0.
Proof.
  apply (fillRegisteredDepthHoles_no_new_hole (set_at (constant 3 3 1000) 1 1 0)).
  intros y x. cbn [set_at constant at_].
  destruct ((y =? 1) && (x =? 1)); lia.
Defined.

(** With both passes off nothing is changed. *)
Theorem fillRegisteredDepthHoles_passes_off (registeredDepth : Mat Z)
        (fillDoubleHoles : bool) :
  fillRegisteredDepthHoles registeredDepth false false fillDoubleHoles
  = registeredDepth.
Proof.
  unfold fillRegisteredDepthHoles, fill_columns.
  generalize (fill_order fillDoubleHoles registeredDepth). intros xs.
  assert (Hc : forall fuel x y img,
             fill_column fuel false false fillDoubleHoles
                         (fill_margin fillDoubleHoles) x y img = img).
  { induction fuel as [|fuel IH]; intros x y img; cbn [fill_column]; [reflexivity|].
    destruct (y <? rows img - fill_margin fillDoubleHoles); [|reflexivity].
    cbn [fill_pixel image index set negb andb]. apply IH. }
  induction xs as [|x xs IH]; cbn [fold_left]; [reflexivity|].
  unfold fill_column_at at 2. rewrite Hc. exact IH.
Qed.
(** ** [registerDepth] *)

Lemma project_pixel_ushort (depthK colorK : Mat double) (T : Affine3f)
      (regRows regCols y x d dy dx z16 : Z) :
  project_pixel depthK colorK T regRows regCols y x d = Hit dy dx z16 ->
  0 <= z16 <= 65535 /\ 0 <= dy < regRows /\ 0 <= dx < regCols.
Proof.
  unfold project_pixel. cbv zeta.
  destruct (F32.geb _ _); [|discriminate].
  destruct (to_int _) as [dx'|]; [|discriminate].
  destruct (to_int _) as [dy'|]; [|discriminate].
  destruct (uIsInBounds dx' 0 regCols && uIsInBounds dy' 0 regRows) eqn:Eb;
    [|discriminate].
  destruct (to_ushort _) as [z|] eqn:Ez; [|discriminate].
  intros H. injection H as <- <- <-.
  unfold uIsInBounds in Eb. rewrite !andb_true_iff, !Z.leb_le, !Z.ltb_lt in Eb.
  split; [|lia].
  unfold to_ushort, to_integer in Ez. destruct (trunc _) as [t|]; [|discriminate].
  destruct ((0 <=? t) && (t <=? 65535)) eqn:Et; [|discriminate].
  injection Ez as <-. rewrite andb_true_iff, !Z.leb_le in Et. lia.
Qed.

Section Registered.
Variables (depth : Mat Z) (depthK colorK : Mat double) (T : Affine3f).

Local Notation "'after'" := (registered_after depth depthK colorK T).
Local Notation "'contrib'" := (contributions depth depthK colorK T).

(** Every pixel of the registered image is empty or holds one of the
    depths projected onto it, and all of them are 16-bit values. *)
Lemma registered_after_projected (l : list (Z * Z)) : forall reg,
  after l = Some reg ->
  ushort_image reg /\
  forall v u, at_ reg v u = 0 \/ In (at_ reg v u) (contrib l v u).
Proof.
  induction l as [|p l IH] using rev_ind; intros reg H.
  - injection H as <-. split; [intros y x; cbn; lia | intros v u; now left].
  - rewrite registered_after_snoc in H. unfold register_pixel in H.
    destruct (after l) as [reg0|] eqn:E0; [|discriminate].
    destruct (IH reg0 eq_refl) as [Hu Hin].
    destruct (registered_after_dims _ _ _ _ l reg0 E0) as [Hr Hc].
    rewrite Hr, Hc in H.
    destruct (project_pixel depthK colorK T (rows depth) (cols depth)
                            (fst p) (snd p) (at_ depth (fst p) (snd p)))
      as [| |dy dx z16] eqn:Ep; try discriminate; injection H as <-.
    + split; [exact Hu|]. intros v u. rewrite contributions_snoc.
      destruct (Hin v u) as [H0|H1]; [now left | right; apply in_or_app; now left].
    + destruct (project_pixel_ushort _ _ _ _ _ _ _ _ _ _ _ Ep) as [Hz _].
      split.
      * intros v u. rewrite store_nearest_at. specialize (Hu v u).
        pose proof (Hu : 0 <= at_ reg0 v u <= 65535).
        destruct ((v =? dy) && (u =? dx)) eqn:E; [|exact Hu].
        apply andb_prop in E. destruct E as [E1 E2].
        apply Z.eqb_eq in E1, E2. subst dy dx.
        destruct ((at_ reg0 v u =? 0) || (z16 <? at_ reg0 v u)); [exact Hz | exact Hu].
      * intros v u. rewrite store_nearest_at, contributions_snoc.
        destruct ((v =? dy) && (u =? dx)) eqn:E.
        -- apply andb_prop in E. destruct E as [E1 E2].
           apply Z.eqb_eq in E1, E2. subst dy dx.
           destruct ((at_ reg0 v u =? 0) || (z16 <? at_ reg0 v u)).
           ++ right. apply in_or_app. right. unfold contributions.
              cbn [flat_map]. rewrite Ep, !Z.eqb_refl. now left.
           ++ destruct (Hin v u) as [H0|H1];
                [now left | right; apply in_or_app; now left].
        -- destruct (Hin v u) as [H0|H1];
             [now left | right; apply in_or_app; now left].
Qed.

End Registered.

(** The minimum of a list does not depend on the order of its elements. *)
Lemma fold_min_le (l : list Z) : forall a,
  fold_left Z.min l a <= a /\ forall z, In z l -> fold_left Z.min l a <= z.
Proof.
  induction l as [|b l IH]; intros a; cbn [fold_left].
  - split; [lia | intros z []].
  - destruct (IH (Z.min a b)) as [H1 H2]. split; [lia|].
    intros z [<-|Hz]; [lia | now apply H2].
Qed.

Lemma nearest_le (l : list Z) (z : Z) : In z l -> nearest l <= z.
Proof.
  destruct l as [|a l]; [intros []|]. cbn [nearest].
  destruct (fold_min_le l a) as [H1 H2]. intros [<-|Hz]; [exact H1 | now apply H2].
Qed.

Lemma nearest_permutation (l l' : list Z) :
  Permutation l l' -> nearest l = nearest l'.
Proof.
  intros Hp. destruct l as [|a l].
  - apply Permutation_nil in Hp. now subst.
  - assert (Hne : l' <> []).
    { intros ->. apply Permutation_sym, Permutation_nil in Hp. discriminate. }
    assert (H1 : In (nearest (a :: l)) (a :: l)) by (apply nearest_in; discriminate).
    assert (H2 : In (nearest l') l') by now apply nearest_in.
    apply (Permutation_in _ Hp) in H1.
    apply (Permutation_in _ (Permutation_sym Hp)) in H2.
    apply nearest_le in H1. apply nearest_le in H2. lia.
Qed.

Lemma contributions_permutation (depth : Mat Z) (depthK colorK : Mat double)
      (T : Affine3f) (l l' : list (Z * Z)) (v u : Z) :
  Permutation l l' ->
  Permutation (contributions depth depthK colorK T l v u)
              (contributions depth depthK colorK T l' v u).
Proof. intros H. unfold contributions. now apply Permutation_flat_map. Qed.

(** The registered image has the size of the depth image and holds 16-bit
    values; each of its pixels is empty or holds the depth that one source
    pixel projects onto it. *)
Theorem registerDepth_projected (depth : Mat Z) (depthK colorK : Mat double)
        (T : Affine3f) (registered : Mat Z) :
  registerDepth depth depthK colorK T = Some registered ->
  rows registered = rows depth /\ cols registered = cols depth /\
  ushort_image registered /\
  forall v u,
    at_ registered v u = 0 \/
    exists y x, 0 <= y < rows depth /\ 0 <= x < cols depth /\
                project_pixel depthK colorK T (rows depth) (cols depth)
                              y x (at_ depth y x)
                = Hit v u (at_ registered v u).
Proof.
  intros H.
  assert (He : mat_empty depth = false).
  { unfold registerDepth in H. destruct (mat_empty depth); [discriminate | reflexivity]. }
  rewrite registerDepth_scan in H by exact He.
  destruct (registered_after_dims _ _ _ _ _ _ H) as [Hr Hc].
  destruct (registered_after_projected _ _ _ _ _ _ H) as [Hu Hin].
  split; [exact Hr|]. split; [exact Hc|]. split; [exact Hu|]. intros v u.
  destruct (Hin v u) as [H0|H1]; [now left|]. right.
  unfold contributions in H1. apply in_flat_map in H1.
  destruct H1 as ([y x] & Hp & Hz). cbn [fst snd] in Hz.
  apply in_scan_order in Hp. exists y, x. split; [lia|]. split; [lia|].
  destruct (project_pixel _ _ _ _ _ _ _ _) as [| |dy dx z16]; try contradiction.
  destruct ((dy =? v) && (dx =? u)) eqn:E; [|contradiction].
  apply andb_prop in E. destruct E as [E1 E2]. apply Z.eqb_eq in E1, E2.
  destruct Hz as [<-|[]]. now subst.
Qed.

Lemma registerDepth_projected_witness :
  exists registered,
    registerDepth Fixtures.depth_far Fixtures.depthK Fixtures.colorK
                  (Fixtures.along_z (F32.lit (-1) 2048)) = Some registered /\
    rows registered = 2 /\ cols registered = 2 /\ ushort_image registered.
Proof.
  destruct (registerDepth Fixtures.depth_far Fixtures.depthK Fixtures.colorK
              (Fixtures.along_z (F32.lit (-1) 2048))) as [registered|] eqn:E;
    [|vm_compute in E; discriminate].
  exists registered. split; [reflexivity|].
  destruct (registerDepth_projected Fixtures.depth_far Fixtures.depthK Fixtures.colorK
              (Fixtures.along_z (F32.lit (-1) 2048)) registered E)
    as (Hr & Hc & Hu & _).
  split; [exact Hr | split; [exact Hc | exact Hu]].
Defined.

(** When no source pixel projects a depth of 0 mm, the registered image
    does not depend on the order in which the source pixels are visited. *)
Theorem registerDepth_any_order (depth : Mat Z) (depthK colorK : Mat double)
        (T : Affine3f) (order : list (Z * Z)) (registered registered' : Mat Z) :
  Permutation order (scan_order (rows depth) (cols depth)) ->
  (forall v u, Forall (fun z => z <> 0)
                 (contributions depth depthK colorK T
                                (scan_order (rows depth) (cols depth)) v u)) ->
  registerDepth depth depthK colorK T = Some registered ->
  registered_after depth depthK colorK T order = Some registered' ->
  same_image registered' registered.
Proof.
  intros Hp Hnz H H'.
  assert (He : mat_empty depth = false).
  { unfold registerDepth in H. destruct (mat_empty depth); [discriminate | reflexivity]. }
  rewrite registerDepth_scan in H by exact He.
  destruct (registered_after_dims _ _ _ _ _ _ H) as [Hr Hc].
  destruct (registered_after_dims _ _ _ _ _ _ H') as [Hr' Hc'].
  split; [congruence|]. split; [congruence|]. intros v u.
  rewrite (registered_after_nearest _ _ _ _ _ _ v u H (Hnz v u)).
  rewrite (registered_after_nearest _ _ _ _ _ _ v u H').
  - apply nearest_permutation. now apply contributions_permutation.
  - apply Forall_forall. intros z Hz.
    pose proof (Hnz v u) as Hall. rewrite Forall_forall in Hall. apply Hall.
    revert Hz. apply Permutation_in. now apply contributions_permutation.
Qed.

Lemma registerDepth_any_order_witness :
  exists registered registered',
    registerDepth Fixtures.depth_far Fixtures.depthK Fixtures.colorK
                  (Fixtures.along_z (F32.lit (-1) 2048)) = Some registered /\
    registered_after Fixtures.depth_far Fixtures.depthK Fixtures.colorK
                     (Fixtures.along_z (F32.lit (-1) 2048))
                     [(1, 1); (1, 0); (0, 1); (0, 0)] = Some registered' /\
    same_image registered' registered.
Proof.
  destruct (registerDepth Fixtures.depth_far Fixtures.depthK Fixtures.colorK
              (Fixtures.along_z (F32.lit (-1) 2048))) as [registered|] eqn:E;
    [|vm_compute in E; discriminate].
  destruct (registered_after Fixtures.depth_far Fixtures.depthK Fixtures.colorK
              (Fixtures.along_z (F32.lit (-1) 2048))
              [(1, 1); (1, 0); (0, 1); (0, 0)]) as [registered'|] eqn:E';
    [|vm_compute in E'; discriminate].
  exists registered, registered'. split; [reflexivity|]. split; [reflexivity|].
  apply (registerDepth_any_order Fixtures.depth_far Fixtures.depthK Fixtures.colorK
           (Fixtures.along_z (F32.lit (-1) 2048)) [(1, 1); (1, 0); (0, 1); (0, 0)]
           registered registered'); [| | exact E | exact E'].
  - change (scan_order (rows Fixtures.depth_far) (cols Fixtures.depth_far))
      with (rev [(1, 1); (1, 0); (0, 1); (0, 0)]).
    apply Permutation_rev.
  - intros v u.
    change (scan_order (rows Fixtures.depth_far) (cols Fixtures.depth_far))
      with [(0, 0); (0, 1); (1, 0); (1, 1)].
    unfold contributions. cbn [flat_map fst snd].
    replace (project_pixel Fixtures.depthK Fixtures.colorK
               (Fixtures.along_z (F32.lit (-1) 2048))
               (rows Fixtures.depth_far) (cols Fixtures.depth_far) 0 0
               (at_ Fixtures.depth_far 0 0)) with (Hit 0 0 4) by (vm_compute; reflexivity).
    replace (project_pixel Fixtures.depthK Fixtures.colorK
               (Fixtures.along_z (F32.lit (-1) 2048))
               (rows Fixtures.depth_far) (cols Fixtures.depth_far) 0 1
               (at_ Fixtures.depth_far 0 1)) with (Hit 0 0 2) by (vm_compute; reflexivity).
    replace (project_pixel Fixtures.depthK Fixtures.colorK
               (Fixtures.along_z (F32.lit (-1) 2048))
               (rows Fixtures.depth_far) (cols Fixtures.depth_far) 1 0
               (at_ Fixtures.depth_far 1 0)) with (Hit 0 0 6) by (vm_compute; reflexivity).
    replace (project_pixel Fixtures.depthK Fixtures.colorK
               (Fixtures.along_z (F32.lit (-1) 2048))
               (rows Fixtures.depth_far) (cols Fixtures.depth_far) 1 1
               (at_ Fixtures.depth_far 1 1)) with (Hit 0 0 8) by (vm_compute; reflexivity).
    destruct ((0 =? v) && (0 =? u)); cbn [app]; repeat constructor; discriminate.
Defined.
(** ** [ssd] and [sad] *)

Section SignSymmetry.
Variables prec emax : Z.

Lemma binary_round_aux_abs (s : bool) (M E : Z) (l : location) :
  SFabs (binary_round_aux prec emax s M E l) =
  SFabs (binary_round_aux prec emax false M E l).
Proof.
  unfold binary_round_aux.
  destruct (shr_fexp prec emax M E l) as [mrs' e'].
  destruct (shr_fexp prec emax _ e' loc_Exact) as [mrs'' e''].
  destruct (shr_m mrs''); try reflexivity.
  now destruct (e'' <=? emax - prec).
Qed.

Lemma binary_normalize_abs (z e : Z) (sz : bool) :
  SFabs (binary_normalize prec emax (- z) e sz) =
  SFabs (binary_normalize prec emax z e sz).
Proof.
  destruct z as [|p|p]; cbn [Z.opp binary_normalize]; try reflexivity;
    unfold binary_round; destruct (shl_align _ _ _) as [mz ez];
    [|symmetry]; apply binary_round_aux_abs.
Qed.

(** The two differences of two floats have the same absolute value. *)
Lemma SFsub_abs_sym (x y : spec_float) :
  SFabs (SFsub prec emax x y) = SFabs (SFsub prec emax y x).
Proof.
  destruct x as [sx|sx| |sx mx ex], y as [sy|sy| |sy my ey];
    try reflexivity; try (destruct sx, sy; reflexivity).
  cbn [SFsub]. cbv zeta. rewrite (Z.min_comm ey ex).
  rewrite <- binary_normalize_abs. f_equal. f_equal. ring.
Qed.

(** A square depends on the absolute value only. *)
Lemma SFmul_self_abs (x : spec_float) :
  SFmul prec emax x x = SFmul prec emax (SFabs x) (SFabs x).
Proof. destruct x as [s|s| |s m e]; try reflexivity; now destruct s. Qed.

End SignSymmetry.

Lemma accumulate_ext (r c : Z) (term term' : Z -> Z -> float) :
  (forall v u, term v u = term' v u) -> accumulate r c term = accumulate r c term'.
Proof.
  intros H. unfold accumulate, for_range.
  generalize F32.zero. induction (range 0 r) as [|v l IH]; intros s; cbn [fold_left];
    [reflexivity|].
  rewrite IH. f_equal. clear IH. revert s.
  induction (range 0 c) as [|u k IH]; intros s; cbn [fold_left]; [reflexivity|].
  now rewrite H, IH.
Qed.

Lemma sample_diff_sym (w1 w2 : Window) :
  match sample_diff w1 w2, sample_diff w2 w1 with
  | Some s, Some s' => forall v u, F32.abs (s v u) = F32.abs (s' v u)
  | None, None => True
  | _, _ => False
  end.
Proof.
  destruct w1, w2; cbn [sample_diff]; try exact I; intros v u;
    apply SFsub_abs_sym.
Qed.

Lemma same_shape_sym (w1 w2 : Window) : same_shape w1 w2 = same_shape w2 w1.
Proof. unfold same_shape. now rewrite (Z.eqb_sym (win_rows w1)), (Z.eqb_sym (win_cols w1)). Qed.

(** Both scorers are symmetric: exchanging the two windows gives the same
    failure of an assertion, or the same score: the same finite number,
    signed zero or infinity, or a NaN in both orders. The sign and payload
    of a NaN are not part of [float] here, and nothing is said of them. *)
Theorem scorers_symmetric (windowLeft windowRight : Window) :
  ssd windowLeft windowRight = ssd windowRight windowLeft /\
  sad windowLeft windowRight = sad windowRight windowLeft.
Proof.
  unfold ssd, sad. rewrite (same_shape_sym windowRight windowLeft).
  pose proof (sample_diff_sym windowLeft windowRight) as Hs.
  destruct (sample_diff windowLeft windowRight) as [s|],
           (sample_diff windowRight windowLeft) as [s'|];
    try contradiction; [|now split].
  destruct (same_shape windowLeft windowRight) eqn:E; [|now split].
  unfold same_shape in E. apply andb_true_iff in E. destruct E as [E1 E2].
  apply Z.eqb_eq in E1, E2. rewrite <- E1, <- E2.
  split; f_equal; apply accumulate_ext; intros v u.
  - unfold F32.mul. rewrite (SFmul_self_abs _ _ (s v u)), (SFmul_self_abs _ _ (s' v u)).
    now rewrite (Hs v u : SFabs (s v u) = SFabs (s' v u)).
  - apply Hs.
Qed.

(** The scorers return exactly when the left window has one of the three
    accepted encodings, the right window has the same encoding, and the
    windows have the same shape; [sad] returns whenever [ssd] does. *)
Theorem scorers_defined_iff (windowLeft windowRight : Window) :
  (ssd windowLeft windowRight <> None <->
   supported windowLeft = true /\ same_encoding windowLeft windowRight = true /\
   same_shape windowLeft windowRight = true) /\
  (sad windowLeft windowRight <> None <-> ssd windowLeft windowRight <> None).
Proof.
  unfold ssd, sad.
  destruct windowLeft, windowRight; cbn [sample_diff supported same_encoding];
    destruct (same_shape _ _); split; split;
    try (intros H; exfalso; now apply H);
    try (intros (H1 & H2 & H3); discriminate);
    try (intros _; repeat split; discriminate);
    try (intros _; discriminate).
Qed.

(** On windows without pixels both scores are [0]. *)
Theorem scorers_of_empty_windows (windowLeft windowRight : Window) :
  same_encoding windowLeft windowRight = true ->
  same_shape windowLeft windowRight = true ->
  win_rows windowLeft <= 0 \/ win_cols windowLeft <= 0 ->
  ssd windowLeft windowRight = Some F32.zero /\
  sad windowLeft windowRight = Some F32.zero.
Proof.
  intros He Hs Hempty. unfold ssd, sad. rewrite Hs.
  assert (Hacc : forall term,
             accumulate (win_rows windowLeft) (win_cols windowLeft) term = F32.zero).
  { intros term. unfold accumulate.
    apply (for_range_invariant (fun s => s = F32.zero)); [reflexivity|].
    intros v s Hv ->. destruct Hempty as [H|H]; [lia|].
    unfold for_range. now rewrite range_nil by lia. }
  destruct windowLeft, windowRight; try discriminate He; cbn [sample_diff];
    now rewrite !Hacc.
Qed.

Lemma scorers_of_empty_windows_witness :
  ssd (Win8UC1 (constant 0 3 7)) (Win8UC1 (constant 0 3 9)) = Some F32.zero /\
  sad (Win8UC1 (constant 0 3 7)) (Win8UC1 (constant 0 3 9)) = Some F32.zero.
Proof.
  apply (scorers_of_empty_windows (Win8UC1 (constant 0 3 7)) (Win8UC1 (constant 0 3 9)));
    try reflexivity.
  left. cbn. lia.
Defined.
(** ** [calcStereoCorrespondences] *)

Section StereoSearch.
Variables leftPyramid rightPyramid : Z -> Mat Z.
Variable maxLevel : Z.
Variable getRectSubPix : Mat Z -> Z * Z -> float * float -> Mat float.
Variable winSize : Z * Z.
Variables minDisparity maxDisparity : Z.
Variable ssdApproach : bool.

Lemma narrow_range_clamped (level tmpMin bestIndex : Z) :
  minDisparity <= fst (narrow_range level minDisparity maxDisparity tmpMin bestIndex) /\
  snd (narrow_range level minDisparity maxDisparity tmpMin bestIndex) <= maxDisparity.
Proof.
  unfold narrow_range. cbv zeta. cbn [fst snd]. split.
  - destruct (Z.ltb_spec (tmpMin + (bestIndex - 1) * 2 ^ level
                          - Z.rem (tmpMin + (bestIndex - 1) * 2 ^ level) level)
                         minDisparity); lia.
  - destruct (Z.ltb_spec maxDisparity
                         (tmpMin + (bestIndex + 1) * 2 ^ level
                          + Z.rem (tmpMin + (bestIndex + 1) * 2 ^ level) level)); lia.
Qed.

(** A step of the sub-pixel loop sets [reject] from the new position. *)
Lemma refine_step_reject (windowLeft : Mat float) (y x0 : float) (r r' : Refine) :
  refine_step rightPyramid getRectSubPix winSize ssdApproach windowLeft y x0 r
    = Some r' ->
  ran r' = ran r + 1 /\
  reject r' = F32.ltb (xc r') (F32.sub x0 (F32.of_Z 1)) ||
              F32.gtb (xc r') (F32.add x0 (F32.of_Z 1)).
Proof.
  unfold refine_step. cbv zeta.
  destruct (if F32.eqb _ _ then _ else _); [|discriminate].
  destruct (if F32.eqb _ _ then _ else _); [|discriminate].
  intros H. injection H as <-. cbn [ran reject xc]. split; reflexivity.
Qed.

Lemma refine_loop_reject (n : nat) (windowLeft : Mat float) (y x0 : float) :
  forall r r',
    refine_loop rightPyramid getRectSubPix winSize ssdApproach n windowLeft y x0 r
      = Some r' ->
    r' = r \/
    (ran r < ran r' /\
     reject r' = F32.ltb (xc r') (F32.sub x0 (F32.of_Z 1)) ||
                 F32.gtb (xc r') (F32.add x0 (F32.of_Z 1))).
Proof.
  induction n as [|n IH]; intros r r' H; cbn [refine_loop] in H.
  - injection H as <-. now left.
  - destruct (refine_step _ _ _ _ _ _ _ r) as [r1|] eqn:E; [|discriminate].
    destruct (refine_step_reject _ _ _ _ _ E) as [R1 J1].
    destruct (reject r1) eqn:Er.
    + injection H as <-. right. split; [lia|]. now rewrite <- J1.
    + destruct (IH _ _ H) as [->|[Hr Hj]].
      * right. split; [lia|]. now rewrite <- J1.
      * right. split; [lia | exact Hj].
Qed.

End StereoSearch.

(** Through all the levels the active disparity range stays on the
    caller's side of both bounds: its minimum is never below
    [minDisparity] and its maximum never above [maxDisparity]. *)
Theorem search_stays_in_caller_range
        (leftPyramid rightPyramid : Z -> Mat Z) (winSize : Z * Z)
        (minDisparity maxDisparity : Z) (ssdApproach : bool)
        (corner : float * float) (levels : list Z) (st : Search) :
  search_levels leftPyramid rightPyramid winSize minDisparity maxDisparity
                ssdApproach corner levels = Some st ->
  minDisparity <= tmpMinDisparity st /\ tmpMaxDisparity st <= maxDisparity.
Proof.
  unfold search_levels. revert st.
  induction levels as [|l ls IH] using rev_ind; intros st H.
  - injection H as <-. cbn. lia.
  - rewrite fold_left_app in H. cbn [fold_left] in H.
    destruct (fold_left _ ls _) as [st0|] eqn:E0; [|discriminate].
    specialize (IH st0 eq_refl).
    destruct (search_level_cases _ _ _ _ _ _ _ _ _ _ H)
      as [(_ & _ & _ & A & B) | (n & _ & _ & _ & R)]; [lia|].
    destruct ((0 <=? bestScoreIndex st) && (0 <? l)).
    + pose proof (narrow_range_clamped minDisparity maxDisparity l
                    (tmpMinDisparity st0) (bestScoreIndex st)) as Hc.
      rewrite <- R in Hc. exact Hc.
    + injection R as -> ->. exact IH.
Qed.

Lemma search_stays_in_caller_range_witness :
  exists st,
    search_levels Fixtures.leftPyramid Fixtures.rightPyramid (3, 3) 0 64 true
                  Fixtures.corner [3; 2; 1; 0] = Some st /\
    0 <= tmpMinDisparity st /\ tmpMaxDisparity st <= 64.
Proof.
  destruct (search_levels Fixtures.leftPyramid Fixtures.rightPyramid (3, 3) 0 64 true
              Fixtures.corner [3; 2; 1; 0]) as [st|] eqn:E;
    [|vm_compute in E; discriminate].
  exists st. split; [reflexivity|].
  exact (search_stays_in_caller_range Fixtures.leftPyramid Fixtures.rightPyramid
           (3, 3) 0 64 true Fixtures.corner [3; 2; 1; 0] st E).
Defined.

(** A corner reported as matched ([status] 1) has a best integer match at
    level 0, keeps the vertical coordinate of the left corner, and, once
    the sub-pixel loop has run, lies at most one pixel from the integer
    match [x0]. *)
Theorem matched_corner_near_integer_match
        (leftPyramid rightPyramid : Z -> Mat Z) (maxLevel : Z)
        (getRectSubPix : Mat Z -> Z * Z -> float * float -> Mat float)
        (winSize : Z * Z) (minDisparity maxDisparity : Z) (ssdApproach : bool)
        (corner : float * float) (r : Correspondence) :
  match_corner leftPyramid rightPyramid maxLevel getRectSubPix winSize
               minDisparity maxDisparity ssdApproach corner = Some r ->
  status r = 1 ->
  let x0 := F32.add (fst corner)
                    (F32.of_Z (- (tmpMinDisparity (search r) +
                                  bestScoreIndex (search r)))) in
  0 <= bestScoreIndex (search r) /\
  snd (rightCorner r) = snd corner /\
  ((executed r = 0 /\ fst (rightCorner r) = x0) \/
   (0 < executed r /\
    F32.ltb (fst (rightCorner r)) (F32.sub x0 (F32.of_Z 1)) = false /\
    F32.gtb (fst (rightCorner r)) (F32.add x0 (F32.of_Z 1)) = false)).
Proof.
  unfold match_corner. intros H Hs.
  destruct (search_levels _ _ _ _ _ _ _ _) as [st|]; [|discriminate].
  destruct (Z.leb_spec 0 (bestScoreIndex st)) as [Hb|Hb].
  2:{ injection H as <-. discriminate Hs. }
  cbv zeta in H.
  destruct (to_int (fst corner)) as [ix|]; [|discriminate].
  destruct (if F32.neqb _ _ then _ else _) as [best|]; [|discriminate].
  destruct (refine_loop _ _ _ _ _ _ _ _ _) as [rf|] eqn:E; [|discriminate].
  injection H as <-. cbn [status rightCorner search executed fst snd] in *.
  split; [exact Hb|]. split; [reflexivity|].
  destruct (refine_loop_reject _ _ _ _ _ _ _ _ _ _ E) as [->|[Hran Hrej]].
  - left. cbn [ran xc]. now split.
  - right. cbn [ran] in Hran. split; [exact Hran|].
    destruct (reject rf); [discriminate Hs|].
    symmetry in Hrej. apply orb_false_iff in Hrej. exact Hrej.
Qed.

Lemma matched_corner_near_integer_match_witness :
  exists r,
    match_corner Fixtures.leftPyramid Fixtures.rightPyramid 1 Fixtures.getRectSubPix
                 (3, 3) 0 4 true Fixtures.corner = Some r /\
    0 <= bestScoreIndex (search r) /\
    snd (rightCorner r) = snd Fixtures.corner.
Proof.
  destruct (match_corner Fixtures.leftPyramid Fixtures.rightPyramid 1
              Fixtures.getRectSubPix (3, 3) 0 4 true Fixtures.corner)
    as [r|] eqn:E; [|vm_compute in E; discriminate].
  exists r. split; [reflexivity|].
  assert (Hs : status r = 1)
    by (vm_compute in E; injection E as <-; reflexivity).
  destruct (matched_corner_near_integer_match Fixtures.leftPyramid
              Fixtures.rightPyramid 1 Fixtures.getRectSubPix (3, 3) 0 4 true
              Fixtures.corner r E Hs) as (H1 & H2 & _).
  split; assumption.
Defined.
(** ** [calcOpticalFlowPyrLKStereo] *)

Section TrackerBudget.
Variables (I : Mat Z) (derivI : Mat (Z * Z)) (J : Mat Z).
Variable winSize : Z * Z.
Variable level : Z.
Variable eps : double.

(** An iteration applies at most one update, never sets the status, and
    leaves it alone at a level other than 0. *)
Lemma iterate_step (wI : Z * Z * Z * Z) (ix iy : Z) (A11 A12 A22 D : float)
      (j : Z) (t t' : Track) (go : bool) :
  iterate I derivI J winSize level eps wI ix iy A11 A12 A22 D j t = Some (t', go) ->
  (length (updates t') <= S (length (updates t)))%nat /\
  (status_i t = false -> status_i t' = false) /\
  (level <> 0 -> status_i t' = status_i t).
Proof.
  unfold iterate.
  destruct (cvFloor (fst (nextPt t))) as [jx|]; [|discriminate].
  destruct (cvFloor (snd (nextPt t))) as [jy|]; [|discriminate].
  destruct (outside _ _ _ _ _).
  { intros H. injection H as <- <-. cbn [updates status_i]. split; [lia|].
    destruct (Z.eqb_spec level 0) as [->|N]; split; auto; intros N'; now destruct N'. }
  destruct (bilinear_weights _ _) as [wJ|]; [|discriminate].
  destruct (mismatch _ _ _ _ _ _ _ _ _ _) as [ib1 ib2].
  destruct (F64.leb _ _).
  { intros H. injection H as <- <-. cbn [updates status_i length].
    split; [lia | split; auto]. }
  destruct (_ && _ && _); intros H; injection H as <- <-;
    cbn [updates status_i length]; (split; [lia | split; auto]).
Qed.

Lemma iterations_from_budget (wI : Z * Z * Z * Z) (ix iy : Z)
      (A11 A12 A22 D : float) (n : nat) : forall j t t',
  iterations_from I derivI J winSize level eps n wI ix iy A11 A12 A22 D j t = Some t' ->
  (length (updates t') <= length (updates t) + n)%nat /\
  (status_i t = false -> status_i t' = false) /\
  (level <> 0 -> status_i t' = status_i t).
Proof.
  induction n as [|n IH]; intros j t t' H; cbn [iterations_from] in H.
  - injection H as <-. split; [lia | split; auto].
  - destruct (iterate _ _ _ _ _ _ _ _ _ _ _ _ _ _ _) as [[t1 [|]]|] eqn:E;
      [| |discriminate];
      destruct (iterate_step _ _ _ _ _ _ _ _ _ _ _ E) as (L & S1 & K1).
    + destruct (IH _ _ _ H) as (L2 & S2 & K2). split; [lia|].
      split; [auto|]. intros N. now rewrite K2, K1.
    + injection H as <-. split; [lia | split; auto].
Qed.

End TrackerBudget.

Lemma criteria_count_range (criteria : TermCriteria) :
  0 <= criteria_count criteria <= 100.
Proof. unfold criteria_count. destruct (has_count criteria); lia. Qed.

(** At one pyramid level a point receives at most [criteria.maxCount]
    updates, clamped to 0..100, and 30 when the criteria carry no count:
    never more than 100. *)
Theorem tracker_updates_within_budget
        (I : Mat Z) (derivI : Mat (Z * Z)) (J : Mat Z) (winSize : Z * Z)
        (level : Z) (criteria : TermCriteria) (minEigThreshold : double)
        (err_needed get_min_eigenvals : bool)
        (prevPt estimate : Point2f) (status0 : bool) (t : Track) :
  track_point I derivI J winSize level (criteria_count criteria)
              (criteria_epsilon criteria) minEigThreshold
              err_needed get_min_eigenvals prevPt estimate status0 = Some t ->
  Z.of_nat (length (updates t)) <= criteria_count criteria <= 100.
Proof.
  intros H. pose proof (criteria_count_range criteria) as Hc.
  split; [|lia]. unfold track_point in H. cbv zeta in H.
  destruct (cvFloor _) as [ix|]; [|discriminate].
  destruct (cvFloor _) as [iy|]; [|discriminate].
  destruct (outside _ _ _ _ _).
  { injection H as <-. cbn [updates length]. lia. }
  destruct (bilinear_weights _ _) as [wI|]; [|discriminate].
  destruct (covariance _ _ _ _ _) as [[iA11 iA12] iA22].
  destruct (_ || _).
  { injection H as <-. cbn [updates length]. lia. }
  destruct (iterations_from _ _ _ _ _ _ _ _ _ _ _ _ _ _ _ _) as [t1|] eqn:E;
    [|discriminate].
  destruct (iterations_from_budget _ _ _ _ _ _ _ _ _ _ _ _ _ _ _ _ _ E) as (L & _).
  cbn [updates length] in L.
  assert (Hu : updates t = updates t1).
  { unfold check_final in H. destruct (_ && _ && _ && _).
    - destruct (cvFloor _); [|discriminate]. destruct (cvFloor _); [|discriminate].
      now injection H as <-.
    - now injection H as <-. }
  rewrite Hu. lia.
Qed.

Lemma tracker_updates_within_budget_witness :
  exists t,
    track_point Fixtures.prevImg Fixtures.prevDeriv Fixtures.nextImg (3, 3) 0
                (criteria_count Fixtures.criteria) (criteria_epsilon Fixtures.criteria)
                (F64.lit 1 10000) false true Fixtures.point Fixtures.point true
    = Some t /\
    Z.of_nat (length (updates t)) <= criteria_count Fixtures.criteria <= 100.
Proof.
  destruct (track_point Fixtures.prevImg Fixtures.prevDeriv Fixtures.nextImg (3, 3) 0
              (criteria_count Fixtures.criteria) (criteria_epsilon Fixtures.criteria)
              (F64.lit 1 10000) false true Fixtures.point Fixtures.point true)
    as [t|] eqn:E; [|vm_compute in E; discriminate].
  exists t. split; [reflexivity|].
  exact (tracker_updates_within_budget _ _ _ _ _ _ _ _ _ _ _ _ _ E).
Defined.

(** At one pyramid level the status of a point is never raised: a point
    that enters the level as lost leaves it as lost. Only level 0 clears
    the status: at any other level it is left as it was. *)
Theorem tracker_status_never_raised
        (I : Mat Z) (derivI : Mat (Z * Z)) (J : Mat Z) (winSize : Z * Z)
        (level count : Z) (eps minEigThreshold : double)
        (err_needed get_min_eigenvals : bool)
        (prevPt estimate : Point2f) (status0 : bool) (t : Track) :
  track_point I derivI J winSize level count eps minEigThreshold
              err_needed get_min_eigenvals prevPt estimate status0 = Some t ->
  (status0 = false -> status_i t = false) /\
  (level <> 0 -> status_i t = status0).
Proof.
  intros H. unfold track_point in H. cbv zeta in H.
  destruct (cvFloor _) as [ix|]; [|discriminate].
  destruct (cvFloor _) as [iy|]; [|discriminate].
  assert (R : forall p q u,
             (status0 = false ->
              status_i (mkTrack p q (F32.zero, F32.zero)
                                (if level =? 0 then false else status0) u) = false) /\
             (level <> 0 ->
              status_i (mkTrack p q (F32.zero, F32.zero)
                                (if level =? 0 then false else status0) u) = status0)).
  { intros p q u. cbn [status_i].
    destruct (Z.eqb_spec level 0) as [->|N]; split; auto; intros N'; now destruct N'. }
  destruct (outside _ _ _ _ _).
  { injection H as <-. apply R. }
  destruct (bilinear_weights _ _) as [wI|]; [|discriminate].
  destruct (covariance _ _ _ _ _) as [[iA11 iA12] iA22].
  destruct (_ || _).
  { injection H as <-. apply R. }
  destruct (iterations_from _ _ _ _ _ _ _ _ _ _ _ _ _ _ _ _) as [t1|] eqn:E;
    [|discriminate].
  destruct (iterations_from_budget _ _ _ _ _ _ _ _ _ _ _ _ _ _ _ _ _ E) as (_ & S1 & K1).
  cbn [status_i] in S1, K1.
  unfold check_final in H. split.
  - intros F. rewrite (S1 F) in H. cbn [andb] in H. injection H as <-. auto.
  - intros N. apply Z.eqb_neq in N. rewrite N, !andb_false_r in H. cbn [andb] in H.
    injection H as <-. apply K1. now apply Z.eqb_neq.
Qed.

Lemma tracker_status_never_raised_witness :
  exists t,
    track_point Fixtures.prevImg Fixtures.prevDeriv Fixtures.nextImg (3, 3) 1
                (criteria_count Fixtures.criteria) (criteria_epsilon Fixtures.criteria)
                (F64.lit 1 10000) false true Fixtures.point Fixtures.point false
    = Some t /\ status_i t = false.
Proof.
  destruct (track_point Fixtures.prevImg Fixtures.prevDeriv Fixtures.nextImg (3, 3) 1
              (criteria_count Fixtures.criteria) (criteria_epsilon Fixtures.criteria)
              (F64.lit 1 10000) false true Fixtures.point Fixtures.point false)
    as [t|] eqn:E; [|vm_compute in E; discriminate].
  exists t. split; [reflexivity|].
  exact (proj1 (tracker_status_never_raised _ _ _ _ _ _ _ _ _ _ _ _ _ _ E) eq_refl).
Defined.
(** ** [cvtDepthFromFloat] and [cvtDepthToFloat], pixel by pixel *)

(** [cvtDepthFromFloat] returns on every image of binary32 floats; the
    millimetres it stores are 16-bit values, and a depth that is negative,
    NaN, infinite or at least 65.535 m is stored as 0. *)
Theorem cvtDepthFromFloat_unrepresentable (depth32F : Mat float) :
  all_samples F32.valid depth32F = true ->
  exists depth16U countOverMax,
    cvtDepthFromFloat depth32F = Some (depth16U, countOverMax) /\
    forall i j, 0 <= i < rows depth32F -> 0 <= j < cols depth32F ->
      0 <= at_ depth16U i j <= 65535 /\
      (representable (at_ depth32F i j) = false -> at_ depth16U i j = 0).
Proof.
  intros Hvalid.
  destruct (cvtDepthFromFloat_pixels depth32F Hvalid) as (depth16U & Hret & _ & Hat).
  exists depth16U, (count_samples overflowing depth32F).
  split; [exact Hret|]. intros i j Hi Hj. rewrite Hat by assumption.
  destruct (stored_mm_spec (at_ depth32F i j) (all_samples_at _ _ _ _ Hvalid Hi Hj))
    as (_ & Hrange & Hzero & _).
  split; assumption.
Qed.

Lemma cvtDepthFromFloat_unrepresentable_witness :
  exists depth16U countOverMax,
    cvtDepthFromFloat Fixtures.depth_meters = Some (depth16U, countOverMax) /\
    forall i j, 0 <= i < rows Fixtures.depth_meters ->
                0 <= j < cols Fixtures.depth_meters ->
      0 <= at_ depth16U i j <= 65535 /\
      (representable (at_ Fixtures.depth_meters i j) = false -> at_ depth16U i j = 0).
Proof.
  apply (cvtDepthFromFloat_unrepresentable Fixtures.depth_meters). reflexivity.
Defined.

(** [cvtDepthToFloat] keeps the size of the image; each pixel is its
    millimetres divided by [1000.0f], and an empty pixel stays [0.0f]. *)
Theorem cvtDepthToFloat_pixels (depth16U : Mat Z) :
  0 < rows depth16U -> 0 < cols depth16U ->
  let depth32F := cvtDepthToFloat depth16U in
  rows depth32F = rows depth16U /\ cols depth32F = cols depth16U /\
  forall i j, 0 <= i < rows depth16U -> 0 <= j < cols depth16U ->
    at_ depth32F i j = F32.div (F32.of_Z (at_ depth16U i j)) (F32.of_Z 1000) /\
    (at_ depth16U i j = 0 -> at_ depth32F i j = F32.zero).
Proof.
  intros Hr Hc. cbv zeta. split; [|split].
  - unfold cvtDepthToFloat, mat_empty.
    replace (rows depth16U <=? 0) with false by (symmetry; apply Z.leb_gt; lia).
    replace (cols depth16U <=? 0) with false by (symmetry; apply Z.leb_gt; lia).
    cbn [orb]. rewrite for_pixels_scan_order.
    now destruct (fold_set_at (fun i j => mm_to_depth (at_ depth16U i j))
                    (scan_order (rows depth16U) (cols depth16U))
                    (constant (rows depth16U) (cols depth16U) F32.zero)) as (H & _).
  - unfold cvtDepthToFloat, mat_empty.
    replace (rows depth16U <=? 0) with false by (symmetry; apply Z.leb_gt; lia).
    replace (cols depth16U <=? 0) with false by (symmetry; apply Z.leb_gt; lia).
    cbn [orb]. rewrite for_pixels_scan_order.
    now destruct (fold_set_at (fun i j => mm_to_depth (at_ depth16U i j))
                    (scan_order (rows depth16U) (cols depth16U))
                    (constant (rows depth16U) (cols depth16U) F32.zero)) as (_ & H & _).
  - intros i j Hi Hj. rewrite cvtDepthToFloat_at by assumption.
    split; [reflexivity|]. intros ->. apply mm_to_depth_zero.
Qed.

Lemma cvtDepthToFloat_pixels_witness :
  rows (cvtDepthToFloat Fixtures.holes) = rows Fixtures.holes /\
  cols (cvtDepthToFloat Fixtures.holes) = cols Fixtures.holes /\
  forall i j, 0 <= i < rows Fixtures.holes -> 0 <= j < cols Fixtures.holes ->
    at_ (cvtDepthToFloat Fixtures.holes) i j
      = F32.div (F32.of_Z (at_ Fixtures.holes i j)) (F32.of_Z 1000) /\
    (at_ Fixtures.holes i j = 0 -> at_ (cvtDepthToFloat Fixtures.holes) i j = F32.zero).
Proof.
  apply (cvtDepthToFloat_pixels Fixtures.holes); reflexivity.
Defined.
